(** * Check10: rules engine, Zobrist hashing and alpha-beta search.

    A shallow embedding of [gameLogic.js] (class [Check10Game]),
    [zobrist.js] and the search part of [server.js], with the properties
    of the specification stated over it.

    Conventions of the embedding.
    - A JavaScript array is a [list]; [a[i]] out of range reads
      [undefined]; [null] and [undefined] are both falsy and the code
      never tells them apart, so an empty (or missing) square is [None].
    - A thrown [TypeError] (reading a property of [undefined] or [null],
      mixing a BigInt with [undefined]) is [None] in the [option] monad:
      no function here catches exceptions.
    - Piece numbers and points are integers ([Z]); search values are
      IEEE 754 doubles ([num]): NaN, the two infinities and the finite
      doubles, with sums and products rounded to nearest (ties to even)
      and overflowing to an infinity.
    - BigInt hashes are [Z] with [Z.lxor]. *)

From Stdlib Require Import ZArith QArith Qround Qabs Qpower Lia Lqa.
From Corelib Require PrimFloat FloatOps SpecFloat.
From stdpp Require Import base option list gmap.

#[local] Set Warnings "-notation-for-abbreviation,-clear-no-such-hyp".

Local Open Scope Z_scope.

(** ** Data model *)

Inductive Color := white | black.

#[global] Instance Color_eq_dec : EqDecision Color.
Proof. solve_decision. Defined.

Definition opponent (c : Color) : Color :=
  match c with white => black | black => white end.

Record Piece := mkPiece { color : Color; number : Z; promoted : bool }.

#[global] Instance Piece_eq_dec : EqDecision Piece.
Proof. solve_decision. Defined.

(** A board is an array of rows, a row an array of optional pieces. *)
Abbreviation Row := (list (option Piece)).
Abbreviation Board := (list (list (option Piece))).

(** [board[r][c]]: throws when [board[r]] is undefined. *)
Definition cell (board : Board) (r c : nat) : option (option Piece) :=
  match board !! r with
  | None => None
  | Some row => Some (default None (row !! c))
  end.

(** [board[r]?.[c]]: optional chaining, never throws on an array. *)
Definition cellq (board : Board) (r c : nat) : option Piece :=
  match board !! r with
  | None => None
  | Some row => default None (row !! c)
  end.

(** [a[i] = v] on a JavaScript array: in range it overwrites, past the end
    the array grows and the skipped slots are holes (read as undefined). *)
Definition js_set {A} (a : list (option A)) (i : nat) (v : option A)
  : list (option A) :=
  if (i <? length a)%nat then <[i := v]> a
  else a ++ replicate (i - length a) None ++ [v].

(** [board[r][c] = v]: throws when [board[r]] is undefined. *)
Definition set_cell (board : Board) (r c : nat) (v : option Piece)
  : option Board :=
  match board !! r with
  | None => None
  | Some row => Some (<[r := js_set row c v]> board)
  end.

(** The fixed 8x8 shape of the specification's data model. *)
Definition wf_board (board : Board) : Prop :=
  length board = 8%nat /\ Forall (fun row => length row = 8%nat) board.

(** Piece numbers range over 1..8. *)
Definition wf_piece (p : Piece) : Prop := 1 <= number p <= 8.

Definition wf_pieces (board : Board) : Prop :=
  forall r c p, cell board r c = Some (Some p) -> wf_piece p.

(** ** JavaScript numbers used as search values *)

(** The values of an IEEE 754 binary64 number: NaN, the two infinities
    and the finite doubles, a finite double as the rational it denotes.
    The sign of zero is not kept: no operation of the search tells -0
    from 0. *)
Inductive num := NaN | NegInf | Fin (q : Q) | PosInf.

(** The nearest integer, a tie going to the even one. *)
Definition roundHalfEven (x : Q) : Z :=
  let f := Qfloor x in
  match (x - inject_Z f ?= 1 # 2)%Q with
  | Lt => f
  | Gt => f + 1
  | Eq => if Z.even f then f else f + 1
  end.

(** The binary exponent [e] of a positive rational:
    [2^e <= a < 2^(e+1)]. *)
Definition exponentOf (a : Q) : Z :=
  let e0 := Z.log2 (Qnum a) - Z.log2 (Z.pos (Qden a)) in
  if Qle_bool (2 ^ e0) a then e0 else e0 - 1.

(** Rounding to binary64, to nearest with ties to even: a significand of
    53 bits, exponents from -1022 (gradual underflow below) to 1023, and
    an infinity when the rounded magnitude reaches [2^1024]. Every
    arithmetic operation of JavaScript on finite numbers is the exact
    result rounded so. *)
Definition round64 (q : Q) : num :=
  let q := Qred q in
  let a := Qabs q in
  if Qeq_bool a 0 then Fin 0
  else
    let e := Z.max (exponentOf a) (-1022) in
    let ulp := (2 ^ (e - 52))%Q in
    let r := (inject_Z (roundHalfEven (a / ulp)) * ulp)%Q in
    if Qle_bool (2 ^ 1024) r
    then (if Qle_bool 0 q then PosInf else NegInf)
    else Fin (Qred (if Qle_bool 0 q then r else - r)).

(** [a + b]. *)
Definition num_add (a b : num) : num :=
  match a, b with
  | NaN, _ | _, NaN => NaN
  | NegInf, PosInf | PosInf, NegInf => NaN
  | NegInf, _ | _, NegInf => NegInf
  | PosInf, _ | _, PosInf => PosInf
  | Fin x, Fin y => round64 (x + y)
  end.

Definition num_neg (a : num) : num :=
  match a with
  | NaN => NaN | NegInf => PosInf | PosInf => NegInf | Fin x => Fin (- x)
  end.

Definition num_sub (a b : num) : num := num_add a (num_neg b).

(** [a < b]; every comparison with NaN is false. *)
Definition num_lt (a b : num) : bool :=
  match a, b with
  | NaN, _ | _, NaN => false
  | _, NegInf => false
  | NegInf, _ => true
  | PosInf, _ => false
  | Fin _, PosInf => true
  | Fin x, Fin y => if Qlt_le_dec x y then true else false
  end.

(** [a <= b]. *)
Definition num_le (a b : num) : bool :=
  match a, b with
  | NaN, _ | _, NaN => false
  | NegInf, _ => true
  | _, PosInf => true
  | _, NegInf => false
  | PosInf, _ => false
  | Fin x, Fin y => if Qlt_le_dec y x then false else true
  end.

Definition num_gt (a b : num) : bool := num_lt b a.
Definition num_ge (a b : num) : bool := num_le b a.

(** [Math.max(a, b)] and [Math.min(a, b)]: NaN when an argument is NaN. *)
Definition num_max (a b : num) : num :=
  match a, b with
  | NaN, _ | _, NaN => NaN
  | _, _ => if num_lt a b then b else a
  end.

Definition num_min (a b : num) : num :=
  match a, b with
  | NaN, _ | _, NaN => NaN
  | _, _ => if num_lt b a then b else a
  end.

Definition of_Z (z : Z) : num := Fin (inject_Z z).

(** The sign of a number, for the product with an infinity. *)
Definition signOf (a : num) : Z :=
  match a with
  | Fin x => match (x ?= 0)%Q with Lt => -1 | Eq => 0 | Gt => 1 end
  | NegInf => -1
  | _ => 1
  end.

(** [a * b]: an infinity times zero is NaN, otherwise the product with an
    infinity is the infinity of the product of the signs. *)
Definition num_mul (a b : num) : num :=
  match a, b with
  | NaN, _ | _, NaN => NaN
  | Fin x, Fin y => round64 (x * y)
  | _, _ =>
      match signOf a * signOf b ?= 0 with
      | Eq => NaN
      | Lt => NegInf
      | Gt => PosInf
      end
  end.

(** The literals [0.5], a double, and [0.1], the double nearest to one
    tenth. *)
Definition half : num := Fin (1 # 2).
Definition tenth : num := Eval vm_compute in round64 (1 # 10).

(** The kernel's binary64 numbers, to compare the operations above with:
    the value of a float, and a list of doubles (tenths, integers around
    [2^53], the largest doubles, subnormal numbers) on which the sums and
    products of the two are compared. *)
Module Binary64.
Import PrimFloat FloatOps SpecFloat.

Definition of_float (f : float) : num :=
  match Prim2SF f with
  | S754_zero _ => Fin 0
  | S754_infinity false => PosInf
  | S754_infinity true => NegInf
  | S754_nan => NaN
  | S754_finite s m e =>
      Fin (Qred ((if s then -1 else 1) * inject_Z (Z.pos m) * 2 ^ e)%Q)
  end.

Definition sameNum (a b : num) : bool :=
  match a, b with
  | NaN, NaN | NegInf, NegInf | PosInf, PosInf => true
  | Fin x, Fin y => Qeq_bool x y
  | _, _ => false
  end.

Definition samples : list float :=
  [0x1.999999999999ap-4; 0x1.999999999999ap-3; 0x1.999999999999ap-2;
   0x1.6666666666666p-1; 4; 0x1.199999999999ap+2; 0x1.0000000000001p+53;
   1; 0x1.e42d130773b76p+1023; 0x1.8p-1073; -0x1.6666666666666p-1;
   -0x1.e42d130773b76p+1023]%float.

Definition conforms : bool :=
  forallb (fun x => forallb (fun y =>
     sameNum (of_float (x + y)%float) (num_add (of_float x) (of_float y))
     && sameNum (of_float (x * y)%float) (num_mul (of_float x) (of_float y)))
     samples) samples.

End Binary64.


(** ** Loops in the option monad *)

(** [for (x of xs) acc = body(acc, x)] where the body may throw. *)
Fixpoint foldM {A B} (body : A -> B -> option A) (acc : A) (xs : list B)
  : option A :=
  match xs with
  | [] => Some acc
  | x :: xs' =>
      match body acc x with
      | None => None
      | Some acc' => foldM body acc' xs'
      end
  end.

(** The index range of [for (let r = 0; r < 8; r++)]. *)
Definition range8 : list nat := seq 0 8.

(** ** zobrist.js *)

Module Zobrist.
Section Hasher.

(** [ZOBRIST.table] and [ZOBRIST.blackToMove]: filled with random
    64-bit BigInts once at start-up, constant afterwards. *)
Variable table : list (list Z).
Variable blackToMove : Z.

(** The table is [Array(16)] of [Array(64)]. *)
Definition wf_table : Prop :=
  length table = 16%nat /\ Forall (fun keys => length keys = 64%nat) table.

Definition getPieceIndex (piece : Piece) : Z :=
  let base := match color piece with white => 0 | black => 8 end in
  base + number piece - 1.

(** [ZOBRIST.table[pieceIndex][squareIndex]] as an operand of [^=]: a
    missing row throws on the second index, a missing key throws in the
    XOR of a BigInt with undefined. *)
Definition key (pieceIndex : Z) (squareIndex : nat) : option Z :=
  if pieceIndex <? 0 then None
  else match table !! Z.to_nat pieceIndex with
       | None => None
       | Some keys => keys !! squareIndex
       end.

(** One iteration of the inner loop of [calculateZobristKey]. *)
Definition hashSquare (board : Board) (r : nat) (hash : Z) (c : nat)
  : option Z :=
  match cell board r c with
  | None => None
  | Some None => Some hash
  | Some (Some piece) =>
      let squareIndex := (r * 8 + c)%nat in
      let pieceIndex := getPieceIndex piece in
      match key pieceIndex squareIndex with
      | None => None
      | Some k => Some (Z.lxor hash k)
      end
  end.

Definition calculateZobristKey (board : Board) (currentPlayer : Color)
  : option Z :=
  match foldM (fun hash r => foldM (hashSquare board r) hash range8)
              0 range8 with
  | None => None
  | Some hash =>
      Some (match currentPlayer with
            | black => Z.lxor hash blackToMove
            | white => hash
            end)
  end.

(** The incremental update of [server.js] (root loop and both branches
    of [alphaBetaSearch]): the two table keys of the moving piece and
    the side-to-move key. *)
Definition nextHash (currentHash : Z) (piece : Piece)
    (fromRow fromCol toRow toCol : nat) : option Z :=
  match key (getPieceIndex piece) (fromRow * 8 + fromCol) with
  | None => None
  | Some k1 =>
      match key (getPieceIndex piece) (toRow * 8 + toCol) with
      | None => None
      | Some k2 => Some (Z.lxor (Z.lxor (Z.lxor currentHash k1) k2) blackToMove)
      end
  end.

(** The table key of a square: 0 for an empty square. *)
Definition squareKey (board : Board) (sq : nat * nat) : option Z :=
  match cell board sq.1 sq.2 with
  | None => None
  | Some None => Some 0
  | Some (Some piece) => key (getPieceIndex piece) (sq.1 * 8 + sq.2)
  end.

Definition xorAll (ks : list Z) : Z := foldr Z.lxor 0 ks.

End Hasher.
End Zobrist.

(** Two boards that agree on the colour and number of every square,
    whatever the promoted flags. *)
Definition same_identity (a b : option Piece) : Prop :=
  match a, b with
  | None, None => True
  | Some p, Some q => color p = color q /\ number p = number q
  | _, _ => False
  end.

Definition same_up_to_promotion (b1 b2 : Board) : Prop :=
  Forall2 (Forall2 same_identity) b1 b2.

(** ** gameLogic.js: class Check10Game *)

(** The squares in the order of [for r in 0..7, for c in 0..7]. *)
Definition squares8 : list (nat * nat) :=
  r ← range8; c ← range8; [(r, c)].

(** [{ row, col, piece }] entries of [nearbyPieces]. *)
Module PD.
Record t := mk { row : nat; col : nat; piece : Piece }.
End PD.

(** [{ fromRow, fromCol, toRow, toCol, piece }]. *)
Module Move.
Record t := mk
  { fromRow : nat; fromCol : nat; toRow : nat; toCol : nat; piece : Piece }.
End Move.

#[global] Instance PD_eq_dec : EqDecision PD.t.
Proof. solve_decision. Defined.

#[global] Instance Move_eq_dec : EqDecision Move.t.
Proof. solve_decision. Defined.

Definition direction (pieceColor : Color) : Z :=
  match pieceColor with white => -1 | black => 1 end.

Definition inBounds (z : Z) : bool := (0 <=? z) && (z <? 8).

(** One iteration of [for (const deltaCol of [-1, 1])]. *)
Definition sideStep (boardState : Board) (newRow col : nat)
    (validMoves : list (nat * nat)) (deltaCol : Z)
  : option (list (nat * nat)) :=
  let newCol := Z.of_nat col + deltaCol in
  if inBounds newCol then
    match cell boardState newRow (Z.to_nat newCol) with
    | None => None
    | Some (Some _) => Some validMoves
    | Some None => Some (validMoves ++ [(newRow, Z.to_nat newCol)])
    end
  else Some validMoves.

Definition getValidMovesOnBoard (row col : nat) (boardState : Board)
    (pieceColor : Color) : option (list (nat * nat)) :=
  let newRow := Z.of_nat row + direction pieceColor in
  if inBounds newRow then
    match cell boardState (Z.to_nat newRow) col with
    | None => None
    | Some straight =>
        let validMoves :=
          match straight with
          | None => [(Z.to_nat newRow, col)]
          | Some _ => []
          end in
        foldM (sideStep boardState (Z.to_nat newRow) col) validMoves [-1; 1]
    end
  else Some [].

(** [getValidMoves(row, col)] on [this.board]: the direction is taken
    from the piece on the square; an empty square has no move. *)
Definition getValidMoves (board : Board) (row col : nat)
  : option (list (nat * nat)) :=
  match cell board row col with
  | None => None
  | Some None => Some []
  | Some (Some piece) =>
      let newRow := Z.of_nat row + direction (color piece) in
      if inBounds newRow then
        match cell board (Z.to_nat newRow) col with
        | None => None
        | Some straight =>
            let validMoves :=
              match straight with
              | None => [(Z.to_nat newRow, col)]
              | Some _ => []
              end in
            foldM (fun validMoves deltaCol =>
                     let newCol := Z.of_nat col + deltaCol in
                     if inBounds newCol then
                       match cell board (Z.to_nat newRow) (Z.to_nat newCol)
                       with
                       | None => None
                       | Some (Some _) => Some validMoves
                       | Some None =>
                           Some (validMoves
                                 ++ [(Z.to_nat newRow, Z.to_nat newCol)])
                       end
                     else Some validMoves) validMoves [-1; 1]
        end
      else Some []
  end.

Definition movesOfPiece (r c : nat) (piece : Piece)
    (validMoves : list (nat * nat)) : list Move.t :=
  (fun move => Move.mk r c move.1 move.2 piece) <$> validMoves.

Definition getAllPossibleMovesForPlayerOnBoard (playerColor : Color)
    (boardState : Board) : option (list Move.t) :=
  foldM (fun moves '(r, c) =>
           match cell boardState r c with
           | None => None
           | Some None => Some moves
           | Some (Some piece) =>
               if decide (color piece = playerColor) then
                 match getValidMovesOnBoard r c boardState (color piece) with
                 | None => None
                 | Some validMoves =>
                     Some (moves ++ movesOfPiece r c piece validMoves)
                 end
               else Some moves
           end) [] squares8.

(** [getAllPossibleMovesForPlayer(playerColor)] on [this.board]. *)
Definition getAllPossibleMovesForPlayer (board : Board) (playerColor : Color)
  : option (list Move.t) :=
  foldM (fun moves '(r, c) =>
           match cell board r c with
           | None => None
           | Some None => Some moves
           | Some (Some piece) =>
               if decide (color piece = playerColor) then
                 match getValidMoves board r c with
                 | None => None
                 | Some validMoves =>
                     Some (moves ++ movesOfPiece r c piece validMoves)
                 end
               else Some moves
           end) [] squares8.

(** [hasValidMoves(playerColor)]: returns at the first piece with a move. *)
Fixpoint hasValidMovesFrom (board : Board) (playerColor : Color)
    (squares : list (nat * nat)) : option bool :=
  match squares with
  | [] => Some false
  | (r, c) :: rest =>
      match cell board r c with
      | None => None
      | Some None => hasValidMovesFrom board playerColor rest
      | Some (Some piece) =>
          if decide (color piece = playerColor) then
            match getValidMoves board r c with
            | None => None
            | Some [] => hasValidMovesFrom board playerColor rest
            | Some (_ :: _) => Some true
            end
          else hasValidMovesFrom board playerColor rest
      end
  end.

Definition hasValidMoves (board : Board) (playerColor : Color) : option bool :=
  hasValidMovesFrom board playerColor squares8.

(** *** Promotion *)

Record PromotionResult := mkPromotion
  { points : Z; leadsToChoice : bool; captures : list (nat * nat) }.

Definition isMatch (opponentColor : Color) (n : Z) (targetPiece : Piece) : bool :=
  bool_decide (color targetPiece = opponentColor)
  && (number targetPiece =? n) && negb (promoted targetPiece).

(** The scan of [processPromotion]: positions of the opposing, unpromoted
    pieces with the number [n], in row-major order. *)
Definition matchingPieces (boardState : Board) (opponentColor : Color) (n : Z)
  : option (list (nat * nat)) :=
  foldM (fun found '(r, c) =>
           match cell boardState r c with
           | None => None
           | Some None => Some found
           | Some (Some targetPiece) =>
               Some (if isMatch opponentColor n targetPiece
                     then found ++ [(r, c)] else found)
           end) [] squares8.

Definition processPromotion (row col : nat) (boardState : Board)
  : option PromotionResult :=
  match cell boardState row col with
  | None | Some None => None
  | Some (Some piece) =>
      let opponentColor :=
        match color piece with white => black | black => white end in
      match matchingPieces boardState opponentColor (number piece) with
      | None => None
      | Some [] => Some (mkPromotion 0 false [])
      | Some [m] => Some (mkPromotion (number piece) false [m])
      | Some (m :: _ :: _) => Some (mkPromotion (number piece) true [m])
      end
  end.

(** *** Combinations *)

Definition posOf (p : PD.t) : Z * Z :=
  (Z.of_nat (PD.row p), Z.of_nat (PD.col p)).

Definition directions : list (Z * Z) :=
  [(-1, -1); (-1, 0); (-1, 1); (0, -1); (0, 1); (1, -1); (1, 0); (1, 1)].

(** One iteration of [for (const [dR, dC] of d)] for the dequeued [c].
    [pS] and [vS] are sets of keys [`${row},${col}`], modelled as lists of
    coordinate pairs; [vS] only grows by keys it does not hold, so its
    length is its size. [ps.find(...)] returns an element at [(nR, nC)]
    (one exists, because [pS.has(k)]) of which only [row] and [col] are
    read later, so the queue holds coordinate pairs. *)
Definition visit (pS : list (Z * Z)) (c : Z * Z)
    (st : list (Z * Z) * list (Z * Z)) (d : Z * Z)
  : list (Z * Z) * list (Z * Z) :=
  let k := (c.1 + d.1, c.2 + d.2) in
  if bool_decide (k ∈ pS) && negb (bool_decide (k ∈ st.1))
  then (st.1 ++ [k], st.2 ++ [k])
  else st.

(** [while (q.length > 0)]: [fuel] bounds the number of iterations. *)
Fixpoint bfs (fuel : nat) (pS vS q : list (Z * Z)) : option (list (Z * Z)) :=
  match q with
  | [] => Some vS
  | c :: q' =>
      match fuel with
      | O => None
      | S fuel' =>
          let st := foldl (visit pS c) (vS, q') directions in
          bfs fuel' pS st.1 st.2
      end
  end.

Definition areConnectedOptimized (ps : list PD.t) : bool :=
  match ps with
  | [] | [_] => true
  | p0 :: _ =>
      match bfs (length ps) (posOf <$> ps) [posOf p0] [posOf p0] with
      | Some vS => (length vS =? length ps)%nat
      | None => false
      end
  end.

(** 32-bit integer operators of JavaScript: operands go through ToInt32
    and the shift count is taken modulo 32. *)
Definition to_int32 (z : Z) : Z := (z + 2 ^ 31) mod 2 ^ 32 - 2 ^ 31.

Definition js_shl (a : Z) (n : nat) : Z :=
  to_int32 (Z.shiftl (to_int32 a) (Z.of_nat n mod 32)).

Definition js_shr (a : Z) (n : nat) : Z :=
  Z.shiftr (to_int32 a) (Z.of_nat n mod 32).

Definition js_and (a b : Z) : Z := Z.land (to_int32 a) (to_int32 b).

(** [cL]: the number of [i < n] with [(m >> i) & 1]. *)
Definition bitCount (m : Z) (n : nat) : nat :=
  length (filter (fun i => js_and (js_shr m i) 1 <> 0) (seq 0 n)).

(** [c]: the entries [ps[i]] with [m & (1 << i)], from index [i] on. *)
Fixpoint select (m : Z) (i : nat) (ps : list PD.t) : list PD.t :=
  match ps with
  | [] => []
  | pD :: rest =>
      if decide (js_and m (js_shl 1 i) <> 0)
      then pD :: select m (S i) rest
      else select m (S i) rest
  end.

(** [s], [hW] and [hB] of a candidate. *)
Definition sumNumbers (c : list PD.t) : Z :=
  foldl (fun s pD => s + number (PD.piece pD)) 0 c.

Definition hasColor (k : Color) (c : list PD.t) : bool :=
  existsb (fun pD => bool_decide (color (PD.piece pD) = k)) c.

Definition isCombination (c : list PD.t) : bool :=
  (sumNumbers c =? 10) && hasColor white c && hasColor black c
  && areConnectedOptimized c.

(** The values of [m] in [for (let m = 3; m < (1 << n); m++)]. *)
Definition masks (n : nat) : list Z :=
  Z.of_nat <$> seq 3 (Z.to_nat (js_shl 1 n) - 3).

Definition candidate (ps : list PD.t) (m : Z) : option (list PD.t) :=
  let cL := bitCount m (length ps) in
  if ((8 <? cL) || (cL <? 2))%nat then None
  else
    let c := select m 0 ps in
    if isCombination c then Some c else None.

Definition findValidCombinations (ps : list PD.t) : list (list PD.t) :=
  omap (candidate ps) (masks (length ps)).

(** The row and column ranges of the radius-3 window: on [nat],
    [checkRow - 3] is [Math.max(0, checkRow - radius)]. *)
Definition windowRange (check : nat) : list nat :=
  seq (check - 3) (S (Nat.min 7 (check + 3)) - (check - 3)).

Definition windowSquares (checkRow checkCol : nat) : list (nat * nat) :=
  r ← windowRange checkRow; c ← windowRange checkCol; [(r, c)].

Definition nearbyPieces (checkRow checkCol : nat) (boardState : Board)
  : option (list PD.t) :=
  foldM (fun nearby '(r, c) =>
           match cell boardState r c with
           | None => None
           | Some None => Some nearby
           | Some (Some piece) => Some (nearby ++ [PD.mk r c piece])
           end) [] (windowSquares checkRow checkCol).

(** The flag loop stops once both flags are set, which does not change
    their final values. *)
Definition checkCombinationsAroundPositionOnBoard (checkRow checkCol : nat)
    (boardState : Board) (scoringPlayerColor : Color)
  : option (list (list PD.t)) :=
  match nearbyPieces checkRow checkCol boardState with
  | None => None
  | Some nearby =>
      let hasWhitePiece := hasColor white nearby in
      let hasBlackPiece := hasColor black nearby in
      if negb hasWhitePiece || negb hasBlackPiece then Some []
      else Some (findValidCombinations nearby)
  end.

(** *** simulateFullMove *)

Record SimResult := mkSim
  { tempBoard : option Board;
    aiScoreGain : num;
    leadsToChoiceForThisPlayer : bool }.

(** [{ tempBoard: null, aiScoreGain: -Infinity,
       leadsToChoiceForThisPlayer: false }]. *)
Definition invalidMove : SimResult := mkSim None NegInf false.

Definition isPromotionRank (c : Color) (toRow : nat) : bool :=
  match c with
  | white => (toRow =? 0)%nat
  | black => (toRow =? 7)%nat
  end.

(** [tempBoard[r][c] = null] for a list of squares. *)
Definition clearSquares (board : Board) (squares : list (nat * nat))
  : option Board :=
  foldM (fun b '(r, c) => set_cell b r c None) board squares.

(** Lines 287-300: the promotion pass on the board after the relocation.
    [movedPiece] is the object stored at the destination, so setting its
    [promoted] field shows in [tempBoard[toRow][toCol]]. Returns the
    board, the points and the choice flag. *)
Definition promotionPass (sourceBoard tempBoard : Board)
    (fromRow fromCol toRow toCol : nat) (movedPiece : Piece)
  : option (Board * Z * bool) :=
  match cell sourceBoard fromRow fromCol with
  | None => None
  | Some originalPieceFromSource =>
      let isPromotion := isPromotionRank (color movedPiece) toRow in
      match originalPieceFromSource with
      | Some original =>
          if isPromotion && negb (promoted original) then
            let movedPiece' :=
              mkPiece (color movedPiece) (number movedPiece) true in
            match set_cell tempBoard toRow toCol (Some movedPiece') with
            | None => None
            | Some tempBoard1 =>
                match processPromotion toRow toCol tempBoard1 with
                | None => None
                | Some promotionResult =>
                    match clearSquares tempBoard1 (captures promotionResult) with
                    | None => None
                    | Some tempBoard2 =>
                        Some (tempBoard2, points promotionResult,
                              leadsToChoice promotionResult)
                    end
                end
            end
          else Some (tempBoard, 0, false)
      | None => Some (tempBoard, 0, false)
      end
  end.

(** Lines 305-316: one member of one combination; [removed] is the set
    [piecesToRemoveByCombination] in insertion order. *)
Definition collectCapture (tempBoard : Board) (forPlayerColor : Color)
    (st : Z * list (nat * nat)) (pos : PD.t) : Z * list (nat * nat) :=
  match cellq tempBoard (PD.row pos) (PD.col pos) with
  | None => st
  | Some pieceInCombination =>
      if decide (color pieceInCombination <> forPlayerColor) then
        let key := (PD.row pos, PD.col pos) in
        if bool_decide (key ∈ st.2) then st
        else (st.1 + number pieceInCombination, st.2 ++ [key])
      else st
  end.

Definition collectCaptures (tempBoard : Board) (forPlayerColor : Color)
    (combinations : list (list PD.t)) : Z * list (nat * nat) :=
  foldl (fun st combination =>
           foldl (collectCapture tempBoard forPlayerColor) st combination)
        (0, []) combinations.

(** Lines 302-322: the combination pass. Returns the board and the points. *)
Definition combinationPass (tempBoard : Board) (toRow toCol : nat)
    (forPlayerColor : Color) : option (Board * Z) :=
  match checkCombinationsAroundPositionOnBoard toRow toCol tempBoard
          forPlayerColor with
  | None => None
  | Some combinations =>
      let st := collectCaptures tempBoard forPlayerColor combinations in
      match clearSquares tempBoard st.2 with
      | None => None
      | Some tempBoard' => Some (tempBoard', st.1)
      end
  end.

(** The deep copy [sourceBoard.map(r => r.map(p => (p ? { ...p } : null)))]
    builds arrays and objects with the contents of the source; as a value
    it is the source board itself. The heap model [simulateFullMoveH]
    below accounts for the copies and the shared [movedPiece] object, and
    is shown to compute the same results. *)
Definition simulateFullMove (fromRow fromCol toRow toCol : nat)
    (forPlayerColor : Color) (sourceBoard : Board) : option SimResult :=
  let tempBoard := sourceBoard in
  match cellq tempBoard fromRow fromCol with
  | None => Some invalidMove
  | Some pieceToMove =>
      if decide (color pieceToMove <> forPlayerColor) then Some invalidMove
      else
        let movedPiece := pieceToMove in
        match cell tempBoard toRow toCol with
        | None => None
        | Some (Some _) => Some invalidMove
        | Some None =>
            match set_cell tempBoard toRow toCol (Some movedPiece) with
            | None => None
            | Some tempBoard1 =>
                match set_cell tempBoard1 fromRow fromCol None with
                | None => None
                | Some tempBoard2 =>
                    match promotionPass sourceBoard tempBoard2
                            fromRow fromCol toRow toCol movedPiece with
                    | None => None
                    | Some (tempBoard3, promotionPoints, leads) =>
                        match combinationPass tempBoard3 toRow toCol
                                forPlayerColor with
                        | None => None
                        | Some (tempBoard4, combinationPoints) =>
                            Some (mkSim (Some tempBoard4)
                                    (of_Z (promotionPoints + combinationPoints))
                                    leads)
                        end
                    end
                end
            end
        end
  end.

(** ** Declarative notions used in the statements *)

(** A legal move of [side] on [board]: one of its pieces steps one row
    forward, straight or diagonally, to an empty square of the board. *)
Definition legalMove (board : Board) (side : Color) (m : Move.t) : Prop :=
  (Move.fromRow m < 8)%nat /\ (Move.fromCol m < 8)%nat /\
  (Move.toRow m < 8)%nat /\ (Move.toCol m < 8)%nat /\
  cell board (Move.fromRow m) (Move.fromCol m) = Some (Some (Move.piece m)) /\
  color (Move.piece m) = side /\
  Z.of_nat (Move.toRow m) = Z.of_nat (Move.fromRow m) + direction side /\
  -1 <= Z.of_nat (Move.toCol m) - Z.of_nat (Move.fromCol m) <= 1 /\
  cell board (Move.toRow m) (Move.toCol m) = Some None.


(** The square [sq] of [board] holds a piece of colour [opponentColor]
    with the number [n] that is not promoted. *)
Definition matchAt (board : Board) (opponentColor : Color) (n : Z)
    (sq : nat * nat) : bool :=
  match cell board sq.1 sq.2 with
  | Some (Some q) => isMatch opponentColor n q
  | _ => false
  end.

(** A piece that was not promoted ends its move on its promotion rank. *)
Definition triggersPromotion (p : Piece) (toRow : nat) : bool :=
  isPromotionRank (color p) toRow && negb (promoted p).

Definition promote (p : Piece) : Piece := mkPiece (color p) (number p) true.


(** Two squares touch in one of the eight directions. *)
Definition adjacent (a b : Z * Z) : Prop :=
  exists d, d ∈ directions /\ b = (a.1 + d.1, a.2 + d.2).

(** [b] is reached from [a] by steps between touching squares of [pS]. *)
Definition reach (pS : list (Z * Z)) : relation (Z * Z) :=
  rtc (fun x y => adjacent x y /\ y ∈ pS).

(** The squares of [c] form one connected component under 8-directional
    adjacency. *)
Definition connected (c : list PD.t) : Prop :=
  forall p q, p ∈ posOf <$> c -> q ∈ posOf <$> c -> reach (posOf <$> c) p q.


(** The sub-list of [ps] selected by the binary digits of [m], lowest
    digit first: the mathematical reading of a bit mask. *)
Fixpoint pick {A} (m : Z) (ps : list A) : list A :=
  match ps with
  | [] => []
  | x :: rest =>
      if Z.odd m then x :: pick (Z.div2 m) rest else pick (Z.div2 m) rest
  end.


(** The square [(r, c)] lies on the board within Chebyshev distance 3 of
    [(checkRow, checkCol)]. *)
Definition inWindow (checkRow checkCol r c : nat) : Prop :=
  -3 <= Z.of_nat r - Z.of_nat checkRow <= 3 /\ (r <= 7)%nat /\
  -3 <= Z.of_nat c - Z.of_nat checkCol <= 3 /\ (c <= 7)%nat.

(** The accepted combinations, in the words of the specification: 2 to 8
    occupied squares of the window whose numbers sum to 10, with a piece of
    each colour, forming one connected component. *)
Definition validCombination (ps c : list PD.t) : Prop :=
  c `sublist_of` ps /\ (2 <= length c <= 8)%nat /\
  sumNumbers c = 10 /\
  (exists pd, pd ∈ c /\ color (PD.piece pd) = white) /\
  (exists pd, pd ∈ c /\ color (PD.piece pd) = black) /\
  connected c.


(** The number of the piece on a square, 0 for an empty square. *)
Definition numberAt (board : Board) (sq : nat * nat) : Z :=
  match cellq board sq.1 sq.2 with
  | Some q => number q
  | None => 0
  end.

(** The square holds a piece the mover [side] can capture. *)
Definition capturable (board : Board) (side : Color) (sq : nat * nat) : Prop :=
  exists q, cellq board sq.1 sq.2 = Some q /\ color q <> side.

Definition sumZ (zs : list Z) : Z := foldr Z.add 0 zs.

(** What [simulateFullMove] hands to the combination pass when it moves
    the piece [p]: the board after the relocation and the promotion pass,
    the promotion points and the choice flag (lines 281-300). *)
Definition afterPromotion (b : Board) (fr fc tr tc : nat) (p : Piece)
  : option (Board * Z * bool) :=
  match set_cell b tr tc (Some p) with
  | None => None
  | Some b1 =>
      match set_cell b1 fr fc None with
      | None => None
      | Some b2 => promotionPass b b2 fr fc tr tc p
      end
  end.

(** The key [`${pos.row},${pos.col}`] of a member of a combination. *)
Definition keyOf (pd : PD.t) : nat * nat := (PD.row pd, PD.col pd).



(** ** Example positions *)

Definition W (n : Z) : option Piece := Some (mkPiece white n false).
Definition B (n : Z) : option Piece := Some (mkPiece black n false).
Definition emptyRow : list (option Piece) := replicate 8 None.

(** Two White 3s and a Black 4 in a diagonal chain; White moves
    (5,4) -> (4,4). *)
Definition clusterBoard : Board :=
  [ emptyRow; emptyRow;
    [None; None; W 3;  None; None; None; None; None];
    [None; None; None; B 4;  None; None; None; None];
    emptyRow;
    [None; None; None; None; W 3;  None; None; None];
    emptyRow; emptyRow ].

Definition clusterBoardAfter : Board :=
  [ emptyRow; emptyRow;
    [None; None; W 3;  None; None; None; None; None];
    emptyRow;
    [None; None; None; None; W 3;  None; None; None];
    emptyRow; emptyRow; emptyRow ].

(** A crowded position: 16 Black and 15 White pieces, every number at
    most twice per colour. White moves (4,3) -> (3,3); afterwards the
    window around (3,3) holds all 31 pieces, among them the White 3s on
    (3,2) and (3,3) and the Black 4 on (2,3). *)
Definition crowdedBoard : Board :=
  [ [B 8; B 7; B 6; B 5; B 4; B 3; B 2; None];
    [B 1; B 2; B 3; B 5; B 6; B 7; B 8; None];
    [None; None; B 1; B 4; None; None; None; None];
    [W 1; W 1; W 3; None; None; None; None; None];
    [W 2; W 2; W 4; W 3; W 4; W 5; W 5; None];
    [W 6; W 6; W 7; W 7; W 8; None; None; None];
    emptyRow; emptyRow ].

Definition crowdedBoardAfter : Board :=
  [ [B 8; B 7; B 6; B 5; B 4; B 3; B 2; None];
    [B 1; B 2; B 3; B 5; B 6; B 7; B 8; None];
    [None; None; B 1; B 4; None; None; None; None];
    [W 1; W 1; W 3; W 3; None; None; None; None];
    [W 2; W 2; W 4; None; W 4; W 5; W 5; None];
    [W 6; W 6; W 7; W 7; W 8; None; None; None];
    emptyRow; emptyRow ].

Definition crowdedCluster : list PD.t :=
  [ PD.mk 2 3 (mkPiece black 4 false);
    PD.mk 3 2 (mkPiece white 3 false);
    PD.mk 3 3 (mkPiece white 3 false) ].

(** The 31 entries of [nearbyPieces] around (3,3) after the move. *)
Definition crowdedPieces : list PD.t :=
  Eval vm_compute in default [] (nearbyPieces 3 3 crowdedBoardAfter).


(** ** server.js: iterative deepening, alpha-beta, transposition table *)

Definition MAX_SEARCH_DEPTH : nat := 15.
Definition AI_THINKING_TIME_MS : Z := 10000.

Inductive Flag := EXACT | LOWERBOUND | UPPERBOUND.

#[global] Instance Flag_eq_dec : EqDecision Flag.
Proof. solve_decision. Defined.

(** [{ value, depth, flag }]. *)
Module Entry.
Record t := mk { value : num; depth : nat; flag : Flag }.
End Entry.

(** [transpositionTable]: a [Map] keyed by BigInt hashes. *)
Abbreviation TT := (gmap Z Entry.t).

(** The fields of a [Check10Game] the search reads. [board] is [None] for
    the [null] board of an invalid simulation. *)
Module Game.
Record t := mk
  { board : option Board;
    currentPlayer : Color;
    whiteScore : num;
    blackScore : num;
    gameOver : bool }.
End Game.

(** Computations of the search: they read and write the transposition
    table and may throw. *)
Definition Search (A : Type) : Type := TT -> option (A * TT).

Definition ret {A} (a : A) : Search A := fun tbl => Some (a, tbl).

Definition bind {A B} (m : Search A) (k : A -> Search B) : Search B :=
  fun tbl => match m tbl with
             | None => None
             | Some (a, tbl') => k a tbl'
             end.

(** A computation of the rules engine or the hasher, which may throw. *)
Definition lift {A} (o : option A) : Search A :=
  fun tbl => match o with None => None | Some a => Some (a, tbl) end.

Declare Scope search_scope.
Delimit Scope search_scope with search.
Notation "'let*' x := m 'in' k" := (bind m (fun x => k))
  (at level 10, x pattern, m at level 100, k at level 200) : search_scope.

Section SearchEngine.

Variable table : list (list Z).
Variable blackToMove : Z.

Local Open Scope search_scope.

(** Lines 242-245: [pieceValue] starts at 0; a promoted piece adds
    [number * 0.5], every piece [0.1] times the rows it has advanced. *)
Definition pieceValue (piece : Piece) (r : nat) : num :=
  let pieceValue := Fin 0 in
  let pieceValue :=
    if promoted piece
    then num_add pieceValue (num_mul (of_Z (number piece)) half)
    else pieceValue in
  match color piece with
  | white => num_add pieceValue (num_mul (of_Z (7 - Z.of_nat r)) tenth)
  | black => num_add pieceValue (num_mul (of_Z (Z.of_nat r)) tenth)
  end.

Definition evaluateBoard (game : Game.t) (aiRootColor : Color) : option num :=
  let opponentColor :=
    match aiRootColor with white => black | black => white end in
  let aiScore :=
    match aiRootColor with
    | white => Game.whiteScore game | black => Game.blackScore game
    end in
  let opponentScore :=
    match opponentColor with
    | white => Game.whiteScore game | black => Game.blackScore game
    end in
  let score := num_add (Fin 0) (num_sub aiScore opponentScore) in
  match Game.board game with
  | None => None
  | Some board =>
      foldM (fun score '(r, c) =>
               match cell board r c with
               | None => None
               | Some None => Some score
               | Some (Some piece) =>
                   if decide (color piece = aiRootColor)
                   then Some (num_add score (pieceValue piece r))
                   else Some (num_sub score (pieceValue piece r))
               end) score squares8
  end.

(** [hydrateFromServerState] on a fresh game: [gameOver] is
    [undefined || false]. *)
Definition childGame (game : Game.t) (sim : SimResult) : Game.t :=
  let mover := Game.currentPlayer game in
  Game.mk (tempBoard sim)
    (match mover with white => black | black => white end)
    (num_add (Game.whiteScore game)
       (match mover with white => aiScoreGain sim | black => Fin 0 end))
    (num_add (Game.blackScore game)
       (match mover with black => aiScoreGain sim | white => Fin 0 end))
    false.

(** [game.simulateFullMove(move.fromRow, ..., color)] on [this.board]. *)
Definition simulate (game : Game.t) (move : Move.t) (forPlayerColor : Color)
  : option SimResult :=
  match Game.board game with
  | None => None
  | Some board =>
      simulateFullMove (Move.fromRow move) (Move.fromCol move)
        (Move.toRow move) (Move.toCol move) forPlayerColor board
  end.

Definition hashAfter (currentHash : Z) (move : Move.t) : option Z :=
  Zobrist.nextHash table blackToMove currentHash (Move.piece move)
    (Move.fromRow move) (Move.fromCol move)
    (Move.toRow move) (Move.toCol move).

(** The loop of the maximizing branch, from the moves still to try;
    returns [bestValue]. *)
Fixpoint maxLoop (search : Game.t -> num -> num -> Z -> Search num)
    (game : Game.t) (currentHash : Z) (beta : num)
    (moves : list Move.t) (alpha bestValue : num) : Search num :=
  match moves with
  | [] => ret bestValue
  | move :: rest =>
      let* nextHash := lift (hashAfter currentHash move) in
      let* sim := lift (simulate game move (Game.currentPlayer game)) in
      let* v := search (childGame game sim) alpha beta nextHash in
      let eval := num_add (aiScoreGain sim) v in
      let bestValue := num_max bestValue eval in
      let alpha := num_max alpha eval in
      if num_le beta alpha then ret bestValue
      else maxLoop search game currentHash beta rest alpha bestValue
  end.

(** The loop of the minimizing branch; returns [bestValue] and the
    final [beta], which the flag computation reads. *)
Fixpoint minLoop (search : Game.t -> num -> num -> Z -> Search num)
    (game : Game.t) (currentHash : Z) (alpha : num)
    (moves : list Move.t) (beta bestValue : num) : Search (num * num) :=
  match moves with
  | [] => ret (bestValue, beta)
  | move :: rest =>
      let* nextHash := lift (hashAfter currentHash move) in
      let* sim := lift (simulate game move (Game.currentPlayer game)) in
      let* v := search (childGame game sim) alpha beta nextHash in
      let eval := num_add (num_neg (aiScoreGain sim)) v in
      let bestValue := num_min bestValue eval in
      let beta := num_min beta eval in
      if num_le beta alpha then ret (bestValue, beta)
      else minLoop search game currentHash alpha rest beta bestValue
  end.

(** Lines 157-163: the table probe. Returns the value to return at
    once, or the window to go on with. *)
Definition probe (tableEntry : option Entry.t) (depth : nat) (alpha beta : num)
  : num + (num * num) :=
  match tableEntry with
  | Some e =>
      if (depth <=? Entry.depth e)%nat then
        match Entry.flag e with
        | EXACT => inl (Entry.value e)
        | LOWERBOUND =>
            let alpha := num_max alpha (Entry.value e) in
            if num_ge alpha beta then inl (Entry.value e) else inr (alpha, beta)
        | UPPERBOUND =>
            let beta := num_min beta (Entry.value e) in
            if num_ge alpha beta then inl (Entry.value e) else inr (alpha, beta)
        end
      else inr (alpha, beta)
  | None => inr (alpha, beta)
  end.

(** Lines 220-222. *)
Definition storedFlag (bestValue originalAlpha beta : num) : Flag :=
  if num_le bestValue originalAlpha then UPPERBOUND
  else if num_ge bestValue beta then LOWERBOUND
  else EXACT.

Definition store (currentHash : Z) (e : Entry.t) : Search unit :=
  fun tbl => Some (tt, <[currentHash := e]> tbl).

(** Lines 165-225 for a node that is not cut off by the table. *)
Definition expand (search : Game.t -> num -> num -> bool -> Z -> Search num)
    (game : Game.t) (depth : nat) (originalAlpha alpha beta : num)
    (isMaximizingPlayer : bool) (currentHash : Z) : Search num :=
  let* possibleMoves :=
    lift (match Game.board game with
          | None => None
          | Some board =>
              getAllPossibleMovesForPlayer board (Game.currentPlayer game)
          end) in
  let* result :=
    (if isMaximizingPlayer then
       let* bestValue :=
         maxLoop (fun g a b h => search g a b false h) game currentHash beta
           possibleMoves alpha NegInf in
       ret (bestValue, beta)
     else
       minLoop (fun g a b h => search g a b true h) game currentHash alpha
         possibleMoves beta PosInf) in
  let '(bestValue, beta) := result in
  let flag := storedFlag bestValue originalAlpha beta in
  let* _ := store currentHash (Entry.mk bestValue depth flag) in
  ret bestValue.

Fixpoint alphaBetaSearch (depth : nat) (aiRootColor : Color) (game : Game.t)
    (alpha beta : num) (isMaximizingPlayer : bool) (currentHash : Z)
  : Search num :=
  fun tbl =>
    let originalAlpha := alpha in
    match probe (tbl !! currentHash) depth alpha beta with
    | inl v => Some (v, tbl)
    | inr (alpha, beta) =>
        match depth with
        | O => lift (evaluateBoard game aiRootColor) tbl
        | S depth' =>
            let terminal :=
              if Game.gameOver game then Some true
              else match Game.board game with
                   | None => None
                   | Some board =>
                       negb <$> hasValidMoves board (Game.currentPlayer game)
                   end in
            match terminal with
            | None => None
            | Some true => lift (evaluateBoard game aiRootColor) tbl
            | Some false =>
                expand (alphaBetaSearch depth' aiRootColor) game depth
                  originalAlpha alpha beta isMaximizingPlayer currentHash tbl
            end
        end
    end.

(** *** findBestMoveWithAlphaBeta *)

(** [Date.now()]: the reading of the [k]-th call. *)
Variable now : nat -> Z.
(** [Math.random()]: a number in [0, 1). *)
Variable random : Q.

(** [Date.now() - startTime > AI_THINKING_TIME_MS] at the call number
    [ticks]. *)
Definition expired (startTime : Z) (ticks : nat) : bool :=
  AI_THINKING_TIME_MS <? now ticks - startTime.

Definition sameSquares (bestMoveSoFar m : Move.t) : bool :=
  (Move.fromRow m =? Move.fromRow bestMoveSoFar)%nat
  && (Move.fromCol m =? Move.fromCol bestMoveSoFar)%nat
  && (Move.toRow m =? Move.toRow bestMoveSoFar)%nat
  && (Move.toCol m =? Move.toCol bestMoveSoFar)%nat.

(** [findIndex]: [None] for -1. *)
Fixpoint findIndex {A} (f : A -> bool) (l : list A) : option nat :=
  match l with
  | [] => None
  | x :: l' => if f x then Some O else S <$> findIndex f l'
  end.

(** Lines 87-95: the best move so far goes first. *)
Definition prioritize (possibleMoves : list Move.t) (bestMoveSoFar : Move.t)
  : list Move.t :=
  match findIndex (sameSquares bestMoveSoFar) possibleMoves with
  | Some bestMoveIndex =>
      match possibleMoves !! bestMoveIndex with
      | Some prioritizedMove =>
          prioritizedMove :: delete bestMoveIndex possibleMoves
      | None => possibleMoves
      end
  | None => possibleMoves
  end.

(** How the loop over the root moves ends: by the time limit, or with
    the best move and value of the depth. *)
Inductive RootLoop :=
| TimeLimit
| Completed (currentBestMoveForDepth : option Move.t)
            (bestValueForDepth : num).

(** Lines 108-128: the value of a root move. *)
Definition rootMoveValue (game : Game.t) (playerColor : Color) (depth : nat)
    (rootHash : Z) (move : Move.t) : Search num :=
  let* sim := lift (simulate game move playerColor) in
  if leadsToChoiceForThisPlayer sim then ret (aiScoreGain sim)
  else
    let* nextHash := lift (hashAfter rootHash move) in
    let* v := alphaBetaSearch (depth - 1) playerColor (childGame game sim)
                NegInf PosInf false nextHash in
    ret (num_add (aiScoreGain sim) v).

(** Lines 102-134; [ticks] counts the calls of [Date.now()]. *)
Fixpoint rootLoop (game : Game.t) (playerColor : Color) (depth : nat)
    (startTime rootHash : Z) (moves : list Move.t)
    (currentBestMoveForDepth : option Move.t) (bestValueForDepth : num)
    (ticks : nat) : Search (RootLoop * nat) :=
  match moves with
  | [] => ret (Completed currentBestMoveForDepth bestValueForDepth, ticks)
  | move :: rest =>
      if expired startTime ticks then ret (TimeLimit, S ticks)
      else
        let* moveValue := rootMoveValue game playerColor depth rootHash move in
        if num_gt moveValue bestValueForDepth
        then rootLoop game playerColor depth startTime rootHash rest
               (Some move) moveValue (S ticks)
        else rootLoop game playerColor depth startTime rootHash rest
               currentBestMoveForDepth bestValueForDepth (S ticks)
  end.

(** Lines 83-146: the iterative deepening loop over the remaining
    depths. [bestMoveSoFar] may be [null]. *)
Fixpoint depthLoop (game : Game.t) (playerColor : Color)
    (possibleMoves : list Move.t) (startTime : Z) (depths : list nat)
    (bestMoveSoFar : option Move.t) (ticks : nat)
  : Search (option Move.t) :=
  match depths with
  | [] => ret bestMoveSoFar
  | depth :: rest =>
      let* movesToSearch :=
        lift (match bestMoveSoFar with
              | None => None
              | Some best => Some (prioritize possibleMoves best)
              end) in
      let* rootHash :=
        lift (match Game.board game with
              | None => None
              | Some board =>
                  Zobrist.calculateZobristKey table blackToMove board
                    (Game.currentPlayer game)
              end) in
      let* r := rootLoop game playerColor depth startTime rootHash
                  movesToSearch None NegInf ticks in
      match r with
      | (TimeLimit, _) => ret bestMoveSoFar
      | (Completed currentBestMoveForDepth _, ticks) =>
          if expired startTime ticks then ret currentBestMoveForDepth
          else depthLoop game playerColor possibleMoves startTime rest
                 currentBestMoveForDepth (S ticks)
      end
  end.

(** The result is [None] for [null] (no move). *)
Definition findBestMoveWithAlphaBeta (game : Game.t)
  : Search (option Move.t) :=
  let startTime := now 0 in
  let playerColor := Game.currentPlayer game in
  let* possibleMoves :=
    lift (match Game.board game with
          | None => None
          | Some board => getAllPossibleMovesForPlayer board playerColor
          end) in
  match possibleMoves with
  | [] => ret None
  | _ :: _ =>
      let index :=
        Z.to_nat (Qfloor (random * inject_Z (Z.of_nat (length possibleMoves)))) in
      let bestMoveSoFar := possibleMoves !! index in
      depthLoop game playerColor possibleMoves startTime
        (seq 1 MAX_SEARCH_DEPTH) bestMoveSoFar 1
  end.

End SearchEngine.


(** A table and a side key to evaluate the search on examples. *)
Definition exampleTable : list (list Z) :=
  (fun i => (fun j => 1 + Z.of_nat i * 64 + Z.of_nat j) <$> seq 0 64)
    <$> seq 0 16.
Definition exampleBlackToMove : Z := 2 ^ 20.

(** Black to move with a single Black 1, far from a single White 1. *)
Definition quietBoard : Board :=
  [ emptyRow; emptyRow; emptyRow;
    [None; None; None; B 1;  None; None; None; None];
    emptyRow; emptyRow; emptyRow;
    [None; None; None; None; None; None; None; W 1] ].

Definition quietGame : Game.t :=
  Game.mk (Some quietBoard) black (Fin 0) (Fin 0) false.

(** [quietGame] with scores near the largest double: White at
    [1.5 * 2^1023] (about 1.35e308) and Black at its negation, so that
    the score difference is beyond the doubles. *)
Definition hugeGame : Game.t :=
  Game.mk (Some quietBoard) black (Fin (3 * 2 ^ 1022)) (Fin (- (3 * 2 ^ 1022)))
    false.

(** A clock that never advances, and one that jumps past the time limit
    at its reading number 4. *)
Definition stoppedClock (k : nat) : Z := 0.
Definition lateClock (k : nat) : Z := if (k <? 4)%nat then 0 else 20000.

(** White to move: the White 5 on (1,0) has the single move to (0,1),
    (0,0) being held by a promoted White 2; it promotes there, and Black
    has two unpromoted 5s. *)
Definition choiceBoard : Board :=
  [ [Some (mkPiece white 2 true); None; None; None; None; None; None; None];
    [W 5;  None; None; None; None; None; None; None];
    emptyRow; emptyRow; emptyRow;
    [None; None; None; None; None; B 5;  None; B 5];
    emptyRow; emptyRow ].

Definition choiceGame : Game.t :=
  Game.mk (Some choiceBoard) white (Fin 0) (Fin 0) false.

Definition choiceMove : Move.t := Move.mk 1 0 0 1 (mkPiece white 5 false).










(** ** The heap: objects, arrays and references

    [simulateFullMove] copies the board it is given and mutates the copy.
    To state that the caller's board is left alone, boards, rows and
    pieces are objects of a store, addressed by their index; allocation
    appends, and an assignment overwrites the object at an address. A
    square of a row holds [null] ([None]) or the address of a piece
    object; a board array holds the addresses of its row arrays. *)
Module Heap.
Record t := mk
  { pieces : list Piece;
    rows : list (list (option nat));
    boards : list (list nat) }.
End Heap.

(** Heap computations; [None] is a thrown exception, and the heap at
    that point is kept. *)
Definition HeapM (A : Type) : Type := Heap.t -> option A * Heap.t.

Definition retH {A} (a : A) : HeapM A := fun h => (Some a, h).

Definition bindH {A B} (m : HeapM A) (k : A -> HeapM B) : HeapM B :=
  fun h => match m h with
           | (None, h') => (None, h')
           | (Some a, h') => k a h'
           end.

Definition throwH {A} : HeapM A := fun h => (None, h).

(** A read of the heap that may throw. *)
Definition readH {A} (f : Heap.t -> option A) : HeapM A := fun h => (f h, h).

Declare Scope heap_scope.
Delimit Scope heap_scope with heap.
Notation "'do' x <- m ; k" := (bindH m (fun x => k))
  (at level 10, x pattern, m at level 100, k at level 200) : heap_scope.

(** [{ ...p }]: a new piece object. *)
Definition allocPiece (p : Piece) : HeapM nat :=
  fun h => (Some (length (Heap.pieces h)),
            Heap.mk (Heap.pieces h ++ [p]) (Heap.rows h) (Heap.boards h)).

Definition allocRow (row : list (option nat)) : HeapM nat :=
  fun h => (Some (length (Heap.rows h)),
            Heap.mk (Heap.pieces h) (Heap.rows h ++ [row]) (Heap.boards h)).

Definition allocBoard (rowRefs : list nat) : HeapM nat :=
  fun h => (Some (length (Heap.boards h)),
            Heap.mk (Heap.pieces h) (Heap.rows h) (Heap.boards h ++ [rowRefs])).

(** [board[r]]: [Some None] for undefined. *)
Definition rowRef (h : Heap.t) (board : nat) (r : nat) : option (option nat) :=
  match Heap.boards h !! board with
  | None => None
  | Some rowRefs => Some (rowRefs !! r)
  end.

(** [board[r][c]] as a reference: throws when [board[r]] is undefined. *)
Definition cellRef (h : Heap.t) (board r c : nat) : option (option nat) :=
  match rowRef h board r with
  | None | Some None => None
  | Some (Some rowAddr) =>
      match Heap.rows h !! rowAddr with
      | None => None
      | Some row => Some (default None (row !! c))
      end
  end.

(** [board[r]?.[c]] as a reference. *)
Definition cellRefq (h : Heap.t) (board r c : nat) : option (option nat) :=
  match rowRef h board r with
  | None => None
  | Some None => Some None
  | Some (Some rowAddr) =>
      match Heap.rows h !! rowAddr with
      | None => None
      | Some row => Some (default None (row !! c))
      end
  end.

(** [board[r][c] = v]: throws when [board[r]] is undefined. *)
Definition writeCell (board r c : nat) (v : option nat) : HeapM unit :=
  fun h =>
    match rowRef h board r with
    | Some (Some rowAddr) =>
        match Heap.rows h !! rowAddr with
        | Some row =>
            (Some tt,
             Heap.mk (Heap.pieces h)
               (<[rowAddr := js_set row c v]> (Heap.rows h))
               (Heap.boards h))
        | None => (None, h)
        end
    | _ => (None, h)
    end.

(** [piece.promoted = true]. *)
Definition setPromoted (addr : nat) : HeapM unit :=
  fun h =>
    match Heap.pieces h !! addr with
    | Some p =>
        (Some tt,
         Heap.mk (<[addr := mkPiece (color p) (number p) true]> (Heap.pieces h))
           (Heap.rows h) (Heap.boards h))
    | None => (None, h)
    end.

(** The value of a row and of a board: what a reader of the arrays sees. *)
Definition rowValue (h : Heap.t) (row : list (option nat)) : option Row :=
  mapM (fun sq => match sq with
                  | None => Some None
                  | Some addr => Some <$> Heap.pieces h !! addr
                  end) row.

Definition snapshot (h : Heap.t) (board : nat) : option Board :=
  match Heap.boards h !! board with
  | None => None
  | Some rowRefs =>
      mapM (fun rowAddr => match Heap.rows h !! rowAddr with
                           | None => None
                           | Some row => rowValue h row
                           end) rowRefs
  end.

(** Loops over a list in the heap monad. *)
Fixpoint mapH {A B} (f : A -> HeapM B) (l : list A) : HeapM (list B) :=
  match l with
  | [] => retH []
  | x :: l' =>
      bindH (f x) (fun y => bindH (mapH f l') (fun ys => retH (y :: ys)))
  end.

Fixpoint forH {A} (f : A -> HeapM unit) (l : list A) : HeapM unit :=
  match l with
  | [] => retH tt
  | x :: l' => bindH (f x) (fun _ => forH f l')
  end.

Local Open Scope heap_scope.

(** [p ? { ...p } : null]. *)
Definition copySquare (sq : option nat) : HeapM (option nat) :=
  match sq with
  | None => retH None
  | Some addr =>
      do p <- readH (fun h => Heap.pieces h !! addr);
      do addr' <- allocPiece p;
      retH (Some addr')
  end.

(** [sourceBoard.map(r => r.map(p => (p ? { ...p } : null)))]. *)
Definition deepCopy (sourceBoard : nat) : HeapM nat :=
  do rowRefs <- readH (fun h => Heap.boards h !! sourceBoard);
  do newRows <-
    mapH (fun rowAddr =>
            do row <- readH (fun h => Heap.rows h !! rowAddr);
            do row' <- mapH copySquare row;
            allocRow row') rowRefs;
  allocBoard newRows.

Record SimResultH := mkSimH
  { tempBoardH : option nat;
    aiScoreGainH : num;
    leadsToChoiceForThisPlayerH : bool }.

Definition invalidMoveH : SimResultH := mkSimH None NegInf false.

(** [simulateFullMove] on the heap. [processPromotion],
    [checkCombinationsAroundPositionOnBoard] and the loop that collects
    the captures only read [tempBoard] and its pieces: they are applied
    to its value at that point. *)
Definition simulateFullMoveH (fromRow fromCol toRow toCol : nat)
    (forPlayerColor : Color) (sourceBoard : nat) : HeapM SimResultH :=
  do tempBoard <- deepCopy sourceBoard;
  do pieceRef <- readH (fun h => cellRefq h tempBoard fromRow fromCol);
  match pieceRef with
  | None => retH invalidMoveH
  | Some pieceAddr =>
      do pieceToMove <- readH (fun h => Heap.pieces h !! pieceAddr);
      if decide (color pieceToMove <> forPlayerColor) then retH invalidMoveH
      else
        do movedPiece <- allocPiece pieceToMove;
        do dest <- readH (fun h => cellRef h tempBoard toRow toCol);
        match dest with
        | Some _ => retH invalidMoveH
        | None =>
            do _ <- writeCell tempBoard toRow toCol (Some movedPiece);
            do _ <- writeCell tempBoard fromRow fromCol None;
            do originalRef <-
              readH (fun h => cellRef h sourceBoard fromRow fromCol);
            do original <-
              readH (fun h => match originalRef with
                              | None => Some None
                              | Some a => Some <$> Heap.pieces h !! a
                              end);
            let isPromotion := isPromotionRank (color pieceToMove) toRow in
            do promo <-
              (match original with
               | Some orig =>
                   if isPromotion && negb (promoted orig) then
                     do _ <- setPromoted movedPiece;
                     do board <- readH (fun h => snapshot h tempBoard);
                     do promotionResult <-
                       readH (fun _ => processPromotion toRow toCol board);
                     do _ <- forH (fun '(r, c) => writeCell tempBoard r c None)
                               (captures promotionResult);
                     retH (points promotionResult,
                           leadsToChoice promotionResult)
                   else retH (0, false)
               | None => retH (0, false)
               end);
            do board <- readH (fun h => snapshot h tempBoard);
            do combinations <-
              readH (fun _ => checkCombinationsAroundPositionOnBoard
                                toRow toCol board forPlayerColor);
            let st := collectCaptures board forPlayerColor combinations in
            do _ <- forH (fun '(r, c) => writeCell tempBoard r c None) st.2;
            retH (mkSimH (Some tempBoard) (of_Z (promo.1 + st.1)) promo.2)
        end
  end.


(** [h] keeps every object of [h0] as it is and may hold more. *)
Definition extends (h0 h : Heap.t) : Prop :=
  Heap.pieces h0 `prefix_of` Heap.pieces h
  /\ Heap.rows h0 `prefix_of` Heap.rows h
  /\ Heap.boards h0 `prefix_of` Heap.boards h.

(** From a heap satisfying [P] the computation [m] ends in a heap
    satisfying [Q a] when it returns [a] and [E] when it throws. *)
Definition triple {A} (P : Heap.t -> Prop) (m : HeapM A)
    (Q : A -> Heap.t -> Prop) (E : Heap.t -> Prop) : Prop :=
  forall h, P h ->
    match m h with
    | (Some a, h') => Q a h'
    | (None, h') => E h'
    end.

(** The rows of the copy [tempBoard] are arrays allocated after [h0]. *)
Definition ownsCopy (h0 : Heap.t) (tempBoard : nat) (h : Heap.t) : Prop :=
  extends h0 h
  /\ exists rowRefs,
       Heap.boards h !! tempBoard = Some rowRefs
       /\ Forall (fun rowAddr => (length (Heap.rows h0) <= rowAddr)%nat) rowRefs.


(** ** The heap simulator and the simulator on values

    What a reader sees of the copy: the value of a square, the board of
    references behind a board address, and the board of values it
    stands for. *)
Definition squareValue (h : Heap.t) (sq : option nat) : option (option Piece) :=
  match sq with
  | None => Some None
  | Some addr => Some <$> Heap.pieces h !! addr
  end.

(** The board at address [board] has the row arrays [rowRefs], which hold
    the references [refs], which stand for the pieces of [b]. *)
Definition reads (h : Heap.t) (board : nat) (rowRefs : list nat)
    (refs : list (list (option nat))) (b : Board) : Prop :=
  Heap.boards h !! board = Some rowRefs
  /\ Forall2 (fun rowAddr row => Heap.rows h !! rowAddr = Some row) rowRefs refs
  /\ Forall2 (Forall2 (fun sq v => squareValue h sq = Some v)) refs b.

(** The reference in a square, [None] outside the arrays. *)
Definition refAt (refs : list (list (option nat))) (r c : nat) : option nat :=
  match refs !! r with
  | None => None
  | Some row => default None (row !! c)
  end.

(** The references after [board[r][c] = v]. *)
Definition setRef (refs : list (list (option nat))) (r c : nat)
    (v : option nat) : list (list (option nat)) :=
  match refs !! r with
  | None => refs
  | Some row => <[r := js_set row c v]> refs
  end.

(** The result of the heap simulator stands for the result [res] of the
    simulator on values. *)
Definition sameResult (h : Heap.t) (resH : SimResultH) (res : SimResult)
  : Prop :=
  aiScoreGainH resH = aiScoreGain res
  /\ leadsToChoiceForThisPlayerH resH = leadsToChoiceForThisPlayer res
  /\ match tempBoardH resH, tempBoard res with
     | None, None => True
     | Some addr, Some b => snapshot h addr = Some b
     | _, _ => False
     end.


(** [initializeBoardData]: the starting position. *)
Definition initializeBoardData : Board :=
  let blackRow1 := [8; 7; 6; 5; 4; 3; 2; 1] in
  let blackRow2 := [1; 2; 3; 4; 5; 6; 7; 8] in
  let whiteRow1 := [8; 7; 6; 5; 4; 3; 2; 1] in
  let whiteRow2 := [1; 2; 3; 4; 5; 6; 7; 8] in
  [ B <$> blackRow1; B <$> blackRow2;
    emptyRow; emptyRow; emptyRow; emptyRow;
    W <$> whiteRow1; W <$> whiteRow2 ].



(** [choiceBoard] with the promoted flag of the White 2 cleared. *)
Definition choiceBoardUnpromoted : Board :=
  [ [W 2;  None; None; None; None; None; None; None];
    [W 5;  None; None; None; None; None; None; None];
    emptyRow; emptyRow; emptyRow;
    [None; None; None; None; None; B 5;  None; B 5];
    emptyRow; emptyRow ].

(** Checkers for the well-formedness of concrete boards and tables. *)
Definition wf_boardb (board : Board) : bool :=
  (length board =? 8)%nat && forallb (fun row => (length row =? 8)%nat) board.

Definition wf_piecesb (board : Board) : bool :=
  forallb (forallb (fun sq => match sq with
                              | None => true
                              | Some p => (1 <=? number p) && (number p <=? 8)
                              end)) board.

Definition wf_tableb (table : list (list Z)) : bool :=
  (length table =? 16)%nat
  && forallb (fun keys => (length keys =? 64)%nat) table.

(** [clusterBoard] after the relocation of the White 3, before the
    combination pass. *)
Definition clusterBoardMoved : Board :=
  [ emptyRow; emptyRow;
    [None; None; W 3;  None; None; None; None; None];
    [None; None; None; B 4;  None; None; None; None];
    [None; None; None; None; W 3;  None; None; None];
    emptyRow; emptyRow; emptyRow ].

(** ** zobrist.js: the random keys *)

(** [Math.floor(Math.random() * 2**32)] for the draw [r] of
    [Math.random()]. *)
Definition random32 (r : Q) : Z := Qfloor (r * inject_Z (2 ^ 32)).

(** [random64()]: [low] is drawn first, then [high]. *)
Definition random64 (rLow rHigh : Q) : Z :=
  Z.lor (Z.shiftl (random32 rHigh) 32) (random32 rLow).

(** [ZOBRIST], built once when the module is loaded. [rand k] is the
    draw of the [k]-th call of [Math.random()]: two draws per key, the
    keys piece by piece and square by square, then the two draws of
    [blackToMove]. *)
Module ZOBRIST.
Definition table (rand : nat -> Q) : list (list Z) :=
  (fun piece =>
     (fun square =>
        let k := (piece * 64 + square)%nat in
        random64 (rand (2 * k)%nat) (rand (2 * k + 1)%nat)) <$> seq 0 64)
    <$> seq 0 16.

Definition blackToMove (rand : nat -> Q) : Z :=
  random64 (rand 2048%nat) (rand 2049%nat).
End ZOBRIST.

(** Draws that run through the thousandths, for the examples. *)
Definition exampleRand (k : nat) : Q := Z.of_nat (k mod 1000) # 1000.
(** ** Notions used in the further properties *)

(** Equality of search values, numbers compared as rationals. *)
Definition num_eq (a b : num) : Prop :=
  match a, b with
  | NaN, NaN | NegInf, NegInf | PosInf, PosInf => True
  | Fin x, Fin y => (x == y)%Q
  | _, _ => False
  end.

(** From [tbl] to [tbl'] no entry is deleted, and every entry that was
    written has a depth between 1 and [depth]. *)
Definition table_grows (depth : nat) (tbl tbl' : gmap Z Entry.t) : Prop :=
  (forall k, is_Some (tbl !! k) -> is_Some (tbl' !! k))
  /\ forall k e, tbl' !! k = Some e ->
       tbl !! k = Some e \/ (1 <= Entry.depth e <= depth)%nat.

(** The number of the piece on a square when it belongs to [side], 0
    otherwise, and the sum over the 64 squares: the material of [side]. *)
Definition numberOf (board : Board) (side : Color) (sq : nat * nat) : Z :=
  match cellq board sq.1 sq.2 with
  | Some q => if decide (color q = side) then number q else 0
  | None => 0
  end.

Definition material (board : Board) (side : Color) : Z :=
  sumZ (numberOf board side <$> squares8).
(** ** checkPromotion on the heap *)

(** [checkPromotion(row, col)]: the piece object of the square is
    mutated. *)
Definition checkPromotionH (board row col : nat) : HeapM bool :=
  bindH (readH (fun h => cellRef h board row col)) (fun ref =>
  match ref with
  | None => retH false
  | Some addr =>
      bindH (readH (fun h => Heap.pieces h !! addr)) (fun p =>
      if promoted p then retH false
      else if isPromotionRank (color p) row then
        bindH (setPromoted addr) (fun _ => retH true)
      else retH false)
  end).

(** Two outcomes of the heap simulator that cannot be told apart by
    reading them: both threw, or both returned, with the same score gain
    and flag, and boards of the same contents (or no board). *)
Definition sameOutcome (x y : option SimResultH * Heap.t) : Prop :=
  match x.1, y.1 with
  | Some r1, Some r2 =>
      aiScoreGainH r1 = aiScoreGainH r2
      /\ leadsToChoiceForThisPlayerH r1 = leadsToChoiceForThisPlayerH r2
      /\ match tempBoardH r1, tempBoardH r2 with
         | Some a1, Some a2 =>
             snapshot x.2 a1 = snapshot y.2 a2 /\ is_Some (snapshot x.2 a1)
         | None, None => True
         | _, _ => False
         end
  | None, None => True
  | _, _ => False
  end.

(** A board of new objects with the contents of [b], as the parser of
    the request body builds one. *)
Definition storeSquare (sq : option Piece) : HeapM (option nat) :=
  match sq with
  | None => retH None
  | Some p => bindH (allocPiece p) (fun addr => retH (Some addr))
  end.

Definition storeBoard (b : Board) : HeapM nat :=
  bindH (mapH (fun row => bindH (mapH storeSquare row) allocRow) b)
    allocBoard.

Definition emptyHeap : Heap.t := Heap.mk [] [] [].

(** A heap holding [choiceBoardUnpromoted] as board 0, and a heap holding
    [clusterBoard] as board 0 and again as board 1. *)
Definition choiceHeap : Heap.t :=
  Eval vm_compute in (storeBoard choiceBoardUnpromoted emptyHeap).2.

Definition clusterHeap : Heap.t :=
  Eval vm_compute in
    (storeBoard clusterBoard (storeBoard clusterBoard emptyHeap).2).2.

(** The squares, other than the origin of the move, that hold a piece on
    [b] and are empty on [tb]: the pieces taken between the two boards. *)
Definition capturedSquares (b tb : Board) (fr fc : nat)
  : list (nat * nat) :=
  filter (fun sq => sq <> (fr, fc) /\ is_Some (cellq b sq.1 sq.2)
                    /\ cell tb sq.1 sq.2 = Some None) squares8.

(** * Properties *)

(** ** Loops and arrays *)

Lemma foldM_ext {A B} (f g : A -> B -> option A) (xs : list B) (a : A) :
  (forall a x, x ∈ xs -> f a x = g a x) -> foldM f a xs = foldM g a xs.
Proof.
  revert a. induction xs as [|x xs IH]; intros a Hfg; simpl; [done|].
  rewrite (Hfg a x) by set_solver.
  destruct (g a x); [|done]. apply IH. intros; apply Hfg; set_solver.
Qed.

Lemma foldM_app {A B} (f : A -> B -> option A) (xs ys : list B) (a : A) :
  foldM f a (xs ++ ys) =
  match foldM f a xs with None => None | Some a' => foldM f a' ys end.
Proof.
  revert a. induction xs as [|x xs IH]; intros a; simpl; [done|].
  destruct (f a x); [apply IH|done].
Qed.

(** A nested loop is a loop over the pairs of indices. *)
Lemma foldM_nested {A B C} (f : B -> A -> C -> option A)
    (xs : list B) (ys : list C) (a : A) :
  foldM (fun a x => foldM (f x) a ys) a xs =
  foldM (fun a '(x, y) => f x a y) a (x ← xs; y ← ys; [(x, y)]).
Proof.
  revert a. induction xs as [|x xs IH]; intros a; simpl; [done|].
  rewrite foldM_app.
  assert (Hin : forall a, foldM (f x) a ys
            = foldM (fun a '(x, y) => f x a y) a (y ← ys; [(x, y)])).
  { clear. induction ys as [|y ys IHy]; intros a; simpl; [done|].
    destruct (f x a y); [apply IHy|done]. }
  rewrite <- Hin. destruct (foldM (f x) a ys); [apply IH|done].
Qed.

(** A loop whose body never throws. *)
Lemma foldM_total {A B} (f : A -> B -> option A) (g : A -> B -> A)
    (xs : list B) (a : A) :
  (forall a x, x ∈ xs -> f a x = Some (g a x)) ->
  foldM f a xs = Some (foldl g a xs).
Proof.
  revert a. induction xs as [|x xs IH]; intros a Hf; simpl; [done|].
  rewrite Hf by set_solver. apply IH. intros; apply Hf; set_solver.
Qed.

(** An invariant carried through a loop that does not throw. *)
Lemma foldM_inv {A B} (P : A -> Prop) (f : A -> B -> option A)
    (xs : list B) (a r : A) :
  (forall a x a', x ∈ xs -> P a -> f a x = Some a' -> P a') ->
  P a -> foldM f a xs = Some r -> P r.
Proof.
  revert a. induction xs as [|x xs IH]; intros a Hstep Ha; simpl.
  - intros [= <-]. done.
  - destruct (f a x) as [a'|] eqn:E; [|done].
    apply IH; [intros; eapply Hstep; eauto; set_solver|].
    eapply Hstep; eauto. set_solver.
Qed.

Lemma elem_of_squares8 (r c : nat) :
  (r, c) ∈ squares8 <-> (r < 8)%nat /\ (c < 8)%nat.
Proof.
  unfold squares8, range8. rewrite list_elem_of_bind. split.
  - intros (r' & Hc & Hr). apply list_elem_of_bind in Hc as (c' & Hrc & Hc).
    apply list_elem_of_singleton in Hrc as [= -> ->].
    apply elem_of_seq in Hr, Hc. lia.
  - intros [Hr Hc]. exists r. split; [|apply elem_of_seq; lia].
    apply list_elem_of_bind. exists c. split; [set_solver|apply elem_of_seq; lia].
Qed.

Lemma NoDup_squares8 : NoDup squares8.
Proof. apply (bool_decide_unpack _). vm_compute. exact I. Qed.

(** Reading an array after an assignment, in range or not. *)
Lemma js_set_lookup {A} (a : list (option A)) (i j : nat) (v : option A) :
  default None (js_set a i v !! j) =
  if decide (i = j) then v else default None (a !! j).
Proof.
  unfold js_set. destruct (Nat.ltb_spec i (length a)) as [Hlt|Hge].
  - destruct (decide (i = j)) as [<-|Hne].
    + by rewrite list_lookup_insert_eq.
    + by rewrite list_lookup_insert_ne.
  - destruct (decide (i = j)) as [<-|Hne].
    + rewrite lookup_app_r by lia.
      rewrite lookup_app_r by (rewrite length_replicate; lia).
      rewrite length_replicate.
      replace (i - length a - (i - length a))%nat with 0%nat by lia. done.
    + destruct (decide (j < length a)%nat) as [Hj|Hj].
      * by rewrite lookup_app_l.
      * rewrite (lookup_ge_None_2 a j) by lia. simpl.
        rewrite lookup_app_r by lia.
        destruct (decide (j < i)%nat) as [Hji|Hji].
        -- rewrite lookup_app_l by (rewrite length_replicate; lia).
           rewrite lookup_replicate_2 by lia. done.
        -- rewrite lookup_app_r by (rewrite length_replicate; lia).
           rewrite length_replicate.
           rewrite lookup_ge_None_2; [done|simpl; lia].
Qed.

Lemma js_set_length_in_range {A} (a : list (option A)) (i : nat) (v : option A) :
  (i < length a)%nat -> length (js_set a i v) = length a.
Proof.
  intros Hi. unfold js_set.
  destruct (Nat.ltb_spec i (length a)); [apply length_insert|lia].
Qed.

Lemma set_cell_Some (board board' : Board) (r c : nat) (v : option Piece) :
  set_cell board r c v = Some board' ->
  length board' = length board /\ is_Some (board !! r).
Proof.
  unfold set_cell. destruct (board !! r) eqn:E; [|done].
  intros [= <-]. rewrite length_insert. eauto.
Qed.

Lemma set_cell_is_Some (board : Board) (r c : nat) (v : option Piece) :
  is_Some (board !! r) -> is_Some (set_cell board r c v).
Proof. unfold set_cell. intros [row ->]. eauto. Qed.

(** Reading the board after [board[r][c] = v]. *)
Lemma cell_set_cell (board board' : Board) (r c r' c' : nat) (v : option Piece) :
  set_cell board r c v = Some board' ->
  cell board' r' c' =
  if decide ((r, c) = (r', c')) then Some v else cell board r' c'.
Proof.
  unfold set_cell, cell. destruct (board !! r) as [row|] eqn:E; [|done].
  intros [= <-]. destruct (decide (r = r')) as [<-|Hr].
  - rewrite list_lookup_insert_eq by (by eapply lookup_lt_Some).
    rewrite E, js_set_lookup.
    destruct (decide (c = c')) as [<-|Hc].
    + by rewrite decide_True.
    + rewrite decide_False by congruence. done.
  - rewrite list_lookup_insert_ne by done.
    rewrite decide_False by congruence. done.
Qed.

Lemma cellq_cell (board : Board) (r c : nat) (p : Piece) :
  cellq board r c = Some p <-> cell board r c = Some (Some p).
Proof.
  unfold cellq, cell. destruct (board !! r); [|done].
  split; [intros ->; done|intros [= ->]; done].
Qed.

Lemma cellq_None (board : Board) (r c : nat) :
  cellq board r c = None <->
  cell board r c = None \/ cell board r c = Some None.
Proof.
  unfold cellq, cell. destruct (board !! r); [|naive_solver].
  split; [intros ->; auto|intros [|[= ->]]; done].
Qed.

Lemma wf_board_cell (board : Board) (r : nat) (c : nat) :
  wf_board board -> (r < 8)%nat -> is_Some (cell board r c).
Proof.
  intros [Hlen _] Hr. unfold cell.
  destruct (lookup_lt_is_Some_2 board r ltac:(lia)) as [row ->]. eauto.
Qed.

Lemma set_cell_wf (board board' : Board) (r c : nat) (v : option Piece) :
  wf_board board -> (c < 8)%nat ->
  set_cell board r c v = Some board' -> wf_board board'.
Proof.
  intros [Hlen Hrows] Hc. unfold set_cell.
  destruct (board !! r) as [row|] eqn:E; [|done]. intros [= <-].
  split; [by rewrite length_insert|].
  apply Forall_insert; [done|].
  rewrite js_set_length_in_range;
    rewrite (Forall_lookup_1 _ _ _ _ Hrows E); lia.
Qed.

(** ** Zobrist hashing *)

Section ZobristProps.

Variable table : list (list Z).
Variable blackToMove : Z.

Local Abbreviation key := (Zobrist.key table).
Local Abbreviation getPieceIndex := Zobrist.getPieceIndex.
Local Abbreviation hashSquare := (Zobrist.hashSquare table).
Local Abbreviation calculateZobristKey :=
  (Zobrist.calculateZobristKey table blackToMove).
Local Abbreviation nextHash := (Zobrist.nextHash table blackToMove).

Lemma hashSquare_squareKey (board : Board) (r c : nat) (hash : Z) :
  hashSquare board r hash c =
  match (Zobrist.squareKey table) board (r, c) with
  | None => None
  | Some k => Some (Z.lxor hash k)
  end.
Proof.
  unfold Zobrist.hashSquare, Zobrist.squareKey. simpl.
  destruct (cell board r c) as [[piece|]|]; [done| |done].
  by rewrite Z.lxor_0_r.
Qed.

Lemma foldM_xor (board : Board) (sqs : list (nat * nat)) (hash : Z) :
  foldM (fun hash '(r, c) => hashSquare board r hash c) hash sqs =
  match mapM ((Zobrist.squareKey table) board) sqs with
  | None => None
  | Some ks => Some (Z.lxor hash (Zobrist.xorAll ks))
  end.
Proof.
  revert hash. induction sqs as [|[r c] sqs IH]; intros hash; simpl.
  - by rewrite Z.lxor_0_r.
  - rewrite hashSquare_squareKey.
    destruct ((Zobrist.squareKey table) board (r, c)) as [k|]; simpl; [|done].
    rewrite IH. destruct (mapM ((Zobrist.squareKey table) board) sqs); simpl; [|done].
    by rewrite Z.lxor_assoc.
Qed.

(** The full hash is the XOR of the keys of the 64 squares and of the
    side-to-move key when Black is to move. *)
Lemma calculateZobristKey_xor (board : Board) (currentPlayer : Color) :
  calculateZobristKey board currentPlayer =
  match mapM ((Zobrist.squareKey table) board) squares8 with
  | None => None
  | Some ks =>
      Some (match currentPlayer with
            | black => Z.lxor (Zobrist.xorAll ks) blackToMove
            | white => Zobrist.xorAll ks
            end)
  end.
Proof.
  unfold Zobrist.calculateZobristKey.
  rewrite (foldM_nested (fun r hash c => hashSquare board r hash c)).
  fold squares8. rewrite foldM_xor.
  destruct (mapM ((Zobrist.squareKey table) board) squares8); [|done].
  by rewrite Z.lxor_0_l.
Qed.

Lemma cell_same_identity (b1 b2 : Board) (r c : nat) :
  same_up_to_promotion b1 b2 ->
  match cell b1 r c, cell b2 r c with
  | None, None => True
  | Some s1, Some s2 => same_identity s1 s2
  | _, _ => False
  end.
Proof.
  intros H. unfold cell.
  pose proof (proj1 (Forall2_lookup _ _ _) H r) as Hrow.
  destruct Hrow as [row1 row2 Hrows|]; [|done].
  pose proof (proj1 (Forall2_lookup _ _ _) Hrows c) as Hsq.
  destruct Hsq as [s1 s2 Hs|]; done.
Qed.

Lemma squareKey_same_identity (b1 b2 : Board) (sq : nat * nat) :
  same_up_to_promotion b1 b2 -> (Zobrist.squareKey table) b1 sq = (Zobrist.squareKey table) b2 sq.
Proof.
  intros H. unfold Zobrist.squareKey.
  pose proof (cell_same_identity b1 b2 sq.1 sq.2 H) as Hc.
  destruct (cell b1 sq.1 sq.2) as [[p|]|], (cell b2 sq.1 sq.2) as [[q|]|];
    simpl in Hc; try done.
  destruct Hc as [Hcol Hnum]. unfold Zobrist.getPieceIndex.
  by rewrite Hcol, Hnum.
Qed.

(** C10. [calculateZobristKey] does not read the promoted flag: two
    boards that agree on the colour and number of the piece of every
    square hash alike for either side to move (and the hash of one
    throws exactly when the hash of the other does). *)
Theorem zobrist_blind_to_promotion (b1 b2 : Board) (currentPlayer : Color) :
  same_up_to_promotion b1 b2 ->
  calculateZobristKey b1 currentPlayer = calculateZobristKey b2 currentPlayer.
Proof.
  intros H. rewrite !calculateZobristKey_xor.
  assert (Hm : mapM ((Zobrist.squareKey table) b1) squares8 = mapM ((Zobrist.squareKey table) b2) squares8).
  { generalize squares8. intros l. induction l as [|sq l IH]; simpl; [done|].
    by rewrite (squareKey_same_identity b1 b2 sq H), IH. }
  by rewrite Hm.
Qed.

End ZobristProps.

(** ** The move generator *)

Lemma inBounds_true (z : Z) : inBounds z = true <-> 0 <= z < 8.
Proof. unfold inBounds. rewrite andb_true_iff, Z.leb_le, Z.ltb_lt. done. Qed.

Lemma inBounds_false (z : Z) : inBounds z = false <-> ~ (0 <= z < 8).
Proof. rewrite <- inBounds_true. destruct (inBounds z); naive_solver. Qed.

Lemma sideStep_spec (b : Board) (nr col : nat) (vm vm' : list (nat * nat))
    (d : Z) :
  sideStep b nr col vm d = Some vm' ->
  forall x, x ∈ vm' <->
    x ∈ vm \/ (x = (nr, Z.to_nat (Z.of_nat col + d))
               /\ 0 <= Z.of_nat col + d < 8
               /\ cell b nr (Z.to_nat (Z.of_nat col + d)) = Some None).
Proof.
  unfold sideStep. destruct (inBounds _) eqn:Hb.
  - apply inBounds_true in Hb.
    destruct (cell b nr _) as [[p|]|] eqn:E; [| |done]; intros [= <-] x.
    + naive_solver.
    + rewrite elem_of_app, list_elem_of_singleton. naive_solver.
  - apply inBounds_false in Hb. intros [= <-] x. naive_solver.
Qed.

Lemma getValidMovesOnBoard_spec (row col : nat) (b : Board) (k : Color)
    (vm : list (nat * nat)) :
  (col < 8)%nat ->
  getValidMovesOnBoard row col b k = Some vm ->
  forall r' c',
    (r', c') ∈ vm <->
    Z.of_nat r' = Z.of_nat row + direction k /\ (r' < 8)%nat /\ (c' < 8)%nat /\
    -1 <= Z.of_nat c' - Z.of_nat col <= 1 /\ cell b r' c' = Some None.
Proof.
  intros Hcol. unfold getValidMovesOnBoard.
  set (newRow := Z.of_nat row + direction k).
  destruct (inBounds newRow) eqn:Hnr.
  2:{ apply inBounds_false in Hnr. intros [= <-] r' c'. rewrite elem_of_nil.
      split; [done|]. intros (Hr & Hr8 & _). lia. }
  apply inBounds_true in Hnr.
  set (nr := Z.to_nat newRow).
  destruct (cell b nr col) as [straight|] eqn:Es; [|done].
  simpl foldM.
  destruct (sideStep b nr col _ (-1)) as [vm1|] eqn:E1; [|done].
  destruct (sideStep b nr col vm1 1) as [vm2|] eqn:E2; [|done].
  intros [= <-] r' c'.
  rewrite (sideStep_spec _ _ _ _ _ _ E2), (sideStep_spec _ _ _ _ _ _ E1).
  assert (Hst : (r', c') ∈ match straight with
                           | Some _ => []
                           | None => [(nr, col)]
                           end <-> (r', c') = (nr, col) /\ straight = None).
  { destruct straight; [rewrite elem_of_nil|rewrite list_elem_of_singleton];
      naive_solver. }
  rewrite Hst. clear Hst E1 E2. split.
  - intros [[[[= -> ->] ->]|([= -> ->] & Hb & Hc)]|([= -> ->] & Hb & Hc)];
      repeat split; try done; lia.
  - intros (Hr & Hr8 & Hc8 & Hd & Hcell).
    assert (r' = nr) as -> by lia.
    assert (Hcases : c' = col \/ Z.of_nat c' = Z.of_nat col + -1
                     \/ Z.of_nat c' = Z.of_nat col + 1) by lia.
    destruct Hcases as [ -> | [ Hc | Hc ] ].
    + left; left. split; [done|congruence].
    + left; right. rewrite <- Hc, Nat2Z.id. repeat split; first [done | lia].
    + right. rewrite <- Hc, Nat2Z.id. repeat split; first [done | lia].
Qed.

Lemma getValidMoves_spec (b : Board) (row col : nat) (p : Piece)
    (vm : list (nat * nat)) :
  cell b row col = Some (Some p) ->
  getValidMoves b row col = getValidMovesOnBoard row col b (color p).
Proof. intros H. unfold getValidMoves. rewrite H. reflexivity. Qed.

(** The two generators coincide: [getValidMoves] takes the direction from
    the piece on the square, as its caller in the other generator does. *)
Lemma getAllPossibleMovesForPlayer_OnBoard (b : Board) (side : Color) :
  getAllPossibleMovesForPlayer b side =
  getAllPossibleMovesForPlayerOnBoard side b.
Proof.
  unfold getAllPossibleMovesForPlayer, getAllPossibleMovesForPlayerOnBoard.
  apply foldM_ext. intros moves [r c] _.
  destruct (cell b r c) as [[p|]|] eqn:E; try done.
  by rewrite (getValidMoves_spec b r c p [] E).
Qed.

(** The generator returns exactly the legal moves. *)
Lemma generated_moves_legal (side : Color) (b : Board) (moves : list Move.t) :
  getAllPossibleMovesForPlayerOnBoard side b = Some moves ->
  forall m, m ∈ moves <-> legalMove b side m.
Proof.
  unfold getAllPossibleMovesForPlayerOnBoard.
  assert (Hgen : forall (sqs : list (nat * nat)) acc moves,
    (forall r c, (r, c) ∈ sqs -> (c < 8)%nat) ->
    foldM (fun moves '(r, c) =>
           match cell b r c with
           | None => None
           | Some None => Some moves
           | Some (Some piece) =>
               if decide (color piece = side) then
                 match getValidMovesOnBoard r c b (color piece) with
                 | None => None
                 | Some validMoves =>
                     Some (moves ++ movesOfPiece r c piece validMoves)
                 end
               else Some moves
           end) acc sqs = Some moves ->
    forall m, m ∈ moves <->
      m ∈ acc \/ ((Move.fromRow m, Move.fromCol m) ∈ sqs /\
                  (Move.toRow m < 8)%nat /\ (Move.toCol m < 8)%nat /\
                  cell b (Move.fromRow m) (Move.fromCol m)
                    = Some (Some (Move.piece m)) /\
                  color (Move.piece m) = side /\
                  Z.of_nat (Move.toRow m)
                    = Z.of_nat (Move.fromRow m) + direction side /\
                  -1 <= Z.of_nat (Move.toCol m) - Z.of_nat (Move.fromCol m) <= 1 /\
                  cell b (Move.toRow m) (Move.toCol m) = Some None)).
  { induction sqs as [|[r c] sqs IH]; intros acc moves' Hsq; simpl.
    - intros [= <-] m. rewrite elem_of_nil. naive_solver.
    - assert (Hc : (c < 8)%nat) by (apply (Hsq r c); by left).
      assert (Hsq' : forall r c, (r, c) ∈ sqs -> (c < 8)%nat)
        by (intros r0 c0 Hin; apply (Hsq r0 c0); by right).
      destruct (cell b r c) as [[piece|]|] eqn:E; [| |done].
      + destruct (decide (color piece = side)) as [Hside|Hside].
        * destruct (getValidMovesOnBoard r c b (color piece)) as [vm|] eqn:Ev;
            [|done].
          intros Hf m. rewrite (IH _ _ Hsq' Hf), elem_of_app, elem_of_cons.
          unfold movesOfPiece. rewrite list_elem_of_fmap.
          pose proof (getValidMovesOnBoard_spec r c b _ vm Hc Ev) as Hvm.
          rewrite Hside in Hvm. split.
          -- intros [[Hacc|([r' c'] & -> & Hin)]|Hrest]; [by left| |naive_solver].
             apply Hvm in Hin. simpl. right. naive_solver.
          -- intros [Hacc|([Heq|Hin] & H1 & H2 & H3 & H4 & H5 & H6 & H7)];
               [by left; left| |naive_solver].
             left; right. destruct m as [fr fc tr tc mp]; simpl in *.
             injection Heq as -> ->. exists (tr, tc). split.
             ++ simpl. congruence.
             ++ apply Hvm. done.
        * intros Hf m. rewrite (IH _ _ Hsq' Hf), elem_of_cons. split.
          -- naive_solver.
          -- intros [Hacc|([Heq|Hin] & H1 & H2 & H3 & H4 & H5 & H6)];
               [by left| |naive_solver].
             destruct m as [fr fc tr tc mp]; simpl in *.
             injection Heq as -> ->. congruence.
      + intros Hf m. rewrite (IH _ _ Hsq' Hf), elem_of_cons. split.
        * naive_solver.
        * intros [Hacc|([Heq|Hin] & H1 & H2 & H3 & H4)]; [by left| |naive_solver].
          destruct m as [fr fc tr tc mp]; simpl in *.
          injection Heq as -> ->. congruence. }
  intros Hf m. rewrite (Hgen squares8 [] moves); [|by intros r c [_ ?]%elem_of_squares8|done].
  rewrite elem_of_nil, elem_of_squares8. unfold legalMove. naive_solver.
Qed.

(** ** The move simulator *)

Lemma simulateFullMove_success_board (fr fc tr tc : nat) (side : Color)
    (b : Board) (res : SimResult) :
  simulateFullMove fr fc tr tc side b = Some res ->
  res = invalidMove \/ exists tb gain, res = mkSim (Some tb) (of_Z gain)
                                       (leadsToChoiceForThisPlayer res).
Proof.
  unfold simulateFullMove.
  destruct (cellq b fr fc) as [p|]; [|intros [= <-]; by left].
  destruct (decide _); [intros [= <-]; by left|].
  destruct (cell b tr tc) as [[q|]|]; [intros [= <-]; by left| |done].
  destruct (set_cell b tr tc _) as [b1|]; [|done].
  destruct (set_cell b1 fr fc _) as [b2|]; [|done].
  destruct (promotionPass _ _ _ _ _ _ _) as [[[b3 pp] leads]|]; [|done].
  destruct (combinationPass _ _ _ _) as [[b4 cp]|]; [|done].
  intros [= <-]. right. eauto.
Qed.

(** C5. [simulateFullMove] returns the invalid-move sentinel
    [{ tempBoard: null, aiScoreGain: -Infinity }] exactly when the origin
    holds no piece, holds a piece of another colour than the mover, or
    the destination holds a piece; and it never returns it for a move of
    the move generator (either of its two variants) for that colour on
    that board. *)
Theorem simulateFullMove_sentinel :
  (forall (fr fc tr tc : nat) (side : Color) (b : Board),
      simulateFullMove fr fc tr tc side b = Some invalidMove <->
      cellq b fr fc = None
      \/ (exists p, cellq b fr fc = Some p /\ color p <> side)
      \/ (exists q, cellq b tr tc = Some q))
  /\ (forall (side : Color) (b : Board) (moves : list Move.t) (m : Move.t),
        getAllPossibleMovesForPlayerOnBoard side b = Some moves
        \/ getAllPossibleMovesForPlayer b side = Some moves ->
        m ∈ moves ->
        simulateFullMove (Move.fromRow m) (Move.fromCol m)
          (Move.toRow m) (Move.toCol m) side b <> Some invalidMove).
Proof.
  assert (Hiff : forall (fr fc tr tc : nat) (side : Color) (b : Board),
      simulateFullMove fr fc tr tc side b = Some invalidMove <->
      cellq b fr fc = None
      \/ (exists p, cellq b fr fc = Some p /\ color p <> side)
      \/ (exists q, cellq b tr tc = Some q)).
  { intros fr fc tr tc side b. unfold simulateFullMove.
    destruct (cellq b fr fc) as [p|] eqn:Ep; [|naive_solver].
    destruct (decide (color p <> side)) as [Hc|Hc]; [naive_solver|].
    destruct (cell b tr tc) as [[q|]|] eqn:Eq.
    - apply cellq_cell in Eq. naive_solver.
    - assert (Hq : cellq b tr tc = None) by (apply cellq_None; auto).
      destruct (set_cell b tr tc _) as [b1|]; [|naive_solver].
      destruct (set_cell b1 fr fc _) as [b2|]; [|naive_solver].
      destruct (promotionPass _ _ _ _ _ _ _) as [[[b3 pp] leads]|];
        [|naive_solver].
      destruct (combinationPass _ _ _ _) as [[b4 cp]|]; [|naive_solver].
      split; [intros [= ]|].
      intros [|[(p' & [= <-] & ?)|[q Hq']]]; first [congruence | done].
    - assert (Hq : cellq b tr tc = None) by (apply cellq_None; auto).
      naive_solver. }
  split; [exact Hiff|].
  intros side b moves m Hgen Hm.
  assert (Hgen' : getAllPossibleMovesForPlayerOnBoard side b = Some moves).
  { destruct Hgen as [?|Hgen]; [done|].
    by rewrite <- getAllPossibleMovesForPlayer_OnBoard. }
  apply (generated_moves_legal side b moves Hgen') in Hm.
  destruct Hm as (_ & _ & _ & _ & Hfrom & Hcol & _ & _ & Hto).
  rewrite Hiff. apply cellq_cell in Hfrom.
  assert (Hq : cellq b (Move.toRow m) (Move.toCol m) = None)
    by (apply cellq_None; auto).
  intros [|[(p' & ? & ?)|[q ?]]]; congruence.
Qed.

Lemma matchingPieces_filter (bd : Board) (opp : Color) (n : Z)
    (ms : list (nat * nat)) :
  matchingPieces bd opp n = Some ms ->
  ms = filter (fun sq => matchAt bd opp n sq = true) squares8.
Proof.
  unfold matchingPieces.
  assert (H : forall (sqs acc : list (nat * nat)),
    foldM (fun found '(r, c) =>
             match cell bd r c with
             | None => None
             | Some None => Some found
             | Some (Some targetPiece) =>
                 Some (if isMatch opp n targetPiece
                       then found ++ [(r, c)] else found)
             end) acc sqs = Some ms ->
    ms = acc ++ filter (fun sq => matchAt bd opp n sq = true) sqs).
  { induction sqs as [|[r c] sqs IH]; intros acc; simpl.
    - intros [= <-]. by rewrite app_nil_r.
    - rewrite filter_cons.
      destruct (cell bd r c) as [[q|]|] eqn:E; [| |done].
      + destruct (isMatch opp n q) eqn:Eq.
        * intros H. apply IH in H.
          rewrite decide_True by (unfold matchAt; simpl; by rewrite E).
          by rewrite <- app_assoc in H.
        * intros H. apply IH in H.
          rewrite decide_False
            by (unfold matchAt; simpl; rewrite E; congruence).
          done.
      + intros H. apply IH in H.
        rewrite decide_False by (unfold matchAt; simpl; by rewrite E). done. }
  intros Hm. by apply H in Hm.
Qed.

Lemma matchingPieces_total (bd : Board) (opp : Color) (n : Z) :
  (forall r c, (r < 8)%nat -> is_Some (cell bd r c)) ->
  is_Some (matchingPieces bd opp n).
Proof.
  intros Hc. unfold matchingPieces.
  assert (H : forall (sqs acc : list (nat * nat)),
    (forall sq, sq ∈ sqs -> (sq.1 < 8)%nat) ->
    is_Some (foldM (fun found '(r, c) =>
             match cell bd r c with
             | None => None
             | Some None => Some found
             | Some (Some targetPiece) =>
                 Some (if isMatch opp n targetPiece
                       then found ++ [(r, c)] else found)
             end) acc sqs)).
  { induction sqs as [|[r c] sqs IH]; intros acc Hs; simpl; [eauto|].
    destruct (Hc r c) as [[q|] ->]; [apply (Hs (r, c)); by left| |];
      apply IH; intros; apply Hs; by right. }
  apply H. by intros [r c] [? ?]%elem_of_squares8.
Qed.

(** Clearing squares: cleared squares are empty, the others unchanged. *)
Lemma clearSquares_cell (bd bd' : Board) (sqs : list (nat * nat)) (r c : nat) :
  clearSquares bd sqs = Some bd' ->
  cell bd' r c = if decide ((r, c) ∈ sqs) then Some None else cell bd r c.
Proof.
  unfold clearSquares. revert bd.
  induction sqs as [|[r0 c0] sqs IH]; intros bd; cbn [foldM].
  - intros [= <-].
    destruct (decide _) as [Hin|Hin]; [by apply elem_of_nil in Hin|done].
  - destruct (set_cell bd r0 c0 None) as [bd1|] eqn:E; [|done].
    intros H. rewrite (IH _ H), (cell_set_cell _ _ _ _ r c _ E).
    destruct (decide ((r, c) ∈ sqs)) as [Hin|Hin].
    + rewrite decide_True by (by right). done.
    + destruct (decide ((r0, c0) = (r, c))) as [Heq|Hne].
      * rewrite decide_True by (rewrite Heq; by left). done.
      * rewrite decide_False; [done|].
        rewrite elem_of_cons. naive_solver.
Qed.

Lemma clearSquares_length (bd bd' : Board) (sqs : list (nat * nat)) :
  clearSquares bd sqs = Some bd' -> length bd' = length bd.
Proof.
  unfold clearSquares. revert bd.
  induction sqs as [|[r0 c0] sqs IH]; intros bd; simpl.
  - by intros [= <-].
  - destruct (set_cell bd r0 c0 None) as [bd1|] eqn:E; [|done].
    intros H. rewrite (IH _ H). by apply set_cell_Some in E as [-> _].
Qed.

Lemma clearSquares_total (bd : Board) (sqs : list (nat * nat)) :
  (forall r c, (r, c) ∈ sqs -> (r < length bd)%nat) ->
  is_Some (clearSquares bd sqs).
Proof.
  unfold clearSquares. revert bd.
  induction sqs as [|[r0 c0] sqs IH]; intros bd Hr; simpl; [eauto|].
  destruct (set_cell_is_Some bd r0 c0 None) as [bd1 E].
  { apply lookup_lt_is_Some_2, (Hr r0 c0). by left. }
  rewrite E. apply IH. intros r c Hin.
  apply set_cell_Some in E as [-> _]. apply (Hr r c). by right.
Qed.

(** The squares removed by the combination pass held pieces of another
    colour than the mover. *)
Lemma collectCapture_inv (bd : Board) (side : Color)
    (st : Z * list (nat * nat)) (pos : PD.t) :
  (forall r c, (r, c) ∈ st.2 ->
     exists q, cellq bd r c = Some q /\ color q <> side) ->
  forall r c, (r, c) ∈ (collectCapture bd side st pos).2 ->
     exists q, cellq bd r c = Some q /\ color q <> side.
Proof.
  intros Hst r c. unfold collectCapture.
  destruct (cellq bd (PD.row pos) (PD.col pos)) as [q|] eqn:E; [|apply Hst].
  destruct (decide _) as [Hq|Hq]; [|apply Hst].
  destruct (bool_decide _); [apply Hst|]. simpl.
  rewrite elem_of_app, list_elem_of_singleton.
  intros [Hin|[= -> ->]]; [by apply Hst|eauto].
Qed.

Lemma collectCaptures_inv (bd : Board) (side : Color)
    (combinations : list (list PD.t)) :
  forall r c, (r, c) ∈ (collectCaptures bd side combinations).2 ->
     exists q, cellq bd r c = Some q /\ color q <> side.
Proof.
  unfold collectCaptures.
  assert (Hin : forall (c : list PD.t) st,
    (forall r c, (r, c) ∈ st.2 ->
       exists q, cellq bd r c = Some q /\ color q <> side) ->
    forall r c0, (r, c0) ∈ (foldl (collectCapture bd side) st c).2 ->
       exists q, cellq bd r c0 = Some q /\ color q <> side).
  { induction c as [|pos c IH]; intros st Hst; simpl; [done|].
    apply IH. by apply collectCapture_inv. }
  assert (Hout : forall (cs : list (list PD.t)) st,
    (forall r c, (r, c) ∈ st.2 ->
       exists q, cellq bd r c = Some q /\ color q <> side) ->
    forall r c0, (r, c0) ∈ (foldl (fun st combination =>
           foldl (collectCapture bd side) st combination) st cs).2 ->
       exists q, cellq bd r c0 = Some q /\ color q <> side).
  { induction cs as [|c cs IH]; intros st Hst; simpl; [done|].
    apply IH. by apply Hin. }
  apply Hout. simpl. intros r c Hrc. by apply elem_of_nil in Hrc.
Qed.

(** The combination pass only empties squares that held a piece of
    another colour than the mover. *)
Lemma combinationPass_cell (bd bd' : Board) (tr tc : nat) (side : Color)
    (cp : Z) (r c : nat) :
  combinationPass bd tr tc side = Some (bd', cp) ->
  cell bd' r c = cell bd r c
  \/ (cell bd' r c = Some None
      /\ exists q, cell bd r c = Some (Some q) /\ color q <> side).
Proof.
  unfold combinationPass.
  destruct (checkCombinationsAroundPositionOnBoard _ _ _ _) as [cs|]; [|done].
  destruct (clearSquares _ _) as [bd1|] eqn:E; [|done].
  intros [= <- <-]. rewrite (clearSquares_cell _ _ _ r c E).
  destruct (decide _) as [Hin|Hin]; [|by left]. right. split; [done|].
  apply collectCaptures_inv in Hin as (q & Hq & Hne).
  apply cellq_cell in Hq. eauto.
Qed.

(** The board after the relocation of lines 281-282. *)
Lemma relocate_cell (b b1 b2 : Board) (fr fc tr tc : nat) (p : Piece)
    (r c : nat) :
  set_cell b tr tc (Some p) = Some b1 ->
  set_cell b1 fr fc None = Some b2 ->
  cell b2 r c =
  if decide ((fr, fc) = (r, c)) then Some None
  else if decide ((tr, tc) = (r, c)) then Some (Some p)
  else cell b r c.
Proof.
  intros H1 H2.
  rewrite (cell_set_cell _ _ _ _ r c _ H2), (cell_set_cell _ _ _ _ r c _ H1).
  done.
Qed.

Lemma isMatch_opponent (p q : Piece) :
  color q = color p -> isMatch (opponent (color p)) (number p) q = false.
Proof.
  intros Hc. unfold isMatch. rewrite Hc.
  rewrite bool_decide_eq_false_2; [done|]. by destruct (color p).
Qed.

(** What [simulateFullMove] does up to the combination pass. *)
Lemma simulateFullMove_phases (fr fc tr tc : nat) (side : Color)
    (b tb : Board) (res : SimResult) :
  simulateFullMove fr fc tr tc side b = Some res ->
  tempBoard res = Some tb ->
  exists (p : Piece) (b1 b2 b3 : Board) (pp cp : Z),
    cell b fr fc = Some (Some p) /\ color p = side /\
    cell b tr tc = Some None /\
    set_cell b tr tc (Some p) = Some b1 /\
    set_cell b1 fr fc None = Some b2 /\
    promotionPass b b2 fr fc tr tc p
      = Some (b3, pp, leadsToChoiceForThisPlayer res) /\
    combinationPass b3 tr tc side = Some (tb, cp) /\
    aiScoreGain res = of_Z (pp + cp).
Proof.
  unfold simulateFullMove.
  destruct (cellq b fr fc) as [p|] eqn:Ep; [|by intros [= <-]].
  destruct (decide (color p <> side)) as [Hc|Hc]; [by intros [= <-]|].
  destruct (cell b tr tc) as [[q|]|] eqn:Eq; [by intros [= <-]| |done].
  destruct (set_cell b tr tc _) as [b1|] eqn:E1; [|done].
  destruct (set_cell b1 fr fc _) as [b2|] eqn:E2; [|done].
  destruct (promotionPass _ _ _ _ _ _ _) as [[[b3 pp] leads]|] eqn:E3; [|done].
  destruct (combinationPass _ _ _ _) as [[b4 cp]|] eqn:E4; [|done].
  intros [= <-]. simpl. intros [= <-].
  exists p, b1, b2, b3, pp, cp. apply cellq_cell in Ep.
  repeat split; try done. by destruct (decide (color p = side)).
Qed.

(** The promotion pass on the relocated board [b2]. *)
Lemma promotionPass_spec (b b2 b3 : Board) (fr fc tr tc : nat) (p : Piece)
    (pp : Z) (leads : bool) :
  cell b fr fc = Some (Some p) ->
  cell b tr tc = Some None ->
  (forall r c, cell b2 r c =
     if decide ((fr, fc) = (r, c)) then Some None
     else if decide ((tr, tc) = (r, c)) then Some (Some p)
     else cell b r c) ->
  promotionPass b b2 fr fc tr tc p = Some (b3, pp, leads) ->
  let ms := filter (fun sq => matchAt b (opponent (color p)) (number p) sq = true)
              squares8 in
  cell b3 fr fc = Some None /\
  if triggersPromotion p tr then
    cell b3 tr tc = Some (Some (promote p)) /\
    match ms with
    | [] =>
        pp = 0 /\ leads = false /\
        (forall r c, (r, c) <> (fr, fc) -> (r, c) <> (tr, tc) ->
                     cell b3 r c = cell b r c)
    | [m] =>
        pp = number p /\ leads = false /\ cell b3 m.1 m.2 = Some None /\
        (forall r c, (r, c) <> (fr, fc) -> (r, c) <> (tr, tc) ->
                     (r, c) <> m -> cell b3 r c = cell b r c)
    | m :: _ :: _ =>
        pp = number p /\ leads = true /\ cell b3 m.1 m.2 = Some None /\
        (forall r c, (r, c) <> (fr, fc) -> (r, c) <> (tr, tc) ->
                     (r, c) <> m -> cell b3 r c = cell b r c)
    end
  else
    pp = 0 /\ leads = false /\ cell b3 tr tc = Some (Some p) /\
    (forall r c, (r, c) <> (fr, fc) -> (r, c) <> (tr, tc) ->
                 cell b3 r c = cell b r c).
Proof.
  intros Hfrom Hto Hb2 Hpass ms.
  assert (Hne : (fr, fc) <> (tr, tc)) by (intros [= -> ->]; congruence).
  assert (Hb2from : cell b2 fr fc = Some None)
    by (rewrite Hb2, decide_True; done).
  assert (Hb2to : cell b2 tr tc = Some (Some p)).
  { rewrite Hb2, decide_False, decide_True; done. }
  assert (Hb2other : forall r c, (r, c) <> (fr, fc) -> (r, c) <> (tr, tc) ->
                                 cell b2 r c = cell b r c).
  { intros r c H1 H2. rewrite Hb2, !decide_False; done. }
  unfold promotionPass in Hpass. rewrite Hfrom in Hpass.
  fold (triggersPromotion p tr) in Hpass.
  destruct (triggersPromotion p tr) eqn:Htrig.
  2:{ injection Hpass as <- <- <-. auto. }
  fold (promote p) in Hpass.
  destruct (set_cell b2 tr tc (Some (promote p))) as [b2'|] eqn:E; [|done].
  pose proof (fun r c => cell_set_cell _ _ _ _ r c _ E) as Hb2'.
  assert (Hsame : filter (fun sq => matchAt b2' (opponent (color p)) (number p)
                                      sq = true) squares8 = ms).
  { apply list_filter_iff. intros [r c]. unfold matchAt. simpl.
    rewrite Hb2'. destruct (decide ((tr, tc) = (r, c))) as [[= <- <-]|Hn1].
    - rewrite Hto. by rewrite isMatch_opponent.
    - rewrite Hb2. destruct (decide ((fr, fc) = (r, c))) as [[= <- <-]|Hn2].
      + rewrite Hfrom. by rewrite isMatch_opponent.
      + by rewrite decide_False. }
  unfold processPromotion in Hpass. rewrite Hb2', decide_True in Hpass by done.
  change (match color (promote p) with white => black | black => white end)
    with (opponent (color p)) in Hpass.
  change (number (promote p)) with (number p) in Hpass.
  destruct (matchingPieces b2' _ _) as [ms'|] eqn:Em; [|done].
  apply matchingPieces_filter in Em. rewrite Hsame in Em. subst ms'.
  assert (Hmatch : forall m, m ∈ ms -> m <> (fr, fc) /\ m <> (tr, tc)).
  { intros m [Hm _]%list_elem_of_filter. unfold matchAt in Hm.
    split; intros ->; simpl in Hm; [rewrite Hfrom in Hm|rewrite Hto in Hm];
      [|done]. by rewrite isMatch_opponent in Hm. }
  assert (Hclear : forall m b3',
    m ∈ ms -> clearSquares b2' [m] = Some b3' ->
    cell b3' fr fc = Some None /\ cell b3' tr tc = Some (Some (promote p)) /\
    cell b3' m.1 m.2 = Some None /\
    (forall r c, (r, c) <> (fr, fc) -> (r, c) <> (tr, tc) ->
                 (r, c) <> m -> cell b3' r c = cell b r c)).
  { intros m b3' Hm Hc. destruct (Hmatch m Hm) as [Hm1 Hm2].
    pose proof (fun r c => clearSquares_cell _ _ _ r c Hc) as Hb3.
    repeat split.
    - rewrite Hb3, decide_False by (rewrite list_elem_of_singleton; congruence).
      rewrite Hb2', decide_False by congruence. done.
    - rewrite Hb3, decide_False by (rewrite list_elem_of_singleton; congruence).
      rewrite Hb2', decide_True by done. done.
    - rewrite Hb3, decide_True; [done|]. destruct m; by left.
    - intros r c H1 H2 H3.
      rewrite Hb3, decide_False by (rewrite list_elem_of_singleton; congruence).
      rewrite Hb2', decide_False by congruence. by apply Hb2other. }
  destruct ms as [|m [|m' rest]] eqn:Ems.
  - simpl in Hpass. injection Hpass as <- <- <-.
    rewrite !Hb2', decide_False, decide_True by done.
    repeat split; try done.
    intros r c H1 H2. rewrite Hb2', decide_False by congruence.
    by apply Hb2other.
  - simpl captures in Hpass.
    destruct (clearSquares b2' [m]) as [b3'|] eqn:Ec; [|done].
    injection Hpass as <- <- <-.
    destruct (Hclear m b3' ltac:(by left) Ec) as (? & ? & ? & ?).
    repeat split; auto.
  - simpl captures in Hpass.
    destruct (clearSquares b2' [m]) as [b3'|] eqn:Ec; [|done].
    injection Hpass as <- <- <-.
    destruct (Hclear m b3' ltac:(by left) Ec) as (? & ? & ? & ?).
    repeat split; auto.
Qed.

(** C4. In a simulated move of the piece [p], the promotion pass runs
    exactly when [p] was not promoted and lands on its promotion rank
    ([triggersPromotion]). Then the piece on the destination is marked
    promoted and the opposing, unpromoted pieces with the number of [p]
    are looked up in row-major order ([ms]): with none the pass gives 0
    points, captures nothing and raises no choice flag; with one it is
    captured for [number p] points without the flag; with two or more the
    first is captured for [number p] points and the flag is raised.
    Otherwise the pass gives 0 points, no capture and no flag. [pp] is
    the points of the promotion pass, [b3] the board it leaves to the
    combination pass, which adds [cp] points and yields the final board. *)
Theorem promotion_pass_of_simulated_move (fr fc tr tc : nat) (side : Color)
    (b tb : Board) (res : SimResult) (p : Piece) :
  simulateFullMove fr fc tr tc side b = Some res ->
  tempBoard res = Some tb ->
  cellq b fr fc = Some p ->
  let ms := filter (fun sq => matchAt b (opponent (color p)) (number p) sq = true)
              squares8 in
  exists (b3 : Board) (pp cp : Z),
    combinationPass b3 tr tc side = Some (tb, cp) /\
    aiScoreGain res = of_Z (pp + cp) /\
    if triggersPromotion p tr then
      cell tb tr tc = Some (Some (promote p)) /\
      match ms with
      | [] =>
          pp = 0 /\ leadsToChoiceForThisPlayer res = false /\
          (forall r c, (r, c) <> (fr, fc) -> (r, c) <> (tr, tc) ->
                       cell b3 r c = cell b r c)
      | [m] =>
          pp = number p /\ leadsToChoiceForThisPlayer res = false /\
          cell b3 m.1 m.2 = Some None /\ cell tb m.1 m.2 = Some None /\
          (forall r c, (r, c) <> (fr, fc) -> (r, c) <> (tr, tc) ->
                       (r, c) <> m -> cell b3 r c = cell b r c)
      | m :: _ :: _ =>
          pp = number p /\ leadsToChoiceForThisPlayer res = true /\
          cell b3 m.1 m.2 = Some None /\ cell tb m.1 m.2 = Some None /\
          (forall r c, (r, c) <> (fr, fc) -> (r, c) <> (tr, tc) ->
                       (r, c) <> m -> cell b3 r c = cell b r c)
      end
    else
      pp = 0 /\ leadsToChoiceForThisPlayer res = false /\
      cell tb tr tc = Some (Some p) /\
      (forall r c, (r, c) <> (fr, fc) -> (r, c) <> (tr, tc) ->
                   cell b3 r c = cell b r c).
Proof.
  intros Hsim Htb Hp ms.
  destruct (simulateFullMove_phases _ _ _ _ _ _ _ _ Hsim Htb)
    as (p' & b1 & b2 & b3 & pp & cp & Hfrom & Hside & Hto & E1 & E2 & E3 & E4 & Hg).
  apply cellq_cell in Hp. assert (p' = p) as -> by congruence.
  exists b3, pp, cp. split; [done|]. split; [done|].
  pose proof (promotionPass_spec b b2 b3 fr fc tr tc p pp _ Hfrom Hto
                (fun r c => relocate_cell _ _ _ _ _ _ _ _ r c E1 E2) E3) as Hspec.
  simpl in Hspec. fold ms in Hspec. destruct Hspec as [_ Hspec].
  assert (Hkeep : forall q, color q = side -> cell b3 tr tc = Some (Some q) ->
                            cell tb tr tc = Some (Some q)).
  { intros q Hq Hc.
    destruct (combinationPass_cell _ _ _ _ _ _ tr tc E4)
      as [->|(_ & q' & Hq' & Hne)]; [done|]. congruence. }
  assert (Hgone : forall r c, cell b3 r c = Some None -> cell tb r c = Some None).
  { intros r c Hc.
    destruct (combinationPass_cell _ _ _ _ _ _ r c E4) as [->|[-> _]]; done. }
  destruct (triggersPromotion p tr).
  - destruct Hspec as [Hprom Hms]. split; [by apply Hkeep|].
    destruct ms as [|m [|m' rest]]; naive_solver.
  - naive_solver.
Qed.

(** ** The incremental hash update *)

Ltac xor_solve :=
  apply Z.bits_inj'; intros;
  rewrite ?Z.lxor_spec, ?Z.bits_0;
  repeat match goal with
    | |- context [Z.testbit ?a ?n] => destruct (Z.testbit a n)
    end; reflexivity.

Section ZobristIncremental.

Variable table : list (list Z).
Variable blackToMove : Z.

Local Abbreviation key := (Zobrist.key table).
Local Abbreviation getPieceIndex := Zobrist.getPieceIndex.
Local Abbreviation squareKey := (Zobrist.squareKey table).
Local Abbreviation xorAll := Zobrist.xorAll.
Local Abbreviation calculateZobristKey :=
  (Zobrist.calculateZobristKey table blackToMove).
Local Abbreviation nextHash := (Zobrist.nextHash table blackToMove).

Lemma mapM_squareKey_ext (b b' : Board) (sqs : list (nat * nat)) :
  (forall sq, sq ∈ sqs -> squareKey b' sq = squareKey b sq) ->
  mapM (squareKey b') sqs = mapM (squareKey b) sqs.
Proof.
  induction sqs as [|sq sqs IH]; intros H; simpl; [done|].
  rewrite (H sq) by (by left). rewrite IH; [done|].
  intros; apply H; by right.
Qed.

(** Changing the key of one scanned square from [ka] to [kb]. *)
Lemma mapM_squareKey_change (b b' : Board) (sqs : list (nat * nat))
    (sq0 : nat * nat) (ka : Z) (ks : list Z) :
  NoDup sqs -> sq0 ∈ sqs ->
  (forall sq, sq ∈ sqs -> sq <> sq0 -> squareKey b' sq = squareKey b sq) ->
  squareKey b sq0 = Some ka ->
  mapM (squareKey b) sqs = Some ks ->
  match squareKey b' sq0 with
  | None => mapM (squareKey b') sqs = None
  | Some kb =>
      exists ks', mapM (squareKey b') sqs = Some ks' /\
                  xorAll ks' = Z.lxor (Z.lxor (xorAll ks) ka) kb
  end.
Proof.
  intros Hnd Hin Hother Ha. revert ks.
  induction sqs as [|sq sqs IH]; intros ks; [by apply elem_of_nil in Hin|].
  apply NoDup_cons in Hnd as [Hsq Hnd]. simpl.
  destruct (squareKey b sq) as [k|] eqn:Ek; simpl; [|done].
  destruct (mapM (squareKey b) sqs) as [ks0|] eqn:Em; simpl; [|done].
  intros [= <-]. destruct (decide (sq = sq0)) as [->|Hne].
  - assert (Hrest : mapM (squareKey b') sqs = Some ks0).
    { rewrite <- Em. apply mapM_squareKey_ext. intros sq' Hsq'.
      apply Hother; [by right|]. intros ->. done. }
    rewrite Hrest. assert (k = ka) as -> by congruence.
    destruct (squareKey b' sq0) as [kb|]; simpl; [|done].
    eexists. split; [done|]. simpl. xor_solve.
  - apply elem_of_cons in Hin as [->|Hin]; [done|].
    rewrite (Hother sq) by (done || by left). rewrite Ek. simpl.
    assert (Hother' : forall sq', sq' ∈ sqs -> sq' <> sq0 ->
              squareKey b' sq' = squareKey b sq')
      by (intros sq' Hsq'; apply Hother; by right).
    specialize (IH Hnd Hin Hother').
    specialize (IH ks0 eq_refl).
    destruct (squareKey b' sq0) as [kb|]; simpl.
    + destruct IH as (ks' & -> & Hx). simpl. eexists. split; [done|].
      simpl. rewrite Hx. xor_solve.
    + by rewrite IH.
Qed.


Lemma squareKey_cell (b b' : Board) (sq : nat * nat) :
  cell b' sq.1 sq.2 = cell b sq.1 sq.2 -> squareKey b' sq = squareKey b sq.
Proof. unfold Zobrist.squareKey. by intros ->. Qed.

Lemma key_is_Some (p : Piece) (sq : nat) :
  Zobrist.wf_table table -> wf_piece p -> (sq < 64)%nat ->
  is_Some (key (getPieceIndex p) sq).
Proof.
  intros [Hlen Hrows] Hp Hsq. unfold Zobrist.key, Zobrist.getPieceIndex.
  unfold wf_piece in Hp.
  destruct (Z.ltb_spec ((match color p with white => 0 | black => 8 end)
                        + number p - 1) 0) as [Hneg|Hpos];
    [destruct (color p); lia|].
  destruct (table !! _) as [keys|] eqn:Ek.
  - apply lookup_lt_is_Some_2.
    rewrite (Forall_lookup_1 _ _ _ _ Hrows Ek). done.
  - apply lookup_ge_None_1 in Ek. destruct (color p); lia.
Qed.

(** A plain move leaves the relocated board: nothing but the mover
    changes square. *)
Lemma plain_move_board (fr fc tr tc : nat) (side : Color) (b tb : Board)
    (res : SimResult) (p : Piece) :
  simulateFullMove fr fc tr tc side b = Some res ->
  tempBoard res = Some tb ->
  cellq b fr fc = Some p ->
  triggersPromotion p tr = false ->
  (forall r c q, (r, c) <> (fr, fc) ->
      cell b r c = Some (Some q) -> cell tb r c = Some (Some q)) ->
  cell b tr tc = Some None /\ color p = side /\
  forall r c, cell tb r c =
    if decide ((fr, fc) = (r, c)) then Some None
    else if decide ((tr, tc) = (r, c)) then Some (Some p)
    else cell b r c.
Proof.
  intros Hsim Htb Hp Htrig Hnocap.
  destruct (simulateFullMove_phases _ _ _ _ _ _ _ _ Hsim Htb)
    as (p' & b1 & b2 & b3 & pp & cp & Hfrom & Hside & Hto & E1 & E2 & E3
        & E4 & Hg).
  apply cellq_cell in Hp. assert (p' = p) as -> by congruence.
  split; [done|]. split; [done|].
  pose proof (fun r c => relocate_cell _ _ _ _ _ _ _ _ r c E1 E2) as Hb2.
  pose proof (promotionPass_spec b b2 b3 fr fc tr tc p pp _ Hfrom Hto Hb2 E3)
    as Hspec.
  simpl in Hspec. rewrite Htrig in Hspec.
  destruct Hspec as (H3from & _ & _ & H3to & H3other).
  intros r c.
  destruct (combinationPass_cell _ _ _ _ _ _ r c E4)
    as [->|(Hgone & q & Hq & Hne)].
  - destruct (decide ((fr, fc) = (r, c))) as [[= <- <-]|Hn1]; [done|].
    destruct (decide ((tr, tc) = (r, c))) as [[= <- <-]|Hn2]; [done|].
    apply H3other; congruence.
  - exfalso.
    destruct (decide ((fr, fc) = (r, c))) as [[= <- <-]|Hn1]; [congruence|].
    destruct (decide ((tr, tc) = (r, c))) as [[= <- <-]|Hn2]; [congruence|].
    rewrite H3other in Hq by congruence.
    rewrite (Hnocap r c q) in Hgone by (done || congruence). done.
Qed.

(** C8. For a plain move (no promotion is triggered and no piece is
    captured) between squares of the board, the incremental update of
    the hash of the position before the move (XOR with the mover's key
    on the origin, its key on the destination and the side-to-move key)
    equals [calculateZobristKey] of the resulting board with the other
    side to move; with a 16x64 table and a piece number in 1..8 both are
    defined. *)
Theorem incremental_hash_of_plain_move (fr fc tr tc : nat) (side : Color)
    (b tb : Board) (res : SimResult) (p : Piece) (h : Z) :
  (fr < 8)%nat -> (fc < 8)%nat -> (tr < 8)%nat -> (tc < 8)%nat ->
  simulateFullMove fr fc tr tc side b = Some res ->
  tempBoard res = Some tb ->
  cellq b fr fc = Some p ->
  triggersPromotion p tr = false ->
  (forall r c q, (r, c) <> (fr, fc) ->
      cell b r c = Some (Some q) -> cell tb r c = Some (Some q)) ->
  calculateZobristKey b side = Some h ->
  nextHash h p fr fc tr tc = calculateZobristKey tb (opponent side)
  /\ (Zobrist.wf_table table -> wf_piece p ->
      is_Some (calculateZobristKey tb (opponent side))).
Proof.
  intros Hfr Hfc Htr Htc Hsim Htb Hp Htrig Hnocap Hh.
  destruct (plain_move_board _ _ _ _ _ _ _ _ _ Hsim Htb Hp Htrig Hnocap)
    as (Hto & Hside & Hcells).
  apply cellq_cell in Hp.
  assert (Hne : (fr, fc) <> (tr, tc)) by (intros [= -> ->]; congruence).
  rewrite calculateZobristKey_xor in Hh.
  destruct (mapM (squareKey b) squares8) as [ks|] eqn:Eks; [|done].
  (* first the destination, on an intermediate board, then the origin *)
  destruct (set_cell b tr tc (Some p)) as [b1|] eqn:E1.
  2:{ unfold set_cell, cell in *. destruct (b !! tr); done. }
  pose proof (fun r c => cell_set_cell _ _ _ _ r c _ E1) as Hb1.
  assert (Hkto : squareKey b (tr, tc) = Some 0)
    by (unfold Zobrist.squareKey; simpl; by rewrite Hto).
  assert (Hkfrom : squareKey b (fr, fc)
                   = key (getPieceIndex p) (fr * 8 + fc))
    by (unfold Zobrist.squareKey; simpl; by rewrite Hp).
  assert (Hk1to : squareKey b1 (tr, tc) = key (getPieceIndex p) (tr * 8 + tc)).
  { unfold Zobrist.squareKey; simpl. by rewrite Hb1, decide_True. }
  assert (Hin : forall r c, (r < 8)%nat -> (c < 8)%nat -> (r, c) ∈ squares8)
    by (intros; by apply elem_of_squares8).
  pose proof (mapM_squareKey_change b b1 squares8 (tr, tc) 0 ks
                NoDup_squares8 (Hin _ _ Htr Htc)) as Hstep1.
  rewrite Hk1to in Hstep1.
  assert (Hfromkey : exists k1, key (getPieceIndex p) (fr * 8 + fc) = Some k1).
  { rewrite <- Hkfrom. clear -Eks Hin Hfr Hfc.
    specialize (Hin _ _ Hfr Hfc). revert ks Eks.
    induction squares8 as [|sq l IH]; intros ks; [by apply elem_of_nil in Hin|].
    simpl. destruct (squareKey b sq) as [k|] eqn:Ek; simpl; [|done].
    destruct (mapM (squareKey b) l) as [ks0|]; simpl; [|done]. intros _.
    apply elem_of_cons in Hin as [->|Hin]; [eauto|]. by eapply IH. }
  destruct Hfromkey as [k1 Hk1]. unfold Zobrist.nextHash. rewrite Hk1.
  assert (Htbkey : forall sq, squareKey tb sq =
            if decide ((fr, fc) = sq) then Some 0
            else squareKey b1 sq).
  { intros [r c]. destruct (decide _) as [[= <- <-]|Hn].
    - unfold Zobrist.squareKey. simpl. by rewrite Hcells, decide_True.
    - apply squareKey_cell. simpl. rewrite Hcells, Hb1.
      by rewrite decide_False. }
  assert (Hb1from : squareKey b1 (fr, fc) = Some k1).
  { rewrite <- Hk1, <- Hkfrom. apply squareKey_cell. simpl.
    rewrite Hb1, decide_False; [done|congruence]. }
  assert (Hstep1' : forall sq, sq ∈ squares8 -> sq <> (tr, tc) ->
            squareKey b1 sq = squareKey b sq).
  { intros [r c] _ Hn. apply squareKey_cell. simpl.
    rewrite Hb1, decide_False; [done|congruence]. }
  specialize (Hstep1 Hstep1' Hkto Eks).
  destruct (key (getPieceIndex p) (tr * 8 + tc)) as [k2|] eqn:Ek2.
  - destruct Hstep1 as (ks1 & Hks1 & Hx1).
    pose proof (mapM_squareKey_change b1 tb squares8 (fr, fc) k1 ks1
                  NoDup_squares8 (Hin _ _ Hfr Hfc)) as Hstep2.
    rewrite Htbkey, decide_True in Hstep2 by done.
    destruct Hstep2 as (ks2 & Hks2 & Hx2); [| exact Hb1from | exact Hks1 |].
    { intros sq _ Hn. rewrite Htbkey, decide_False; done. }
    rewrite calculateZobristKey_xor, Hks2.
    split; [|eauto]. f_equal. rewrite Hx2, Hx1.
    destruct side; injection Hh as <-; simpl; xor_solve.
  - assert (Hnone : mapM (squareKey tb) squares8 = None).
    { clear -Hstep1 Htbkey Hne Htr Htc Hin Ek2 Hk1to.
      assert (Htbto : squareKey tb (tr, tc) = None)
        by (rewrite Htbkey, decide_False, Hk1to; done).
      specialize (Hin _ _ Htr Htc). clear -Hin Htbto.
      induction squares8 as [|sq l IH]; [by apply elem_of_nil in Hin|].
      simpl. apply elem_of_cons in Hin as [<-|Hin]; [by rewrite Htbto|].
      rewrite (IH Hin). by destruct (squareKey tb sq). }
    rewrite calculateZobristKey_xor, Hnone. split; [done|].
    intros Hwf Hwp.
    destruct (key_is_Some p (tr * 8 + tc) Hwf Hwp ltac:(lia)) as [? ?].
    congruence.
Qed.

End ZobristIncremental.

(** ** Connectivity: the breadth-first search *)

Lemma adjacent_sym (a b : Z * Z) : adjacent a b -> adjacent b a.
Proof.
  intros (d & Hd & ->). exists (- d.1, - d.2). split.
  - unfold directions in *.
    repeat (apply elem_of_cons in Hd as [->|Hd]; [simpl; set_solver|]).
    by apply elem_of_nil in Hd.
  - destruct a; simpl. f_equal; lia.
Qed.

Lemma reach_sym (pS : list (Z * Z)) (a b : Z * Z) :
  a ∈ pS -> reach pS a b -> reach pS b a.
Proof.
  intros Ha Hr. induction Hr as [x|x y z [Hxy Hy] _ IH]; [apply rtc_refl|].
  eapply rtc_r; [by apply IH|]. split; [by apply adjacent_sym|done].
Qed.

Lemma reach_in (pS : list (Z * Z)) (a b : Z * Z) :
  a ∈ pS -> reach pS a b -> b ∈ pS.
Proof. intros Ha Hr. induction Hr as [x|x y z [Hxy Hy] _ IH]; auto. Qed.

(** The inner loop over the eight directions for the dequeued [c]. *)
Lemma visit_fold (pS : list (Z * Z)) (c : Z * Z) (ds : list (Z * Z))
    (vS q : list (Z * Z)) :
  NoDup vS ->
  exists new,
    foldl (visit pS c) (vS, q) ds = (vS ++ new, q ++ new)
    /\ NoDup (vS ++ new)
    /\ (forall k, k ∈ new ->
          k ∈ pS /\ exists d, d ∈ ds /\ k = (c.1 + d.1, c.2 + d.2))
    /\ (forall d, d ∈ ds ->
          (c.1 + d.1, c.2 + d.2) ∈ pS -> (c.1 + d.1, c.2 + d.2) ∈ vS ++ new).
Proof.
  revert vS q. induction ds as [|d ds IH]; intros vS q Hnd; simpl.
  - exists []. rewrite !app_nil_r. split_and!; try done.
    + intros k Hk. by apply elem_of_nil in Hk.
    + intros d Hd. by apply elem_of_nil in Hd.
  - unfold visit at 2. simpl.
    set (k0 := (c.1 + d.1, c.2 + d.2)).
    destruct (bool_decide (k0 ∈ pS)) eqn:EpS; simpl.
    + destruct (bool_decide (k0 ∈ vS)) eqn:EvS; simpl.
      * apply bool_decide_eq_true in EvS.
        destruct (IH vS q Hnd) as (new & Hf & Hnd' & Hnew & Hall).
        exists new. split_and!; try done.
        -- intros k' Hk'. destruct (Hnew k' Hk') as (? & d' & ? & ?).
           split; [done|]. exists d'. split; [by right|done].
        -- intros d' [->|Hd']%elem_of_cons Hin;
             [apply elem_of_app; by left|by apply Hall].
      * apply bool_decide_eq_false in EvS. apply bool_decide_eq_true in EpS.
        assert (Hnd1 : NoDup (vS ++ [k0])).
        { apply NoDup_app. repeat split; [done| |apply NoDup_singleton].
          intros x Hx ->%list_elem_of_singleton. done. }
        destruct (IH (vS ++ [k0]) (q ++ [k0]) Hnd1)
          as (new & Hf & Hnd' & Hnew & Hall).
        exists (k0 :: new). rewrite Hf, <- !app_assoc. simpl.
        rewrite <- app_assoc in Hnd'. simpl in Hnd'.
        split_and!; try done.
        -- intros k' [->|Hk']%elem_of_cons.
           ++ split; [done|]. exists d. split; [by left|done].
           ++ destruct (Hnew k' Hk') as (? & d' & ? & ?).
              split; [done|]. exists d'. split; [by right|done].
        -- intros d' [->|Hd']%elem_of_cons Hin.
           ++ apply elem_of_app. right. by left.
           ++ specialize (Hall d' Hd' Hin).
              by rewrite <- app_assoc in Hall.
    + apply bool_decide_eq_false in EpS.
      destruct (IH vS q Hnd) as (new & Hf & Hnd' & Hnew & Hall).
      exists new. split_and!; try done.
      * intros k' Hk'. destruct (Hnew k' Hk') as (? & d' & ? & ?).
        split; [done|]. exists d'. split; [by right|done].
      * intros d' [->|Hd']%elem_of_cons Hin; [done|by apply Hall].
Qed.

(** The loop invariant of the search from [s]. *)
Record bfsInv (pS : list (Z * Z)) (s : Z * Z) (vS q : list (Z * Z)) : Prop :=
  { inv_start : s ∈ vS;
    inv_nodup : NoDup vS;
    inv_reach : forall v, v ∈ vS -> v ∈ pS /\ reach pS s v;
    inv_queue : forall v, v ∈ q -> v ∈ vS;
    inv_closed : forall v w, v ∈ vS -> v ∉ q -> adjacent v w -> w ∈ pS -> w ∈ vS }.

Lemma bfsInv_step (pS : list (Z * Z)) (s c : Z * Z) (vS q' : list (Z * Z)) :
  bfsInv pS s vS (c :: q') ->
  exists new,
    foldl (visit pS c) (vS, q') directions = (vS ++ new, q' ++ new)
    /\ bfsInv pS s (vS ++ new) (q' ++ new).
Proof.
  intros [Hs Hnd Hreach Hq Hclosed].
  destruct (visit_fold pS c directions vS q' Hnd)
    as (new & Hf & Hnd' & Hnew & Hall).
  exists new. split; [done|]. split.
  - apply elem_of_app. by left.
  - done.
  - intros v [Hv|Hv]%elem_of_app; [by apply Hreach|].
    destruct (Hnew v Hv) as (HpS & d & Hd & ->). split; [done|].
    eapply rtc_r; [apply Hreach, Hq; by left|].
    split; [by exists d|done].
  - intros v [Hv|Hv]%elem_of_app; apply elem_of_app;
      [left; apply Hq; by right|by right].
  - intros v w [Hv|Hv]%elem_of_app Hnq Hadj Hw.
    + destruct (decide (v = c)) as [->|Hvc].
      * destruct Hadj as (d & Hd & ->). by apply Hall.
      * apply elem_of_app. left. apply (Hclosed v w); try done.
        rewrite not_elem_of_cons. split; [done|].
        intros Hin. apply Hnq, elem_of_app. by left.
    + exfalso. apply Hnq, elem_of_app. by right.
Qed.

(** With as many iterations as there are keys the queue runs empty: each
    key is enqueued at most once. *)
Lemma bfs_terminates (pS : list (Z * Z)) (s : Z * Z) (fuel : nat)
    (vS q : list (Z * Z)) :
  bfsInv pS s vS q ->
  (length pS + length q <= fuel + length vS)%nat ->
  exists vS', bfs fuel pS vS q = Some vS' /\ bfsInv pS s vS' [].
Proof.
  revert vS q. induction fuel as [|fuel IH]; intros vS q Hinv Hfuel.
  - assert (Hle : (length vS <= length pS)%nat).
    { apply submseteq_length, NoDup_submseteq; [apply Hinv|].
      intros v Hv. by apply Hinv. }
    destruct q as [|c q']; [|simpl in Hfuel; lia].
    exists vS. done.
  - destruct q as [|c q']; [by exists vS|]. cbn [bfs].
    destruct (bfsInv_step pS s c vS q' Hinv) as (new & -> & Hinv').
    cbn [fst snd]. apply IH; [done|].
    rewrite !length_app. simpl in Hfuel. lia.
Qed.

Lemma bfs_visits_reachable (pS : list (Z * Z)) (s : Z * Z) (vS : list (Z * Z)) :
  bfsInv pS s vS [] -> forall v, v ∈ vS <-> v ∈ pS /\ reach pS s v.
Proof.
  intros [Hs Hnd Hreach Hq Hclosed] v. split; [by apply Hreach|].
  intros [_ Hr]. revert v Hr. apply rtc_ind_r; [done|].
  intros y z _ [Hyz Hz] Hy.
  apply (Hclosed y z); [done|apply not_elem_of_nil|done|done].
Qed.

(** [areConnectedOptimized] decides connectivity of squares that are
    pairwise distinct. *)
Lemma areConnectedOptimized_spec (ps : list PD.t) :
  NoDup (posOf <$> ps) ->
  areConnectedOptimized ps = true <-> connected ps.
Proof.
  intros Hnd. unfold areConnectedOptimized.
  destruct ps as [|p0 [|p1 ps']].
  - split; [|done]. intros _ p q Hp. by apply elem_of_nil in Hp.
  - split; [|done]. intros _ p q Hp Hq. simpl in *.
    apply list_elem_of_singleton in Hp, Hq. subst. apply rtc_refl.
  - set (ps := p0 :: p1 :: ps') in *. set (pS := posOf <$> ps) in *.
    assert (Hs : posOf p0 ∈ pS) by (by left).
    assert (Hinv0 : bfsInv pS (posOf p0) [posOf p0] [posOf p0]).
    { split.
      - by left.
      - apply NoDup_singleton.
      - intros v ->%list_elem_of_singleton. split; [done|apply rtc_refl].
      - done.
      - intros v w ->%list_elem_of_singleton Hn. exfalso. apply Hn. by left. }
    destruct (bfs_terminates pS (posOf p0) (length ps) _ _ Hinv0)
      as (vS & -> & Hinv).
    { unfold pS. rewrite length_fmap. simpl. lia. }
    pose proof (bfs_visits_reachable _ _ _ Hinv) as Hvis.
    assert (Hsub : vS ⊆+ pS).
    { apply NoDup_submseteq; [apply Hinv|]. intros v Hv. by apply Hvis. }
    rewrite Nat.eqb_eq. replace (length ps) with (length pS)
      by (unfold pS; by rewrite length_fmap).
    split.
    + intros Hlen p q Hp Hq.
      assert (Hperm : vS ≡ₚ pS) by (apply submseteq_length_Permutation; [done|lia]).
      assert (Hp' : reach pS (posOf p0) p) by (apply Hvis; by rewrite Hperm).
      assert (Hq' : reach pS (posOf p0) q) by (apply Hvis; by rewrite Hperm).
      etrans; [apply reach_sym; [exact Hs|exact Hp']|exact Hq'].
    + intros Hconn. apply Nat.le_antisymm; [by apply submseteq_length|].
      apply submseteq_length, NoDup_submseteq; [done|].
      intros v Hv. apply Hvis. split; [done|]. by apply Hconn.
Qed.

(** ** Bit masks: the 32-bit operators on small operands *)

Lemma to_int32_small (z : Z) : - 2 ^ 31 <= z < 2 ^ 31 -> to_int32 z = z.
Proof. intros H. unfold to_int32. rewrite Z.mod_small; lia. Qed.

Lemma pow2_le_30 (i : nat) : (i <= 30)%nat -> 0 < 2 ^ Z.of_nat i <= 2 ^ 30.
Proof.
  intros Hi. split; [apply Z.pow_pos_nonneg; lia|].
  apply Z.pow_le_mono_r; lia.
Qed.

Lemma js_shl_1 (i : nat) : (i <= 30)%nat -> js_shl 1 i = 2 ^ Z.of_nat i.
Proof.
  intros Hi. unfold js_shl. rewrite (to_int32_small 1) by lia.
  rewrite Z.mod_small by lia. rewrite Z.shiftl_1_l.
  pose proof (pow2_le_30 i Hi). apply to_int32_small. lia.
Qed.

Lemma land_pow2 (m : Z) (i : nat) :
  Z.land m (2 ^ Z.of_nat i) <> 0 <-> Z.testbit m (Z.of_nat i) = true.
Proof.
  split.
  - intros Hne. destruct (Z.testbit m (Z.of_nat i)) eqn:E; [done|].
    exfalso. apply Hne. apply Z.bits_inj'. intros k Hk.
    rewrite Z.land_spec, Z.bits_0.
    destruct (decide (k = Z.of_nat i)) as [->|Hki].
    + by rewrite E.
    + rewrite Z.pow2_bits_false by lia. apply andb_false_r.
  - intros Hb Hz.
    assert (Hbit : Z.testbit (Z.land m (2 ^ Z.of_nat i)) (Z.of_nat i) = true).
    { rewrite Z.land_spec, Hb, Z.pow2_bits_true by lia. done. }
    rewrite Hz, Z.bits_0 in Hbit. done.
Qed.

Lemma js_test_mask (m : Z) (i : nat) :
  0 <= m < 2 ^ 30 -> (i <= 30)%nat ->
  js_and m (js_shl 1 i) <> 0 <-> Z.testbit m (Z.of_nat i) = true.
Proof.
  intros Hm Hi. unfold js_and. rewrite js_shl_1 by done.
  pose proof (pow2_le_30 i Hi).
  rewrite !to_int32_small by lia. apply land_pow2.
Qed.

Lemma js_test_shift (m : Z) (i : nat) :
  0 <= m < 2 ^ 30 -> (i <= 30)%nat ->
  js_and (js_shr m i) 1 <> 0 <-> Z.testbit m (Z.of_nat i) = true.
Proof.
  intros Hm Hi. unfold js_and, js_shr.
  rewrite (to_int32_small m), (to_int32_small 1) by lia.
  rewrite Z.mod_small by lia.
  assert (Hs : 0 <= Z.shiftr m (Z.of_nat i) <= m).
  { rewrite Z.shiftr_div_pow2 by lia.
    pose proof (pow2_le_30 i Hi). split; [apply Z.div_pos; lia|].
    apply Z.div_le_upper_bound; nia. }
  rewrite to_int32_small by lia.
  rewrite (land_pow2 _ 0), Z.shiftr_spec by lia. by rewrite Z.add_0_l.
Qed.

Lemma select_pick (m : Z) (i : nat) (ps : list PD.t) :
  0 <= m < 2 ^ 30 -> (i + length ps <= 30)%nat ->
  select m i ps = pick (Z.shiftr m (Z.of_nat i)) ps.
Proof.
  intros Hm. revert i. induction ps as [|pD ps IH]; intros i Hi; simpl; [done|].
  simpl in Hi.
  assert (Hd : Z.div2 (Z.shiftr m (Z.of_nat i)) = Z.shiftr m (Z.of_nat (S i))).
  { rewrite Z.div2_spec, Z.shiftr_shiftr by lia. f_equal. lia. }
  assert (Ho : Z.odd (Z.shiftr m (Z.of_nat i)) = Z.testbit m (Z.of_nat i)).
  { rewrite <- Z.bit0_odd, Z.shiftr_spec by lia. by rewrite Z.add_0_l. }
  rewrite Hd, Ho, <- IH by lia.
  destruct (decide _) as [Ht|Ht].
  - apply js_test_mask in Ht; [|done|lia]. by rewrite Ht.
  - destruct (Z.testbit m (Z.of_nat i)) eqn:E; [|done].
    exfalso. apply Ht. apply js_test_mask; [done|lia|done].
Qed.

Lemma bitCount_pick (m : Z) (ps : list PD.t) :
  0 <= m < 2 ^ 30 -> (length ps <= 30)%nat ->
  bitCount m (length ps) = length (pick m ps).
Proof.
  intros Hm Hn. unfold bitCount.
  assert (H : forall (ps : list PD.t) i, (i + length ps <= 30)%nat ->
    length (filter (fun i => js_and (js_shr m i) 1 <> 0) (seq i (length ps)))
    = length (pick (Z.shiftr m (Z.of_nat i)) ps)).
  { clear ps Hn. induction ps as [|pD ps IH]; intros i Hi; simpl; [done|].
    simpl in Hi. rewrite filter_cons.
    assert (Hd : Z.div2 (Z.shiftr m (Z.of_nat i)) = Z.shiftr m (Z.of_nat (S i))).
    { rewrite Z.div2_spec, Z.shiftr_shiftr by lia. f_equal. lia. }
    assert (Ho : Z.odd (Z.shiftr m (Z.of_nat i)) = Z.testbit m (Z.of_nat i)).
    { rewrite <- Z.bit0_odd, Z.shiftr_spec by lia. by rewrite Z.add_0_l. }
    rewrite Hd, Ho. destruct (decide _) as [Ht|Ht].
    - apply js_test_shift in Ht; [|done|lia]. rewrite Ht. simpl.
      by rewrite IH by lia.
    - destruct (Z.testbit m (Z.of_nat i)) eqn:E.
      + exfalso. apply Ht. apply js_test_shift; [done|lia|done].
      + by rewrite IH by lia. }
  by rewrite (H ps 0%nat) by lia.
Qed.

Lemma pick_sublist {A} (m : Z) (ps : list A) : pick m ps `sublist_of` ps.
Proof.
  revert m. induction ps as [|x ps IH]; intros m; simpl; [done|].
  destruct (Z.odd m); [by apply sublist_skip|by apply sublist_cons].
Qed.

Lemma odd_div2_double (m : Z) :
  Z.odd (2 * m + 1) = true /\ Z.div2 (2 * m + 1) = m
  /\ Z.odd (2 * m) = false /\ Z.div2 (2 * m) = m.
Proof.
  split_and!.
  - by rewrite Z.add_comm, Z.odd_add_mul_2.
  - rewrite Z.div2_div. symmetry. apply (Z.div_unique _ 2 m 1); lia.
  - by rewrite Z.odd_mul.
  - rewrite Z.div2_div. symmetry. apply (Z.div_unique _ 2 m 0); lia.
Qed.

Lemma sublist_pick {A} (c ps : list A) :
  c `sublist_of` ps ->
  exists m, 0 <= m < 2 ^ Z.of_nat (length ps) /\ pick m ps = c.
Proof.
  induction 1 as [|x c ps _ (m & Hm & Hp)|x c ps _ (m & Hm & Hp)].
  - exists 0. simpl. split; [lia|done].
  - exists (2 * m + 1). destruct (odd_div2_double m) as (Ho & Hd & _ & _).
    cbn [length pick]. rewrite Ho, Hd, Hp.
    rewrite Nat2Z.inj_succ, Z.pow_succ_r by lia. split; [lia|done].
  - exists (2 * m). destruct (odd_div2_double m) as (_ & _ & Ho & Hd).
    cbn [length pick]. rewrite Ho, Hd, Hp.
    rewrite Nat2Z.inj_succ, Z.pow_succ_r by lia. split; [lia|done].
Qed.

Lemma pick_0 {A} (ps : list A) : pick 0 ps = [].
Proof. induction ps as [|x ps IH]; simpl; [done|exact IH]. Qed.

Lemma pick_small {A} (m : Z) (ps : list A) :
  0 <= m < 3 -> (length (pick m ps) <= 1)%nat.
Proof.
  intros Hm. assert (Hc : m = 0 \/ m = 1 \/ m = 2) by lia.
  destruct Hc as [ -> | [ -> | -> ] ].
  - rewrite pick_0. simpl. lia.
  - destruct ps as [|x ps]; simpl; [lia|]. rewrite pick_0. simpl. lia.
  - destruct ps as [|x [|y ps]]; simpl; [lia..|]. rewrite pick_0. simpl. lia.
Qed.

Lemma elem_of_masks (n : nat) (m : Z) :
  (n <= 30)%nat -> m ∈ masks n <-> 3 <= m < 2 ^ Z.of_nat n.
Proof.
  intros Hn. unfold masks. rewrite js_shl_1 by done.
  rewrite list_elem_of_fmap. pose proof (pow2_le_30 n Hn). split.
  - intros (k & -> & Hk%elem_of_seq). lia.
  - intros Hm. exists (Z.to_nat m). split; [lia|]. apply elem_of_seq. lia.
Qed.

(** For at most 30 entries the enumeration accepts exactly the sub-lists
    with 2 to 8 members that pass the three tests. *)
Lemma findValidCombinations_spec (ps c : list PD.t) :
  (length ps <= 30)%nat ->
  c ∈ findValidCombinations ps <->
  c `sublist_of` ps /\ (2 <= length c <= 8)%nat /\ isCombination c = true.
Proof.
  intros Hn. unfold findValidCombinations. rewrite list_elem_of_omap.
  pose proof (pow2_le_30 _ Hn) as Hpow.
  assert (Hmono : forall m, m < 2 ^ Z.of_nat (length ps) -> m < 2 ^ 30) by lia.
  split.
  - intros (m & Hm%elem_of_masks & Hc); [|done]. unfold candidate in Hc.
    rewrite bitCount_pick, select_pick in Hc by (simpl; lia).
    rewrite Z.shiftr_0_r in Hc.
    destruct (orb _ _) eqn:Eb; [done|].
    apply orb_false_elim in Eb as [E1%Nat.ltb_ge E2%Nat.ltb_ge].
    destruct (isCombination _) eqn:Ec; [|done]. injection Hc as <-.
    split; [apply pick_sublist|]. split; [lia|done].
  - intros (Hsub & Hlen & Hcomb).
    destruct (sublist_pick _ _ Hsub) as (m & Hm & Hp).
    assert (Hm3 : 3 <= m).
    { destruct (Z.le_gt_cases 3 m) as [|Hlt]; [done|].
      pose proof (pick_small m ps ltac:(lia)) as Hs. rewrite Hp in Hs. lia. }
    exists m. split; [apply elem_of_masks; [done|lia]|].
    unfold candidate.
    rewrite bitCount_pick, select_pick by (simpl; lia).
    rewrite Z.shiftr_0_r, Hp, Hcomb.
    destruct (orb _ _) eqn:Eb; [|done].
    apply orb_true_iff in Eb as [E%Nat.ltb_lt|E%Nat.ltb_lt]; lia.
Qed.

(** ** The combination window *)

Lemma elem_of_windowRange (check r : nat) :
  r ∈ windowRange check <->
  -3 <= Z.of_nat r - Z.of_nat check <= 3 /\ (r <= 7)%nat.
Proof. unfold windowRange. rewrite elem_of_seq. lia. Qed.

Lemma elem_of_windowSquares (cr cc r c : nat) :
  (r, c) ∈ windowSquares cr cc <-> inWindow cr cc r c.
Proof.
  unfold windowSquares, inWindow. rewrite list_elem_of_bind. split.
  - intros (r' & Hc & Hr). apply list_elem_of_bind in Hc as (c' & Hrc & Hc).
    apply list_elem_of_singleton in Hrc as [= -> ->].
    apply elem_of_windowRange in Hr, Hc. lia.
  - intros (Hr1 & Hr2 & Hc1 & Hc2). exists r.
    split; [|apply elem_of_windowRange; lia].
    apply list_elem_of_bind. exists c.
    split; [by left|apply elem_of_windowRange; lia].
Qed.

Lemma NoDup_pairs (rows cols : list nat) :
  NoDup rows -> NoDup cols -> NoDup (r ← rows; c ← cols; [(r, c)]).
Proof.
  intros Hrows Hcols.
  induction rows as [|r rows IH]; simpl; [apply NoDup_nil_2|].
  apply NoDup_cons in Hrows as [Hr Hrows].
  apply NoDup_app. split_and!.
  - clear -Hcols. induction Hcols as [|c cols Hc _ IHc]; simpl;
      [apply NoDup_nil_2|].
    apply NoDup_cons. split; [|done].
    rewrite list_elem_of_bind. intros (c' & [= ->]%list_elem_of_singleton & Hin).
    done.
  - intros [r' c'] (c0 & [= -> ->]%list_elem_of_singleton & _)%list_elem_of_bind.
    rewrite list_elem_of_bind. intros (r0 & Hin & Hr0).
    apply list_elem_of_bind in Hin as (c1 & [= -> ->]%list_elem_of_singleton & _).
    done.
  - by apply IH.
Qed.

Lemma NoDup_windowSquares (cr cc : nat) : NoDup (windowSquares cr cc).
Proof. apply NoDup_pairs; apply NoDup_seq. Qed.

(** [nearbyPieces]: the occupied squares of the window, each once. *)
Lemma nearbyPieces_spec (cr cc : nat) (b : Board) (ps : list PD.t) :
  nearbyPieces cr cc b = Some ps ->
  (forall pd, pd ∈ ps <->
     inWindow cr cc (PD.row pd) (PD.col pd)
     /\ cell b (PD.row pd) (PD.col pd) = Some (Some (PD.piece pd)))
  /\ NoDup (posOf <$> ps).
Proof.
  unfold nearbyPieces.
  assert (H : forall (sqs : list (nat * nat)) (acc ps : list PD.t),
    NoDup sqs ->
    NoDup (posOf <$> acc) ->
    (forall pd, pd ∈ acc -> (PD.row pd, PD.col pd) ∉ sqs) ->
    foldM (fun nearby '(r, c) =>
             match cell b r c with
             | None => None
             | Some None => Some nearby
             | Some (Some piece) => Some (nearby ++ [PD.mk r c piece])
             end) acc sqs = Some ps ->
    (forall pd, pd ∈ ps <->
       pd ∈ acc \/ ((PD.row pd, PD.col pd) ∈ sqs
         /\ cell b (PD.row pd) (PD.col pd) = Some (Some (PD.piece pd))))
    /\ NoDup (posOf <$> ps)).
  { induction sqs as [|[r c] sqs IH]; intros acc ps' Hnd Hacc Hdisj; simpl.
    - intros [= <-]. split; [|done]. intros pd. rewrite elem_of_nil. naive_solver.
    - apply NoDup_cons in Hnd as [Hrc Hnd].
      destruct (cell b r c) as [[piece|]|] eqn:E; [| |done].
      + intros Hf. apply IH in Hf as [Hmem Hnd']; [|done| |].
        * split; [|done]. intros pd. rewrite Hmem, elem_of_app,
            list_elem_of_singleton, elem_of_cons. split.
          -- intros [[?| ->]|[? ?]]; [by left| |by right; split; [right|]].
             right. simpl. split; [by left|done].
          -- intros [?|[[Heq|?] Hc]]; [by left; left| |by right].
             left; right. destruct pd as [r' c' p']; simpl in *.
             injection Heq as -> ->. congruence.
        * rewrite fmap_app. apply NoDup_app. split_and!; [done| |apply NoDup_singleton].
          intros x (pd & -> & Hpd)%list_elem_of_fmap [= Hr Hc]%list_elem_of_singleton.
          apply (Hdisj pd Hpd). apply elem_of_cons. left. f_equal; lia.
        * intros pd [Hpd| ->%list_elem_of_singleton]%elem_of_app.
          -- intros Hin. apply (Hdisj pd Hpd). by right.
          -- done.
      + intros Hf. apply IH in Hf as [Hmem Hnd']; [|done|done|].
        * split; [|done]. intros pd. rewrite Hmem, elem_of_cons. split.
          -- naive_solver.
          -- intros [?|[[Heq|?] Hc]]; [by left| |by right].
             destruct pd as [r' c' p']; simpl in *.
             injection Heq as -> ->. congruence.
        * intros pd Hpd Hin. apply (Hdisj pd Hpd). by right. }
  intros Hf. apply H in Hf as [Hmem Hnd].
  - split; [|done]. intros pd. rewrite Hmem, elem_of_nil, elem_of_windowSquares.
    naive_solver.
  - apply NoDup_windowSquares.
  - apply NoDup_nil_2.
  - intros pd Hpd. by apply elem_of_nil in Hpd.
Qed.

Lemma hasColor_spec (k : Color) (c : list PD.t) :
  hasColor k c = true <-> exists pd, pd ∈ c /\ color (PD.piece pd) = k.
Proof.
  unfold hasColor. induction c as [|x c IH]; simpl.
  - split; [done|]. intros (pd & Hpd & _). by apply elem_of_nil in Hpd.
  - rewrite orb_true_iff, IH, bool_decide_eq_true. split.
    + intros [?|(pd & ? & ?)]; [exists x; split; [by left|done]|].
      exists pd. split; [by right|done].
    + intros (pd & [->|?]%elem_of_cons & ?); [by left|right; eauto].
Qed.

Lemma sublist_NoDup_pos (c ps : list PD.t) :
  c `sublist_of` ps -> NoDup (posOf <$> ps) -> NoDup (posOf <$> c).
Proof.
  intros Hsub Hnd. eapply sublist_NoDup; [exact Hnd|]. by apply fmap_sublist.
Qed.

Lemma isCombination_spec (c : list PD.t) :
  NoDup (posOf <$> c) ->
  isCombination c = true <->
  sumNumbers c = 10 /\
  (exists pd, pd ∈ c /\ color (PD.piece pd) = white) /\
  (exists pd, pd ∈ c /\ color (PD.piece pd) = black) /\
  connected c.
Proof.
  intros Hnd. unfold isCombination.
  rewrite !andb_true_iff, Z.eqb_eq, !hasColor_spec,
    (areConnectedOptimized_spec c Hnd). naive_solver.
Qed.

(** The combination pass on a window of at most 30 pieces: no combination
    when the window holds pieces of one colour only, and otherwise exactly
    the valid combinations. The shortcut gives the same answer as the
    enumeration would, since a valid combination has both colours. *)
Theorem combinations_of_small_window (cr cc : nat) (b : Board) (side : Color)
    (ps : list PD.t) :
  nearbyPieces cr cc b = Some ps ->
  (length ps <= 30)%nat ->
  exists combos,
    checkCombinationsAroundPositionOnBoard cr cc b side = Some combos
    /\ (hasColor white ps = false \/ hasColor black ps = false -> combos = [])
    /\ forall c, c ∈ combos <-> validCombination ps c.
Proof.
  intros Hps Hn. unfold checkCombinationsAroundPositionOnBoard. rewrite Hps.
  destruct (nearbyPieces_spec _ _ _ _ Hps) as [_ Hnd].
  assert (Hvalid : forall c, c ∈ findValidCombinations ps <-> validCombination ps c).
  { intros c. rewrite (findValidCombinations_spec ps c Hn). unfold validCombination.
    split.
    - intros (Hsub & Hlen & Hc).
      apply isCombination_spec in Hc; [|by eapply sublist_NoDup_pos]. naive_solver.
    - intros (Hsub & Hlen & Hc). split; [done|]. split; [done|].
      apply isCombination_spec; [by eapply sublist_NoDup_pos|done]. }
  destruct (negb (hasColor white ps) || negb (hasColor black ps)) eqn:E.
  - exists []. split; [done|]. split; [done|]. intros c. rewrite elem_of_nil.
    split; [done|]. intros (Hsub & _ & _ & (w & Hw & Hwc) & (k & Hk & Hkc) & _).
    apply orb_true_iff in E as [E|E]; apply negb_true_iff in E;
      apply not_true_iff_false in E; apply E, hasColor_spec.
    + exists w. split; [|done]. by eapply elem_of_sublist.
    + exists k. split; [|done]. by eapply elem_of_sublist.
  - exists (findValidCombinations ps). split; [done|]. split; [|done].
    apply orb_false_elim in E as [E1%negb_false_iff E2%negb_false_iff].
    intros [?|?]; congruence.
Qed.

(** ** The captures of the combination pass *)

Lemma foldl_concat {A B} (f : A -> B -> A) (a : A) (ls : list (list B)) :
  foldl (fun a l => foldl f a l) a ls = foldl f a (concat ls).
Proof.
  revert a. induction ls as [|l ls IH]; intros a; simpl; [done|].
  by rewrite foldl_app, IH.
Qed.

Lemma elem_of_concat {A} (x : A) (ls : list (list A)) :
  x ∈ concat ls <-> exists l, x ∈ l /\ l ∈ ls.
Proof.
  induction ls as [|l ls IH]; simpl.
  - rewrite elem_of_nil. split; [done|]. intros (l & _ & Hl).
    by apply elem_of_nil in Hl.
  - rewrite elem_of_app, IH. split.
    + intros [?|(l' & ? & ?)]; [exists l; split; [done|by left]|].
      exists l'. split; [done|by right].
    + intros (l' & ? & [->|?]%elem_of_cons); [by left|right; eauto].
Qed.

Lemma sumZ_app (xs ys : list Z) : sumZ (xs ++ ys) = sumZ xs + sumZ ys.
Proof. induction xs as [|x xs IH]; simpl; [done|]. rewrite IH. lia. Qed.

Lemma sumZ_Permutation (xs ys : list Z) : xs ≡ₚ ys -> sumZ xs = sumZ ys.
Proof. induction 1; simpl; lia. Qed.

(** The set of removed squares and the points after the members [pds]. *)
Lemma collect_fold (bd : Board) (side : Color) (pds : list PD.t)
    (st : Z * list (nat * nat)) :
  NoDup st.2 ->
  let st' := foldl (collectCapture bd side) st pds in
  NoDup st'.2
  /\ (forall k, k ∈ st'.2 <->
        k ∈ st.2 \/ (k ∈ keyOf <$> pds /\ capturable bd side k))
  /\ st'.1 - sumZ (numberAt bd <$> st'.2) = st.1 - sumZ (numberAt bd <$> st.2).
Proof.
  revert st. induction pds as [|pd pds IH]; intros st Hnd; simpl.
  - split; [done|]. split; [|done]. intros k. rewrite elem_of_nil. naive_solver.
  - assert (Hstep : let st1 := collectCapture bd side st pd in
      NoDup st1.2
      /\ (forall k, k ∈ st1.2 <->
            k ∈ st.2 \/ (k = keyOf pd /\ capturable bd side k))
      /\ st1.1 - sumZ (numberAt bd <$> st1.2)
         = st.1 - sumZ (numberAt bd <$> st.2)).
    { unfold collectCapture, capturable, keyOf. simpl.
      destruct (cellq bd (PD.row pd) (PD.col pd)) as [q|] eqn:E.
      - destruct (decide (color q <> side)) as [Hq|Hq].
        + destruct (bool_decide _) eqn:Eb.
          * apply bool_decide_eq_true in Eb. split; [done|]. split; [|done].
            intros k. split; [by left|]. intros [?|[-> _]]; done.
          * apply bool_decide_eq_false in Eb. simpl. split_and!.
            -- apply NoDup_app. split_and!; [done| |apply NoDup_singleton].
               intros x Hx ->%list_elem_of_singleton. done.
            -- intros k. rewrite elem_of_app, list_elem_of_singleton.
               split; [|naive_solver]. intros [?| ->]; [by left|].
               right. split; [done|]. simpl. eauto.
            -- rewrite fmap_app, sumZ_app. simpl. unfold numberAt at 2. simpl.
               rewrite E. lia.
        + split; [done|]. split; [|done]. intros k. split; [by left|].
          intros [?|[-> (q' & Hq' & Hne)]]; [done|]. simpl in Hq'.
          assert (q' = q) as -> by congruence. done.
      - split; [done|]. split; [|done]. intros k. split; [by left|].
        intros [?|[-> (q' & Hq' & Hne)]]; [done|]. simpl in Hq'. congruence. }
    destruct Hstep as (Hnd1 & Hmem1 & Hsum1).
    destruct (IH _ Hnd1) as (Hnd2 & Hmem2 & Hsum2).
    split; [done|]. split; [|lia].
    intros k. rewrite Hmem2, Hmem1, ?fmap_cons, elem_of_cons. naive_solver.
Qed.

(** [collectCaptures]: the squares of capturable members of some
    combination, each once, and the sum of their numbers. *)
Lemma collectCaptures_spec (bd : Board) (side : Color)
    (combos : list (list PD.t)) :
  let st := collectCaptures bd side combos in
  NoDup st.2
  /\ (forall k, k ∈ st.2 <->
        exists c pd, c ∈ combos /\ pd ∈ c /\ keyOf pd = k /\ capturable bd side k)
  /\ st.1 = sumZ (numberAt bd <$> st.2).
Proof.
  unfold collectCaptures. rewrite foldl_concat.
  destruct (collect_fold bd side (concat combos) (0, []) (NoDup_nil_2))
    as (Hnd & Hmem & Hsum).
  split; [done|]. split; [|simpl in Hsum; lia].
  intros k. rewrite Hmem. simpl. rewrite elem_of_nil, list_elem_of_fmap.
  split.
  - intros [[]|((pd & -> & Hpd) & Hcap)].
    apply elem_of_concat in Hpd as (c & Hpd & Hc). eauto 10.
  - intros (c & pd & Hc & Hpd & <- & Hcap). right. split; [|done].
    exists pd. split; [done|]. apply elem_of_concat. eauto.
Qed.

(** ** Well-formed boards stay well-formed *)

Lemma clearSquares_wf (bd bd' : Board) (sqs : list (nat * nat)) :
  wf_board bd -> (forall r c, (r, c) ∈ sqs -> (c < 8)%nat) ->
  clearSquares bd sqs = Some bd' -> wf_board bd'.
Proof.
  unfold clearSquares. revert bd.
  induction sqs as [|[r0 c0] sqs IH]; intros bd Hwf Hc; cbn [foldM].
  - by intros [= <-].
  - destruct (set_cell bd r0 c0 None) as [bd1|] eqn:E; [|done].
    apply IH.
    + eapply set_cell_wf; [done| |done]. apply (Hc r0 c0). by left.
    + intros r c Hin. apply (Hc r c). by right.
Qed.

Lemma select_sublist (m : Z) (i : nat) (ps : list PD.t) :
  select m i ps `sublist_of` ps.
Proof.
  revert i. induction ps as [|pD ps IH]; intros i; simpl; [done|].
  destruct (decide _); [by apply sublist_skip|by apply sublist_cons].
Qed.

Lemma findValidCombinations_sublist (ps c : list PD.t) :
  c ∈ findValidCombinations ps -> c `sublist_of` ps.
Proof.
  unfold findValidCombinations. rewrite list_elem_of_omap.
  intros (m & _ & Hc). unfold candidate in Hc.
  destruct (orb _ _); [done|]. destruct (isCombination _); [|done].
  injection Hc as <-. apply select_sublist.
Qed.

Lemma checkCombinations_members (cr cc : nat) (bd : Board) (side : Color)
    (combos : list (list PD.t)) (c : list PD.t) (pd : PD.t) :
  checkCombinationsAroundPositionOnBoard cr cc bd side = Some combos ->
  c ∈ combos -> pd ∈ c ->
  inWindow cr cc (PD.row pd) (PD.col pd)
  /\ cell bd (PD.row pd) (PD.col pd) = Some (Some (PD.piece pd)).
Proof.
  unfold checkCombinationsAroundPositionOnBoard.
  destruct (nearbyPieces cr cc bd) as [ps|] eqn:Eps; [|done].
  destruct (nearbyPieces_spec _ _ _ _ Eps) as [Hmem _].
  destruct (orb _ _).
  - intros [= <-] Hc. by apply elem_of_nil in Hc.
  - intros [= <-] Hc Hpd. apply Hmem.
    eapply elem_of_sublist; [done|]. by apply findValidCombinations_sublist.
Qed.



Lemma promotionPass_total (b b2 : Board) (fr fc tr tc : nat) (p : Piece) :
  wf_board b -> wf_board b2 -> (fr < 8)%nat -> (tr < 8)%nat -> (tc < 8)%nat ->
  cell b2 tr tc = Some (Some p) ->
  exists b3 pp leads,
    promotionPass b b2 fr fc tr tc p = Some (b3, pp, leads) /\ wf_board b3.
Proof.
  intros Hwf Hwf2 Hfr Htr Htc Hto. unfold promotionPass.
  destruct (wf_board_cell b fr fc Hwf Hfr) as [orig ->].
  destruct orig as [original|]; [|eauto 10].
  destruct (_ && _); [|eauto 10].
  destruct (set_cell_is_Some b2 tr tc
              (Some (mkPiece (color p) (number p) true))) as [b2' E].
  { apply lookup_lt_is_Some_2. by rewrite (proj1 Hwf2). }
  rewrite E.
  assert (Hwf2' : wf_board b2') by (by apply (set_cell_wf _ _ _ _ _ Hwf2 Htc E)).
  unfold processPromotion.
  rewrite (cell_set_cell _ _ _ _ tr tc _ E), decide_True by done.
  destruct (matchingPieces_total b2'
              (match color (mkPiece (color p) (number p) true) with
               | white => black | black => white end)
              (number (mkPiece (color p) (number p) true))) as [ms Ems].
  { intros r c Hr. by apply wf_board_cell. }
  rewrite Ems.
  assert (Hms : forall m, m ∈ ms -> (m.1 < 8)%nat /\ (m.2 < 8)%nat).
  { intros [r c] Hm. apply matchingPieces_filter in Ems. subst ms.
    apply list_elem_of_filter in Hm as [_ Hm]. by apply elem_of_squares8. }
  assert (Hclear : forall m, m ∈ ms ->
    exists b3, clearSquares b2' [m] = Some b3 /\ wf_board b3).
  { intros [mr mc] Hm. destruct (Hms _ Hm) as [Hr Hc]. simpl in Hr, Hc.
    destruct (clearSquares_total b2' [(mr, mc)]) as [b3 E3].
    - intros r c [= -> ->]%list_elem_of_singleton. by rewrite (proj1 Hwf2').
    - exists b3. split; [done|]. eapply clearSquares_wf; [done| |done].
      intros r c [= -> ->]%list_elem_of_singleton. done. }
  destruct ms as [|m [|m' rest]]; simpl.
  - eauto 10.
  - destruct (Hclear m ltac:(by left)) as (b3 & -> & ?). eauto 10.
  - destruct (Hclear m ltac:(by left)) as (b3 & -> & ?). eauto 10.
Qed.


(** ** The order of enumeration does not matter *)

Lemma reach_ext (pS pS' : list (Z * Z)) (a b : Z * Z) :
  (forall x, x ∈ pS -> x ∈ pS') -> reach pS a b -> reach pS' a b.
Proof.
  intros Hsub. apply rtc_subrel. intros x y [Hadj Hy]. split; [done|auto].
Qed.

Lemma connected_Permutation (c c' : list PD.t) :
  c ≡ₚ c' -> connected c -> connected c'.
Proof.
  intros Hp Hc p q Hp' Hq'.
  assert (Hpos : posOf <$> c ≡ₚ posOf <$> c') by (by apply fmap_Permutation).
  apply (reach_ext (posOf <$> c)); [intros x; by rewrite Hpos|].
  apply Hc; by rewrite Hpos.
Qed.

Lemma sumNumbers_sumZ (c : list PD.t) :
  sumNumbers c = sumZ ((fun pd => number (PD.piece pd)) <$> c).
Proof.
  unfold sumNumbers.
  assert (H : forall acc, foldl (fun s pD => s + number (PD.piece pD)) acc c
                          = acc + sumZ ((fun pd => number (PD.piece pd)) <$> c)).
  { unfold sumZ. induction c as [|pd c IH]; intros acc; simpl; [lia|].
    rewrite IH. symmetry. apply Z.add_assoc. }
  rewrite H. lia.
Qed.

Lemma sumNumbers_Permutation (c c' : list PD.t) :
  c ≡ₚ c' -> sumNumbers c = sumNumbers c'.
Proof.
  intros Hp. rewrite !sumNumbers_sumZ. apply sumZ_Permutation.
  by apply fmap_Permutation.
Qed.

Lemma isCombination_Permutation (c c' : list PD.t) :
  c ≡ₚ c' -> NoDup (posOf <$> c) -> isCombination c = isCombination c'.
Proof.
  intros Hp Hnd.
  assert (Hnd' : NoDup (posOf <$> c')) by (by rewrite <- Hp).
  assert (Hiff : isCombination c = true <-> isCombination c' = true).
  { rewrite (isCombination_spec c Hnd), (isCombination_spec c' Hnd').
    rewrite (sumNumbers_Permutation c c' Hp). split.
    - intros (? & (w & Hw & ?) & (k & Hk & ?) & Hc). split; [done|].
      split; [exists w; by rewrite <- Hp|].
      split; [exists k; by rewrite <- Hp|]. by eapply connected_Permutation.
    - intros (? & (w & Hw & ?) & (k & Hk & ?) & Hc). split; [done|].
      split; [exists w; by rewrite Hp|].
      split; [exists k; by rewrite Hp|].
      eapply connected_Permutation; [symmetry; exact Hp|done]. }
  destruct (isCombination c), (isCombination c'); naive_solver.
Qed.

Lemma wf_board_ext (a b : Board) :
  wf_board a -> wf_board b ->
  (forall r c, cell a r c = cell b r c) -> a = b.
Proof.
  intros [Hla Hra] [Hlb Hrb] Hcell. apply list_eq_same_length with 8%nat;
    [done..|].
  intros r ra rb Hr Ea Eb.
  pose proof (Forall_lookup_1 _ _ _ _ Hra Ea) as Hlena.
  pose proof (Forall_lookup_1 _ _ _ _ Hrb Eb) as Hlenb.
  apply list_eq_same_length with 8%nat; [done..|].
  intros c x y Hc Ex Ey. specialize (Hcell r c). unfold cell in Hcell.
  rewrite Ea, Eb, Ex, Ey in Hcell. simpl in Hcell. congruence.
Qed.

(** The captures collected from the combinations of a permuted window. *)
Lemma captures_Permutation (bd : Board) (side : Color) (ps ps' : list PD.t) :
  (length ps <= 30)%nat -> NoDup (posOf <$> ps) -> ps' ≡ₚ ps ->
  (collectCaptures bd side (findValidCombinations ps')).2
  ≡ₚ (collectCaptures bd side (findValidCombinations ps)).2.
Proof.
  intros Hn Hnd Hp.
  assert (Hn' : (length ps' <= 30)%nat) by (by rewrite Hp).
  assert (Hnd' : NoDup (posOf <$> ps')) by (by rewrite Hp).
  destruct (collectCaptures_spec bd side (findValidCombinations ps))
    as (Hnd1 & Hmem1 & _).
  destruct (collectCaptures_spec bd side (findValidCombinations ps'))
    as (Hnd2 & Hmem2 & _).
  assert (Hmove : forall (l l' : list PD.t) k,
    (length l <= 30)%nat -> (length l' <= 30)%nat ->
    NoDup (posOf <$> l) -> l ≡ₚ l' ->
    (exists c pd, c ∈ findValidCombinations l /\ pd ∈ c /\ keyOf pd = k
                  /\ capturable bd side k) ->
    exists c pd, c ∈ findValidCombinations l' /\ pd ∈ c /\ keyOf pd = k
                 /\ capturable bd side k).
  { intros l l' k Hl Hl' Hndl Hll' (c & pd & Hc & Hpd & Hk & Hcap).
    apply findValidCombinations_spec in Hc as (Hsub & Hlen & Hcomb); [|done].
    destruct (sublist_Permutation _ _ _ Hsub Hll') as (c' & Hcc' & Hsub').
    exists c', pd. split; [|split; [by rewrite <- Hcc'|done]].
    apply findValidCombinations_spec; [done|]. split; [done|].
    split; [by rewrite <- Hcc'|].
    rewrite <- (isCombination_Permutation c c' Hcc'); [done|].
    by eapply sublist_NoDup_pos. }
  apply NoDup_Permutation; [done..|]. intros k. rewrite Hmem1, Hmem2. split.
  - apply Hmove; done.
  - apply Hmove; done.
Qed.

Lemma NoDup_all_equal {A} (l : list A) (x : A) :
  NoDup l -> x ∈ l -> (forall y, y ∈ l -> y = x) -> l = [x].
Proof.
  intros Hnd Hx Hall. destruct l as [|a l]; [by apply elem_of_nil in Hx|].
  assert (a = x) as -> by (apply Hall; by left).
  destruct l as [|a' l]; [done|]. exfalso.
  assert (a' = x) as -> by (apply Hall; right; by left).
  apply NoDup_cons in Hnd as [Hn _]. apply Hn. by left.
Qed.

(** C9 (amended). On a board where the combination pass of a simulated
    White move scans a window of at most 30 pieces that contains a
    connected cluster of two White pieces numbered 3 and a Black piece
    numbered 4, the cluster is accepted as a combination and the Black
    piece is captured, no White piece is; when it is the only piece
    captured the combination pass gains 4 points, the number of the Black
    piece; and scanning the window's pieces in another order changes
    neither the resulting board nor the points. *)
Theorem cluster_W3_W3_B4_captured (fr fc tr tc : nat) (b b3 tb : Board)
    (res : SimResult) (p : Piece) (pp : Z) (leads : bool)
    (ps cluster : list PD.t) (w1 w2 bk : PD.t) :
  wf_board b ->
  (fr < 8)%nat -> (fc < 8)%nat -> (tr < 8)%nat -> (tc < 8)%nat ->
  cellq b fr fc = Some p ->
  simulateFullMove fr fc tr tc white b = Some res ->
  tempBoard res = Some tb ->
  afterPromotion b fr fc tr tc p = Some (b3, pp, leads) ->
  nearbyPieces tr tc b3 = Some ps ->
  (length ps <= 30)%nat ->
  cluster `sublist_of` ps ->
  cluster ≡ₚ [w1; w2; bk] ->
  color (PD.piece w1) = white -> number (PD.piece w1) = 3 ->
  color (PD.piece w2) = white -> number (PD.piece w2) = 3 ->
  color (PD.piece bk) = black -> number (PD.piece bk) = 4 ->
  connected cluster ->
  cluster ∈ findValidCombinations ps
  /\ checkCombinationsAroundPositionOnBoard tr tc b3 white
     = Some (findValidCombinations ps)
  /\ cell tb (PD.row bk) (PD.col bk) = Some None
  /\ (forall r c q, cell b3 r c = Some (Some q) -> color q = white ->
                    cell tb r c = Some (Some q))
  /\ exists cp,
       aiScoreGain res = of_Z (pp + cp)
       /\ ((forall r c q, (r, c) <> keyOf bk -> cell b3 r c = Some (Some q) ->
                          cell tb r c = Some (Some q)) -> cp = 4)
       /\ (forall ps', ps' ≡ₚ ps ->
             let st := collectCaptures b3 white (findValidCombinations ps') in
             st.1 = cp /\ clearSquares b3 st.2 = Some tb).
Proof.
  intros Hwf Hfr Hfc Htr Htc Hp Hsim Htb Hafter Hps Hn Hsub Hperm
    Hw1c Hw1n Hw2c Hw2n Hbc Hbn Hconn.
  destruct (simulateFullMove_phases _ _ _ _ _ _ _ _ Hsim Htb)
    as (p' & b1 & b2 & b3' & pp' & cp & Hfrom & Hside & Hto & E1 & E2 & E3
        & E4 & Hg).
  apply cellq_cell in Hp. assert (p' = p) as -> by congruence.
  unfold afterPromotion in Hafter. rewrite E1, E2, E3 in Hafter.
  injection Hafter as -> -> Hleads.
  (* the board scanned by the combination pass is well-formed *)
  assert (Hwf1 : wf_board b1) by (by apply (set_cell_wf _ _ _ _ _ Hwf Htc E1)).
  assert (Hwf2 : wf_board b2) by (by apply (set_cell_wf _ _ _ _ _ Hwf1 Hfc E2)).
  assert (Hne : (fr, fc) <> (tr, tc)) by (intros [= -> ->]; congruence).
  assert (Hwf3 : wf_board b3).
  { destruct (promotionPass_total b b2 fr fc tr tc p Hwf Hwf2 Hfr Htr Htc)
      as (b3'' & pp'' & leads'' & E3' & Hwf3).
    - rewrite (relocate_cell _ _ _ _ _ _ _ _ _ _ E1 E2).
      rewrite decide_False, decide_True; done.
    - congruence. }
  destruct (nearbyPieces_spec _ _ _ _ Hps) as [Hmem Hnd].
  (* the members of the cluster *)
  assert (Hin : forall pd, pd ∈ [w1; w2; bk] -> pd ∈ ps).
  { intros pd Hpd. eapply elem_of_sublist; [|exact Hsub]. by rewrite Hperm. }
  assert (Hbk : bk ∈ cluster) by (rewrite Hperm; set_solver).
  assert (Hvalid : validCombination ps cluster).
  { split; [done|]. split; [rewrite Hperm; simpl; lia|].
    split; [rewrite (sumNumbers_Permutation _ _ Hperm); unfold sumNumbers;
            simpl; lia|].
    split; [exists w1; split; [rewrite Hperm; set_solver|done]|].
    split; [exists bk; split; [done|done]|done]. }
  destruct (combinations_of_small_window tr tc b3 white ps Hps Hn)
    as (combos & Hcombos & _ & Hiff).
  assert (Hacc : cluster ∈ findValidCombinations ps).
  { apply findValidCombinations_spec; [done|].
    destruct Hvalid as (? & ? & Hrest). split; [done|]. split; [done|].
    apply isCombination_spec; [by eapply sublist_NoDup_pos|done]. }
  assert (Hcheck : checkCombinationsAroundPositionOnBoard tr tc b3 white
                   = Some (findValidCombinations ps)).
  { unfold checkCombinationsAroundPositionOnBoard. rewrite Hps.
    assert (Hw : hasColor white ps = true)
      by (apply hasColor_spec; exists w1; split; [apply Hin; set_solver|done]).
    assert (Hk : hasColor black ps = true)
      by (apply hasColor_spec; exists bk; split; [apply Hin; set_solver|done]).
    by rewrite Hw, Hk. }
  unfold combinationPass in E4. rewrite Hcheck in E4.
  set (st := collectCaptures b3 white (findValidCombinations ps)) in *.
  destruct (clearSquares b3 st.2) as [tb'|] eqn:Ec; [|done].
  injection E4 as -> <-.
  destruct (collectCaptures_spec b3 white (findValidCombinations ps))
    as (Hnd1 & Hmem1 & Hsum1). fold st in Hnd1, Hmem1, Hsum1.
  pose proof (fun r c => clearSquares_cell _ _ _ r c Ec) as Htbcell.
  assert (Hbkcell : cell b3 (PD.row bk) (PD.col bk) = Some (Some (PD.piece bk)))
    by (apply Hmem, Hin; set_solver).
  assert (Hbkin : keyOf bk ∈ st.2).
  { apply Hmem1. exists cluster, bk. split_and!; try done.
    exists (PD.piece bk). split; [by apply cellq_cell|]. by rewrite Hbc. }
  split; [done|]. split; [done|]. split.
  { rewrite Htbcell, decide_True; done. }
  split.
  { intros r c q Hq Hqc. rewrite Htbcell.
    destruct (decide _) as [Hrc|]; [|done].
    apply Hmem1 in Hrc as (_ & _ & _ & _ & _ & q' & Hq' & Hneq).
    apply cellq_cell in Hq'. simpl in Hq'. congruence. }
  exists st.1. split; [done|]. split.
  - intros Honly.
    assert (Hst : st.2 = [keyOf bk]).
    { apply NoDup_all_equal; [done..|]. intros [r c] Hk.
      destruct (decide ((r, c) = keyOf bk)) as [|Hne']; [done|]. exfalso.
      pose proof Hk as Hk'.
      apply Hmem1 in Hk as (_ & _ & _ & _ & _ & q & Hq & _).
      apply cellq_cell in Hq. simpl in Hq.
      pose proof (Honly r c q Hne' Hq) as Hkeep.
      rewrite Htbcell, decide_True in Hkeep; done. }
    rewrite Hsum1, Hst. simpl. unfold numberAt, keyOf. simpl.
    rewrite (proj2 (cellq_cell _ _ _ _) Hbkcell). lia.
  - intros ps' Hps'. simpl.
    pose proof (captures_Permutation b3 white ps ps' Hn Hnd Hps') as Hcap.
    fold st in Hcap.
    set (st' := collectCaptures b3 white (findValidCombinations ps')) in *.
    destruct (collectCaptures_spec b3 white (findValidCombinations ps'))
      as (Hnd2 & Hmem2 & Hsum2). fold st' in Hnd2, Hmem2, Hsum2.
    split.
    + rewrite Hsum1, Hsum2. apply sumZ_Permutation. by apply fmap_Permutation.
    + assert (Hrng : forall r c, (r, c) ∈ st.2 -> (r < 8)%nat /\ (c < 8)%nat).
      { intros r c (cmb & pd & Hc & Hpd & [= <- <-] & _)%Hmem1.
        destruct (checkCombinations_members _ _ _ _ _ _ _ Hcheck Hc Hpd)
          as [(_ & ? & _ & ?) _]. lia. }
      assert (Hrng' : forall r c, (r, c) ∈ st'.2 -> (r < 8)%nat /\ (c < 8)%nat).
      { intros r c Hrc. apply Hrng. by rewrite <- Hcap. }
      destruct (clearSquares_total b3 st'.2) as [tb2 Ec2].
      { intros r c Hrc. rewrite (proj1 Hwf3). by apply (Hrng' r c). }
      rewrite Ec2. f_equal. apply wf_board_ext.
      * eapply clearSquares_wf; [exact Hwf3| |exact Ec2].
        intros r c Hrc. by apply (Hrng' r c).
      * eapply clearSquares_wf; [exact Hwf3| |exact Ec].
        intros r c Hrc. by apply (Hrng r c).
      * intros r c. rewrite Htbcell, (clearSquares_cell _ _ _ r c Ec2).
        destruct (decide ((r, c) ∈ st'.2)) as [H1|H1];
          destruct (decide ((r, c) ∈ st.2)) as [H2|H2]; try done;
          exfalso; [apply H2; by rewrite <- Hcap|apply H1; by rewrite Hcap].
Qed.

(** ** The combination pass on concrete positions *)

(** C9, as stated, fails: capturing the Black 4 of the cluster gains 4
    points, the number of the captured piece, not 2. *)
Lemma cluster_W3_W3_B4_gains_4_not_2 :
  simulateFullMove 5 4 4 4 white clusterBoard
  = Some (mkSim (Some clusterBoardAfter) (of_Z 4) false)
  /\ ~ (exists tb leads, simulateFullMove 5 4 4 4 white clusterBoard
                         = Some (mkSim (Some tb) (of_Z 2) leads)).
Proof.
  assert (H : simulateFullMove 5 4 4 4 white clusterBoard
              = Some (mkSim (Some clusterBoardAfter) (of_Z 4) false))
    by (vm_compute; reflexivity).
  split; [exact H|]. intros (tb & leads & H'). rewrite H in H'. discriminate H'.
Qed.

(** C3, at a window of 31 pieces: [1 << 31] is negative in 32-bit
    arithmetic, the mask loop does not run, and no combination is
    accepted although the window holds a valid one. The simulated move
    captures nothing. *)
Theorem crowded_window_finds_no_combination :
  nearbyPieces 3 3 crowdedBoardAfter = Some crowdedPieces
  /\ length crowdedPieces = 31%nat
  /\ js_shl 1 (length crowdedPieces) = - 2 ^ 31
  /\ hasColor white crowdedPieces = true
  /\ hasColor black crowdedPieces = true
  /\ validCombination crowdedPieces crowdedCluster
  /\ checkCombinationsAroundPositionOnBoard 3 3 crowdedBoardAfter white
     = Some []
  /\ simulateFullMove 4 3 3 3 white crowdedBoard
     = Some (mkSim (Some crowdedBoardAfter) (of_Z 0) false).
Proof.
  split; [vm_compute; reflexivity|].
  split; [reflexivity|]. split; [reflexivity|].
  split; [reflexivity|]. split; [reflexivity|].
  split.
  - split.
    + assert (Hpick : crowdedCluster
                      = pick (2 ^ 15 + 2 ^ 18 + 2 ^ 19) crowdedPieces)
        by (vm_compute; reflexivity).
      rewrite Hpick. apply pick_sublist.
    + split; [simpl; lia|]. split; [reflexivity|].
      split; [exists (PD.mk 3 2 (mkPiece white 3 false));
              split; [set_solver|done]|].
      split; [exists (PD.mk 2 3 (mkPiece black 4 false));
              split; [set_solver|done]|].
      apply areConnectedOptimized_spec; [|vm_compute; reflexivity].
      apply (bool_decide_unpack _). vm_compute. exact I.
  - split; vm_compute; reflexivity.
Qed.



(** ** Rounding to binary64 *)













Lemma round64_proper (q1 q2 : Q) : (q1 == q2)%Q -> round64 q1 = round64 q2.
Proof. intros H. unfold round64. by rewrite (Qred_complete _ _ H). Qed.

Lemma round64_opp (q : Q) : round64 (- q) = num_neg (round64 q).
Proof.
  unfold round64. rewrite Qred_opp. set (q' := Qred q).
  assert (Ha : Qabs (- q') = Qabs q').
  { destruct q' as [n d]. unfold Qabs, Qopp. simpl. by rewrite Z.abs_opp. }
  rewrite Ha. destruct (Qeq_bool (Qabs q') 0) eqn:Ez.
  { simpl. reflexivity. }
  assert (Hne : ~ (q' == 0)%Q).
  { intros H. rewrite H in Ez. discriminate. }
  set (r := (inject_Z _ * _)%Q).
  assert (Hs : Qle_bool 0 (- q') = negb (Qle_bool 0 q')).
  { destruct (Qle_bool 0 q') eqn:E1, (Qle_bool 0 (- q')) eqn:E2; try reflexivity.
    - apply Qle_bool_iff in E1, E2. exfalso. apply Hne. lra.
    - exfalso.
      assert (~ (0 <= q')%Q) by (intros H; apply Qle_bool_iff in H; congruence).
      assert (~ (0 <= - q')%Q) by (intros H'; apply Qle_bool_iff in H'; congruence).
      lra. }
  rewrite Hs. destruct (Qle_bool (2 ^ 1024) r); destruct (Qle_bool 0 q'); simpl;
    try reflexivity.
  - by rewrite Qred_opp.
  - rewrite Qred_opp. f_equal. 
    destruct (Qred r) as [n d]. unfold Qopp. simpl. by rewrite Z.opp_involutive.
Qed.

(** On the sample doubles, sums and products are those of the kernel's
    binary64 arithmetic. *)
Lemma round64_conforms : Binary64.conforms = true.
Proof. vm_compute. reflexivity. Qed.








(** Equality of numbers as rationals, and negation. *)
Lemma num_eq_refl (a : num) : num_eq a a.
Proof. destruct a; simpl; done. Qed.

Lemma num_eq_sym (a b : num) : num_eq a b -> num_eq b a.
Proof. destruct a, b; simpl; try done; intros H; by symmetry. Qed.

Lemma num_eq_trans (a b c : num) : num_eq a b -> num_eq b c -> num_eq a c.
Proof.
  destruct a, b, c; simpl; try done. intros H1 H2. by rewrite H1.
Qed.

Lemma num_add_proper (a a' b b' : num) :
  num_eq a a' -> num_eq b b' -> num_eq (num_add a b) (num_add a' b').
Proof.
  destruct a, a', b, b'; simpl; try done. intros H1 H2.
  rewrite (round64_proper (q + q1) (q0 + q2)); [apply num_eq_refl|].
  by rewrite H1, H2.
Qed.

Lemma num_neg_proper (a a' : num) :
  num_eq a a' -> num_eq (num_neg a) (num_neg a').
Proof. destruct a, a'; simpl; try done. intros H. by rewrite H. Qed.

Lemma num_neg_involutive (a : num) : num_eq (num_neg (num_neg a)) a.
Proof. destruct a; simpl; try done. ring. Qed.

(** Rounding is symmetric: the sum of the negations is the negation of
    the sum. *)
Lemma num_add_neg (a b : num) :
  num_eq (num_add (num_neg a) (num_neg b)) (num_neg (num_add a b)).
Proof.
  destruct a as [| |x|], b as [| |y|]; simpl; try done.
  rewrite <- round64_opp.
  rewrite (round64_proper (- x + - y) (- (x + y))); [apply num_eq_refl|].
  ring.
Qed.

Lemma num_add_comm (a b : num) : num_eq (num_add a b) (num_add b a).
Proof.
  destruct a as [| |x|], b as [| |y|]; simpl; try done.
  rewrite (round64_proper (x + y) (y + x)); [apply num_eq_refl|]. ring.
Qed.

(** ** The search *)

Section SearchProps.

Variable table : list (list Z).
Variable blackToMove : Z.

Local Abbreviation alphaBetaSearch' := (alphaBetaSearch table blackToMove).
Local Abbreviation maxLoop' := (maxLoop table blackToMove).
Local Abbreviation minLoop' := (minLoop table blackToMove).
Local Abbreviation hashAfter' := (hashAfter table blackToMove).
Local Abbreviation rootMoveValue' := (rootMoveValue table blackToMove).

Lemma num_min_le (beta best e : num) :
  num_le beta best = true \/ best = NaN ->
  num_le (num_min beta e) (num_min best e) = true \/ num_min best e = NaN.
Proof.
  intros [Hle| ->]; [|right; by destruct e].
  destruct beta as [| |b|], best as [| |x|], e as [| |y|];
    simpl in *; try done; try (by left); try (by right);
    left;
    repeat match goal with
      | H : context [Qlt_le_dec ?a ?b] |- _ =>
          destruct (Qlt_le_dec a b); simpl in H
      | |- context [Qlt_le_dec ?a ?b] => destruct (Qlt_le_dec a b); simpl
      end; try done; exfalso; lra.
Qed.

(** In the minimizing branch [beta] follows [bestValue] down, so at the
    end [bestValue >= beta] holds (unless the value is NaN). *)
Lemma minLoop_beta (search : Game.t -> num -> num -> Z -> Search num)
    (game : Game.t) (h : Z) (alpha : num) (moves : list Move.t)
    (beta best bv b' : num) (tbl tbl' : TT) :
  num_le beta best = true \/ best = NaN ->
  minLoop' search game h alpha moves beta best tbl = Some ((bv, b'), tbl') ->
  num_le b' bv = true \/ bv = NaN.
Proof.
  revert beta best tbl. induction moves as [|move rest IH];
    intros beta best tbl Hinv; simpl.
  - unfold ret. intros [= <- <- <-]. done.
  - unfold bind, lift.
    destruct (hashAfter' h move) as [nh|]; [|done].
    destruct (simulate game move _) as [sim|]; [|done].
    destruct (search _ _ _ _ tbl) as [[v tbl1]|]; [|done].
    set (e := num_add (num_neg (aiScoreGain sim)) v).
    pose proof (num_min_le beta best e Hinv) as Hinv'.
    destruct (num_le (num_min beta e) alpha).
    + unfold ret. intros [= <- <- <-]. done.
    + by apply IH.
Qed.

(** A minimizing node that runs its loop never stores [EXACT] for a
    proper value: the second test of the flag reads the [beta] the loop
    has lowered to the value, not the [beta] of the call. *)
Lemma minimizing_node_never_EXACT
    (search : Game.t -> num -> num -> Z -> Search num)
    (game : Game.t) (h : Z) (originalAlpha alpha beta : num)
    (moves : list Move.t) (bv b' : num) (tbl tbl' : TT) :
  beta <> NaN ->
  minLoop' search game h alpha moves beta PosInf tbl = Some ((bv, b'), tbl') ->
  storedFlag bv originalAlpha b' = EXACT -> bv = NaN.
Proof.
  intros Hbeta Hloop. apply minLoop_beta in Hloop.
  - unfold storedFlag, num_ge. destruct (num_le bv originalAlpha); [done|].
    destruct Hloop as [-> | ->]; done.
  - left. by destruct beta.
Qed.

End SearchProps.

(** C7, at a minimizing node called with the window (-Infinity,
    +Infinity), as the root loop calls it: the value lies strictly inside
    the original window, and the entry stored is flagged [LOWERBOUND],
    not [EXACT]. *)
Theorem minimizing_node_stores_LOWERBOUND :
  Zobrist.calculateZobristKey exampleTable exampleBlackToMove quietBoard black
  = Some 1049180
  /\ exists v tbl,
       alphaBetaSearch exampleTable exampleBlackToMove 1 white quietGame
         NegInf PosInf false 1049180 ∅ = Some (v, tbl)
       /\ num_lt NegInf v = true /\ num_lt v PosInf = true
       /\ tbl !! 1049180 = Some (Entry.mk v 1 LOWERBOUND).
Proof.
  split; [vm_compute; reflexivity|].
  assert (Hr : exists q,
    match alphaBetaSearch exampleTable exampleBlackToMove 1 white quietGame
            NegInf PosInf false 1049180 ∅ with
    | Some (v, tbl) => Some (v, tbl !! 1049180)
    | None => None
    end = Some (Fin q, Some (Entry.mk (Fin q) 1 LOWERBOUND)))
    by (eexists; vm_compute; reflexivity).
  destruct Hr as [q Hr].
  destruct (alphaBetaSearch exampleTable exampleBlackToMove 1 white quietGame
              NegInf PosInf false 1049180 ∅) as [[v tbl]|]; [|done].
  injection Hr as -> Htbl. exists (Fin q), tbl. done.
Qed.

(** C6 fails at the recursive nodes, which do not read the flag the
    root loop tests: at a maximizing node whose only move reports
    [leadsToChoice = true] with a gain of 5, the child position is
    searched (its entry is in the table afterwards) and the value of the
    node is not 5. *)
Lemma recursive_node_searches_choice_move :
  getAllPossibleMovesForPlayer choiceBoard white = Some [choiceMove]
  /\ Zobrist.calculateZobristKey exampleTable exampleBlackToMove choiceBoard
       white = Some 342
  /\ hashAfter exampleTable exampleBlackToMove 342 choiceMove = Some 1048925
  /\ (exists sim,
        simulate choiceGame choiceMove white = Some sim
        /\ leadsToChoiceForThisPlayer sim = true
        /\ aiScoreGain sim = of_Z 5)
  /\ exists q tbl,
       alphaBetaSearch exampleTable exampleBlackToMove 2 white choiceGame
         NegInf PosInf true 342 ∅ = Some (Fin q, tbl)
       /\ ~ (q == 5)%Q
       /\ is_Some (tbl !! 1048925).
Proof.
  split; [vm_compute; reflexivity|]. split; [vm_compute; reflexivity|].
  split; [vm_compute; reflexivity|]. split.
  { eexists. split; [vm_compute; reflexivity|]. split; reflexivity. }
  assert (Hr : exists q e,
    match alphaBetaSearch exampleTable exampleBlackToMove 2 white choiceGame
            NegInf PosInf true 342 ∅ with
    | Some (v, tbl) => Some (v, tbl !! 1048925)
    | None => None
    end = Some (Fin q, Some e) /\ Qeq_bool q 5 = false)
    by (eexists; eexists; split; vm_compute; reflexivity).
  destruct Hr as (q & e & Hr & Hq).
  destruct (alphaBetaSearch exampleTable exampleBlackToMove 2 white choiceGame
              NegInf PosInf true 342 ∅) as [[v tbl]|]; [|done].
  injection Hr as -> Htbl. exists q, tbl. split; [done|]. split; [|eauto].
  intros Heq. apply Qeq_bool_iff in Heq. congruence.
Qed.


(** ** What a move takes: the promotion pass and the material *)

Lemma opponent_ne (side : Color) : opponent side <> side.
Proof. by destruct side. Qed.

Lemma color_ne_opponent (q : Piece) (side : Color) :
  color q <> side <-> color q = opponent side.
Proof. destruct (color q), side; simpl; naive_solver. Qed.

Lemma matchAt_true (b : Board) (k : Color) (n : Z) (sq : nat * nat) :
  matchAt b k n sq = true ->
  exists q, cell b sq.1 sq.2 = Some (Some q) /\ color q = k /\ number q = n.
Proof.
  unfold matchAt, isMatch. destruct (cell b sq.1 sq.2) as [[q|]|]; [|done..].
  rewrite !andb_true_iff, bool_decide_eq_true, Z.eqb_eq.
  intros [[? ?] _]. eauto.
Qed.

(** The promotion pass leaves the mover on the destination, promoted if
    the pass ran, and removes at most one piece: an opposing piece with
    the number of the mover, for that many points. *)
Lemma promotionPass_effect (b b2 b3 : Board) (fr fc tr tc : nat) (p : Piece)
    (pp : Z) (leads : bool) :
  cell b fr fc = Some (Some p) ->
  cell b tr tc = Some None ->
  (forall r c, cell b2 r c =
     if decide ((fr, fc) = (r, c)) then Some None
     else if decide ((tr, tc) = (r, c)) then Some (Some p)
     else cell b r c) ->
  promotionPass b b2 fr fc tr tc p = Some (b3, pp, leads) ->
  cell b3 fr fc = Some None
  /\ cell b3 tr tc
     = Some (Some (if triggersPromotion p tr then promote p else p))
  /\ ((pp = 0 /\ forall r c, (r, c) <> (fr, fc) -> (r, c) <> (tr, tc) ->
                             cell b3 r c = cell b r c)
      \/ exists m,
           m ∈ squares8 /\ m <> (fr, fc) /\ m <> (tr, tc)
           /\ matchAt b (opponent (color p)) (number p) m = true
           /\ pp = number p /\ cell b3 m.1 m.2 = Some None
           /\ forall r c, (r, c) <> (fr, fc) -> (r, c) <> (tr, tc) ->
                          (r, c) <> m -> cell b3 r c = cell b r c).
Proof.
  intros Hfrom Hto Hb2 Hpass.
  pose proof (promotionPass_spec b b2 b3 fr fc tr tc p pp leads
                Hfrom Hto Hb2 Hpass) as [H3from Hrest].
  split; [done|].
  destruct (triggersPromotion p tr).
  2:{ destruct Hrest as (-> & _ & Hdest & Hother). split; [done|]. by left. }
  destruct Hrest as [Hdest Hms]. split; [done|].
  assert (Hin : forall m rest,
    filter (fun sq => matchAt b (opponent (color p)) (number p) sq = true)
      squares8 = m :: rest ->
    m ∈ squares8 /\ m <> (fr, fc) /\ m <> (tr, tc)
    /\ matchAt b (opponent (color p)) (number p) m = true).
  { intros m rest Hf.
    assert (Hm : m ∈ filter (fun sq => matchAt b (opponent (color p))
                                         (number p) sq = true) squares8)
      by (rewrite Hf; by left).
    apply list_elem_of_filter in Hm as [Hm Hsq]. split; [done|].
    split_and!; [| |done]; intros ->; unfold matchAt in Hm; simpl in Hm.
    - rewrite Hfrom in Hm. by rewrite isMatch_opponent in Hm.
    - by rewrite Hto in Hm. }
  destruct (filter _ squares8) as [|m [|m' rest]] eqn:Ems.
  - destruct Hms as (-> & _ & Hother). by left.
  - destruct Hms as (-> & _ & Hm & Hother).
    destruct (Hin m [] eq_refl) as (? & ? & ? & ?). right. exists m. done.
  - destruct Hms as (-> & _ & Hm & Hother).
    destruct (Hin m (m' :: rest) eq_refl) as (? & ? & ? & ?).
    right. exists m. done.
Qed.

Lemma sumZ_ext {A} (f g : A -> Z) (l : list A) :
  (forall x, x ∈ l -> g x = f x) -> sumZ (g <$> l) = sumZ (f <$> l).
Proof.
  unfold sumZ. induction l as [|x l IH]; intros H; [done|].
  rewrite !fmap_cons. cbn [foldr].
  rewrite (H x) by (by left). rewrite IH; [done|].
  intros y Hy. apply H. by right.
Qed.

(** Changing one term of a sum. *)
Lemma sumZ_update {A} (f g : A -> Z) (l : list A) (s : A) :
  NoDup l -> s ∈ l -> (forall x, x ∈ l -> x <> s -> g x = f x) ->
  sumZ (g <$> l) = sumZ (f <$> l) - f s + g s.
Proof.
  induction l as [|x l IH]; intros Hnd Hs H; [by apply elem_of_nil in Hs|].
  apply NoDup_cons in Hnd as [Hx Hnd]. rewrite !fmap_cons.
  change (g x + sumZ (g <$> l) = f x + sumZ (f <$> l) - f s + g s).
  apply elem_of_cons in Hs as [->|Hs].
  - rewrite (sumZ_ext f g l); [lia|].
    intros y Hy. apply H; [by right|]. intros ->. done.
  - assert (Hne : x <> s) by (intros ->; done).
    rewrite (H x) by (done || by left).
    rewrite IH; [lia|done..|]. intros y Hy. apply H. by right.
Qed.

(** Zeroing the terms of a set of indices. *)
Lemma sumZ_remove `{EqDecision A} (S : list A) :
  forall (f g : A -> Z) (l : list A),
  NoDup l -> NoDup S -> (forall x, x ∈ S -> x ∈ l) ->
  (forall x, x ∈ l -> g x = if decide (x ∈ S) then 0 else f x) ->
  sumZ (g <$> l) = sumZ (f <$> l) - sumZ (f <$> S).
Proof.
  induction S as [|s S IH]; intros f g l Hl HS Hsub Hg.
  - simpl. rewrite (sumZ_ext f g l); [lia|].
    intros x Hx. rewrite (Hg x Hx). by rewrite decide_False by apply not_elem_of_nil.
  - apply NoDup_cons in HS as [Hs HS].
    set (f' := fun x => if decide (x = s) then 0 else f x).
    rewrite (IH f' g l Hl HS).
    + rewrite (sumZ_update f f' l s Hl).
      * rewrite (sumZ_ext f f' S).
        -- unfold f' at 1. rewrite decide_True by done. rewrite fmap_cons.
           change (sumZ (f s :: (f <$> S))) with (f s + sumZ (f <$> S)).
           lia.
        -- intros x Hx. unfold f'. rewrite decide_False; [done|].
           intros ->. done.
      * apply Hsub. by left.
      * intros x _ Hne. unfold f'. by rewrite decide_False.
    + intros x Hx. apply Hsub. by right.
    + intros x Hx. rewrite (Hg x Hx). unfold f'.
      destruct (decide (x = s)) as [->|Hne].
      * rewrite decide_True by (by left). by destruct (decide _).
      * destruct (decide (x ∈ S)) as [Hin|Hin].
        -- rewrite decide_True by (by right). done.
        -- rewrite decide_False; [done|].
           intros [->|?]%elem_of_cons; done.
Qed.

Lemma numberOf_cell (b b' : Board) (side : Color) (sq : nat * nat) :
  cell b' sq.1 sq.2 = cell b sq.1 sq.2 ->
  numberOf b' side sq = numberOf b side sq.
Proof.
  intros H. unfold numberOf.
  destruct (cellq b sq.1 sq.2) as [q|] eqn:E.
  - apply cellq_cell in E. rewrite <- H in E. apply cellq_cell in E.
    by rewrite E.
  - apply cellq_None in E. rewrite <- H in E. apply cellq_None in E.
    by rewrite E.
Qed.

Lemma numberOf_piece (b : Board) (side : Color) (sq : nat * nat) (q : Piece) :
  cell b sq.1 sq.2 = Some (Some q) ->
  numberOf b side sq = if decide (color q = side) then number q else 0.
Proof. intros H%cellq_cell. unfold numberOf. by rewrite H. Qed.

Lemma numberOf_empty (b : Board) (side : Color) (sq : nat * nat) :
  cell b sq.1 sq.2 = Some None -> numberOf b side sq = 0.
Proof.
  intros H. unfold numberOf.
  by rewrite (proj2 (cellq_None b sq.1 sq.2) (or_intror H)).
Qed.

(** The combination pass takes its points out of the material of the
    other side and leaves the material of the mover. *)
Lemma combinationPass_material (bd bd' : Board) (tr tc : nat) (side : Color)
    (cp : Z) :
  combinationPass bd tr tc side = Some (bd', cp) ->
  material bd' (opponent side) = material bd (opponent side) - cp
  /\ material bd' side = material bd side.
Proof.
  intros Hpass. pose proof Hpass as Hpass'. revert Hpass'.
  unfold combinationPass.
  destruct (checkCombinationsAroundPositionOnBoard tr tc bd side)
    as [combos|] eqn:Ec; [|done].
  set (st := collectCaptures bd side combos).
  destruct (clearSquares bd st.2) as [bd1|] eqn:E; [|done].
  intros [= -> <-].
  destruct (collectCaptures_spec bd side combos) as (Hnd & Hmem & Hsum).
  fold st in Hnd, Hmem, Hsum.
  pose proof (fun r c => clearSquares_cell _ _ _ r c E) as Hcell.
  assert (Hcap : forall k, k ∈ st.2 ->
    k ∈ squares8 /\ exists q, cell bd k.1 k.2 = Some (Some q)
                              /\ color q = opponent side).
  { intros [r c] Hk. pose proof Hk as Hk'.
    apply Hmem in Hk as (cmb & pd & Hc & Hpd & [= <- <-] & (q & Hq & Hne)).
    destruct (checkCombinations_members _ _ _ _ _ _ _ Ec Hc Hpd)
      as [(_ & ? & _ & ?) _].
    split; [apply elem_of_squares8; lia|]. exists q.
    split; [by apply cellq_cell|by apply color_ne_opponent]. }
  split.
  - unfold material.
    rewrite (sumZ_remove st.2 (numberOf bd (opponent side))
               (numberOf bd' (opponent side)) squares8 NoDup_squares8 Hnd).
    + rewrite Hsum. f_equal. apply sumZ_ext. intros k Hk.
      destruct (Hcap k Hk) as (_ & q & Hq & Hc).
      rewrite (numberOf_piece _ _ _ _ Hq), decide_True by done.
      unfold numberAt. by rewrite (proj2 (cellq_cell _ _ _ _) Hq).
    + intros k Hk. by apply Hcap.
    + intros [r c] _. destruct (decide ((r, c) ∈ st.2)) as [Hin|Hin].
      * apply numberOf_empty. simpl. rewrite Hcell. by rewrite decide_True.
      * apply numberOf_cell. simpl. rewrite Hcell. by rewrite decide_False.
  - unfold material. apply sumZ_ext. intros [r c] _.
    destruct (decide ((r, c) ∈ st.2)) as [Hin|Hin].
    + destruct (Hcap _ Hin) as (_ & q & Hq & Hc).
      rewrite (numberOf_piece _ _ _ _ Hq).
      rewrite decide_False by (rewrite Hc; apply opponent_ne).
      apply numberOf_empty. simpl. rewrite Hcell. by rewrite decide_True.
    + apply numberOf_cell. simpl. rewrite Hcell. by rewrite decide_False.
Qed.

(** ** The search returns: no exception on well-formed games *)
















Section SearchTotal.

Variable table : list (list Z).
Variable blackToMove : Z.
Hypothesis Htable : Zobrist.wf_table table.

Local Abbreviation alphaBetaSearch' := (alphaBetaSearch table blackToMove).
Local Abbreviation maxLoop' := (maxLoop table blackToMove).
Local Abbreviation minLoop' := (minLoop table blackToMove).
Local Abbreviation hashAfter' := (hashAfter table blackToMove).
Local Abbreviation expand' := (expand table blackToMove).


Lemma calculateZobristKey_total (b : Board) (side : Color) :
  wf_board b -> wf_pieces b ->
  is_Some (Zobrist.calculateZobristKey table blackToMove b side).
Proof.
  intros Hwf Hwp. rewrite calculateZobristKey_xor.
  assert (H : forall sqs : list (nat * nat),
    (forall sq, sq ∈ sqs -> (sq.1 < 8)%nat /\ (sq.2 < 8)%nat) ->
    is_Some (mapM (Zobrist.squareKey table b) sqs)).
  { induction sqs as [|[r c] sqs IH]; intros Hs; simpl; [eauto|].
    destruct (Hs (r, c) ltac:(by left)) as [Hr Hc]. simpl in Hr, Hc.
    assert (Hk : is_Some (Zobrist.squareKey table b (r, c))).
    { unfold Zobrist.squareKey. simpl.
      destruct (wf_board_cell b r c Hwf Hr) as [[p|] E]; rewrite E; [|eauto].
      apply key_is_Some; [done|by eapply Hwp|lia]. }
    destruct Hk as [k ->]. simpl.
    destruct IH as [ks ->]; [intros; apply Hs; by right|]. simpl. eauto. }
  destruct (H squares8) as [ks ->]; [|eauto].
  by intros [r c] [? ?]%elem_of_squares8.
Qed.


End SearchTotal.

Section AlphaBetaTotal.

Variable table : list (list Z).
Variable blackToMove : Z.
Hypothesis Htable : Zobrist.wf_table table.

Local Abbreviation alphaBetaSearch' := (alphaBetaSearch table blackToMove).
Local Abbreviation maxLoop' := (maxLoop table blackToMove).
Local Abbreviation minLoop' := (minLoop table blackToMove).
Local Abbreviation hashAfter' := (hashAfter table blackToMove).
Local Abbreviation expand' := (expand table blackToMove).










End AlphaBetaTotal.

Section RootTotal.

Variable table : list (list Z).
Variable blackToMove : Z.
Variable now : nat -> Z.
Variable random : Q.
Hypothesis Htable : Zobrist.wf_table table.
Hypothesis Hrandom : (0 <= random < 1)%Q.

Local Abbreviation rootMoveValue' := (rootMoveValue table blackToMove).
Local Abbreviation rootLoop' := (rootLoop table blackToMove now).
Local Abbreviation depthLoop' := (depthLoop table blackToMove now).
Local Abbreviation findBestMoveWithAlphaBeta' :=
  (findBestMoveWithAlphaBeta table blackToMove now random).




Lemma findIndex_lookup {A} (f : A -> bool) (l : list A) (i : nat) :
  findIndex f l = Some i -> is_Some (l !! i).
Proof.
  revert i. induction l as [|x l IH]; intros i; simpl; [done|].
  destruct (f x); [intros [= <-]; eauto|].
  destruct (findIndex f l) as [j|]; [|done]. intros [= <-]. by apply IH.
Qed.






End RootTotal.

(** ** The move simulator does not touch the board it is given *)

Lemma prefix_insert_fresh {A} (l0 l : list A) (i : nat) (x : A) :
  l0 `prefix_of` l -> (length l0 <= i)%nat -> l0 `prefix_of` <[i := x]> l.
Proof.
  intros [k ->] Hi. exists (<[i - length l0 := x]> k)%nat.
  by rewrite insert_app_r_alt.
Qed.

Lemma extends_refl (h : Heap.t) : extends h h.
Proof. by split_and!. Qed.

Lemma extends_trans (h0 h1 h2 : Heap.t) :
  extends h0 h1 -> extends h1 h2 -> extends h0 h2.
Proof.
  intros (? & ? & ?) (? & ? & ?). split_and!; by etrans.
Qed.

Lemma triple_ret {A} (P : Heap.t -> Prop) (a : A) (Q : A -> Heap.t -> Prop)
    (E : Heap.t -> Prop) :
  (forall h, P h -> Q a h) -> triple P (retH a) Q E.
Proof. intros H h Hh. by apply H. Qed.

Lemma triple_bind {A B} (P : Heap.t -> Prop) (m : HeapM A) (k : A -> HeapM B)
    (Q : A -> Heap.t -> Prop) (R : B -> Heap.t -> Prop) (E : Heap.t -> Prop) :
  triple P m Q E -> (forall a, triple (Q a) (k a) R E) ->
  triple P (bindH m k) R E.
Proof.
  intros Hm Hk h Hh. unfold bindH. specialize (Hm h Hh).
  destruct (m h) as [[a|] h']; [by apply Hk|done].
Qed.

Lemma triple_read {A} (P : Heap.t -> Prop) (f : Heap.t -> option A)
    (E : Heap.t -> Prop) :
  (forall h, P h -> E h) -> triple P (readH f) (fun _ => P) E.
Proof. intros HE h Hh. unfold readH. destruct (f h); auto. Qed.

Lemma triple_throw {A} (P : Heap.t -> Prop) (Q : A -> Heap.t -> Prop)
    (E : Heap.t -> Prop) :
  (forall h, P h -> E h) -> triple P throwH Q E.
Proof. intros HE h Hh. by apply HE. Qed.

Lemma triple_weaken {A} (P P' : Heap.t -> Prop) (m : HeapM A)
    (Q Q' : A -> Heap.t -> Prop) (E : Heap.t -> Prop) :
  triple P' m Q' E -> (forall h, P h -> P' h) ->
  (forall a h, Q' a h -> Q a h) -> triple P m Q E.
Proof.
  intros Hm HP HQ h Hh. specialize (Hm h (HP h Hh)).
  destruct (m h) as [[a|] h']; auto.
Qed.

(** A loop keeps an invariant its body keeps. *)
Lemma triple_forH {A} (I : Heap.t -> Prop) (f : A -> HeapM unit)
    (l : list A) (E : Heap.t -> Prop) :
  (forall x, triple I (f x) (fun _ => I) E) ->
  triple I (forH f l) (fun _ => I) E.
Proof.
  intros Hf. induction l as [|x l IH]; simpl.
  - by apply triple_ret.
  - eapply triple_bind; [apply Hf|]. intros []. apply IH.
Qed.

Lemma triple_mapH {A B} (I : Heap.t -> Prop) (R : B -> Prop)
    (f : A -> HeapM B) (l : list A) (E : Heap.t -> Prop) :
  (forall x, triple I (f x) (fun y h => I h /\ R y) E) ->
  triple I (mapH f l) (fun ys h => I h /\ Forall R ys) E.
Proof.
  intros Hf. induction l as [|x l IH]; simpl.
  - apply triple_ret. intros h Hh. by split.
  - eapply triple_bind; [apply Hf|]. intros y.
    intros h [Hh Hy]. unfold bindH. specialize (IH h Hh).
    destruct (mapH f l h) as [[ys|] h']; [|done].
    destruct IH as [Hh' Hys]. simpl. split; [done|]. by constructor.
Qed.

Section Frame.

Variable h0 : Heap.t.

Lemma allocPiece_extends (p : Piece) :
  triple (extends h0) (allocPiece p)
    (fun addr h => extends h0 h /\ (length (Heap.pieces h0) <= addr)%nat)
    (extends h0).
Proof.
  intros h (Hp & Hr & Hb). simpl. split.
  - split_and!; simpl; try done. by apply prefix_app_r.
  - by apply prefix_length.
Qed.

Lemma allocRow_extends (row : list (option nat)) :
  triple (extends h0) (allocRow row)
    (fun addr h => extends h0 h /\ (length (Heap.rows h0) <= addr)%nat)
    (extends h0).
Proof.
  intros h (Hp & Hr & Hb). simpl. split.
  - split_and!; simpl; try done. by apply prefix_app_r.
  - by apply prefix_length.
Qed.

Lemma copySquare_extends (sq : option nat) :
  triple (extends h0) (copySquare sq) (fun _ h => extends h0 h /\ True)
    (extends h0).
Proof.
  destruct sq as [addr|]; simpl.
  - eapply triple_bind; [by apply triple_read|]. intros p.
    eapply triple_bind; [apply allocPiece_extends|]. intros addr'.
    apply triple_ret. by intros h [? _].
  - by apply triple_ret.
Qed.

(** The copy: its rows are new arrays. *)
Lemma deepCopy_owns (sourceBoard : nat) :
  triple (extends h0) (deepCopy sourceBoard)
    (fun tempBoard h => ownsCopy h0 tempBoard h) (extends h0).
Proof.
  unfold deepCopy.
  eapply triple_bind; [by apply triple_read|]. intros rowRefs.
  eapply triple_bind.
  - apply (triple_mapH (extends h0)
             (fun addr => (length (Heap.rows h0) <= addr)%nat)).
    intros rowAddr.
    eapply triple_bind; [by apply triple_read|]. intros row.
    eapply triple_bind.
    + eapply triple_weaken; [apply (triple_mapH (extends h0) (fun _ => True))| |].
      * intros sq. apply copySquare_extends.
      * done.
      * intros a h [Hh _]. exact Hh.
    + intros row'. apply allocRow_extends.
  - intros newRows h [(Hp & Hr & Hb) Hnew]. simpl. split.
    + split_and!; simpl; try done. by apply prefix_app_r.
    + exists newRows. split; [|done]. simpl.
      rewrite lookup_app_r by done. by rewrite Nat.sub_diag.
Qed.

Variable tempBoard : nat.

Lemma writeCell_owns (r c : nat) (v : option nat) :
  triple (ownsCopy h0 tempBoard) (writeCell tempBoard r c v)
    (fun _ => ownsCopy h0 tempBoard) (extends h0).
Proof.
  intros h [(Hp & Hr & Hb) (rowRefs & Hrefs & Hfresh)].
  unfold writeCell, rowRef. rewrite Hrefs.
  destruct (rowRefs !! r) as [rowAddr|] eqn:Er; [|by split_and!].
  destruct (Heap.rows h !! rowAddr) as [row|]; [|by split_and!].
  split; [|by exists rowRefs]. split_and!; simpl; try done.
  apply prefix_insert_fresh; [done|].
  by apply (Forall_lookup_1 _ _ _ _ Hfresh Er).
Qed.

Lemma clearH_owns (sqs : list (nat * nat)) :
  triple (ownsCopy h0 tempBoard)
    (forH (fun '(r, c) => writeCell tempBoard r c None) sqs)
    (fun _ => ownsCopy h0 tempBoard) (extends h0).
Proof. apply triple_forH. intros [r c]. apply writeCell_owns. Qed.

Lemma setPromoted_owns (addr : nat) :
  (length (Heap.pieces h0) <= addr)%nat ->
  triple (ownsCopy h0 tempBoard) (setPromoted addr)
    (fun _ => ownsCopy h0 tempBoard) (extends h0).
Proof.
  intros Haddr h [(Hp & Hr & Hb) Hrefs]. unfold setPromoted.
  destruct (Heap.pieces h !! addr) as [p|]; [|by split_and!].
  split; [|done]. split_and!; simpl; try done.
  by apply prefix_insert_fresh.
Qed.

Lemma allocPiece_owns (p : Piece) :
  triple (ownsCopy h0 tempBoard) (allocPiece p)
    (fun addr h => ownsCopy h0 tempBoard h
                   /\ (length (Heap.pieces h0) <= addr)%nat)
    (extends h0).
Proof.
  intros h [(Hp & Hr & Hb) Hrefs]. simpl. split; [split|].
  - split_and!; simpl; try done. by apply prefix_app_r.
  - done.
  - by apply prefix_length.
Qed.

Lemma ownsCopy_extends (h : Heap.t) : ownsCopy h0 tempBoard h -> extends h0 h.
Proof. by intros [? _]. Qed.

End Frame.

Lemma simulateFullMoveH_extends (fr fc tr tc : nat) (side : Color)
    (sourceBoard : nat) (h0 : Heap.t) :
  triple (extends h0) (simulateFullMoveH fr fc tr tc side sourceBoard)
    (fun _ h => extends h0 h) (extends h0).
Proof.
  unfold simulateFullMoveH.
  eapply triple_bind; [apply deepCopy_owns|]. intros tempBoard.
  assert (Hread : forall A (f : Heap.t -> option A),
    triple (ownsCopy h0 tempBoard) (readH f)
      (fun _ => ownsCopy h0 tempBoard) (extends h0)).
  { intros A f. apply triple_read. apply ownsCopy_extends. }
  assert (Hret : forall A (a : A),
    triple (ownsCopy h0 tempBoard) (retH a) (fun _ h => extends h0 h)
      (extends h0)).
  { intros A a. apply triple_ret. apply ownsCopy_extends. }
  eapply triple_bind; [apply Hread|]. intros [pieceAddr|]; [|apply Hret].
  eapply triple_bind; [apply Hread|]. intros pieceToMove.
  destruct (decide _); [apply Hret|].
  eapply triple_bind; [apply allocPiece_owns|]. intros movedPiece.
  (* the address of the moved piece is new: carry that fact along *)
  assert (Hfresh : forall (P : Prop) A (m : HeapM A),
    (P -> triple (ownsCopy h0 tempBoard) m (fun _ h => extends h0 h)
            (extends h0)) ->
    triple (fun h => ownsCopy h0 tempBoard h /\ P) m
      (fun _ h => extends h0 h) (extends h0)).
  { intros P A m Hm h [Hh HP]. by apply Hm. }
  apply Hfresh. intros Hmoved.
  eapply triple_bind; [apply Hread|]. intros [dest|]; [apply Hret|].
  eapply triple_bind; [apply writeCell_owns|]. intros [].
  eapply triple_bind; [apply writeCell_owns|]. intros [].
  eapply triple_bind; [apply Hread|]. intros originalRef.
  eapply triple_bind; [apply Hread|]. intros original.
  eapply triple_bind.
  { instantiate (1 := fun _ => ownsCopy h0 tempBoard).
    destruct original as [orig|]; [|by apply triple_ret].
    destruct (_ && _); [|by apply triple_ret].
    eapply triple_bind; [by apply setPromoted_owns|]. intros [].
    eapply triple_bind; [apply Hread|]. intros board.
    eapply triple_bind; [apply Hread|]. intros promotionResult.
    eapply triple_bind; [apply clearH_owns|]. intros [].
    by apply triple_ret. }
  intros promo.
  eapply triple_bind; [apply Hread|]. intros board.
  eapply triple_bind; [apply Hread|]. intros combinations.
  eapply triple_bind; [apply clearH_owns|]. intros [].
  apply Hret.
Qed.

Lemma prefix_lookup_Some' {A} (l0 l : list A) (i : nat) (x : A) :
  l0 `prefix_of` l -> l0 !! i = Some x -> l !! i = Some x.
Proof. intros [k ->] H. by apply lookup_app_l_Some. Qed.

Lemma rowValue_extends (h0 h : Heap.t) (row : list (option nat)) (v : Row) :
  extends h0 h -> rowValue h0 row = Some v -> rowValue h row = Some v.
Proof.
  intros (Hp & _ & _). unfold rowValue. revert v.
  induction row as [|sq row IH]; intros v; simpl; [done|].
  destruct sq as [addr|]; simpl.
  - destruct (Heap.pieces h0 !! addr) as [p|] eqn:E; simpl; [|done].
    rewrite (prefix_lookup_Some' _ _ _ _ Hp E). simpl.
    destruct (mapM _ row) as [v'|]; simpl; [|done].
    intros [= <-]. by rewrite (IH v' eq_refl).
  - destruct (mapM _ row) as [v'|]; simpl; [|done].
    intros [= <-]. by rewrite (IH v' eq_refl).
Qed.

(** A board that can be read in [h0] reads the same in every extension. *)
Lemma snapshot_extends (h0 h : Heap.t) (board : nat) (b : Board) :
  extends h0 h -> snapshot h0 board = Some b -> snapshot h board = Some b.
Proof.
  intros Hext. pose proof Hext as (Hp & Hr & Hb). unfold snapshot.
  destruct (Heap.boards h0 !! board) as [rowRefs|] eqn:E; [|done].
  rewrite (prefix_lookup_Some' _ _ _ _ Hb E). clear E. revert b.
  induction rowRefs as [|rowAddr rowRefs IH]; intros b; simpl; [done|].
  destruct (Heap.rows h0 !! rowAddr) as [row|] eqn:Erow; simpl; [|done].
  rewrite (prefix_lookup_Some' _ _ _ _ Hr Erow).
  destruct (rowValue h0 row) as [v|] eqn:Ev; simpl; [|done].
  rewrite (rowValue_extends h0 h row v Hext Ev). simpl.
  destruct (mapM _ rowRefs) as [vs|]; simpl; [|done].
  intros [= <-]. by rewrite (IH vs eq_refl).
Qed.

(** C2. [simulateFullMove] leaves the caller's board as it was: whether
    it returns a result, the sentinel, or throws, every object of the heap
    it was called in (boards, rows and pieces) is unchanged afterwards, so
    every square of the source board holds the same piece, with the same
    colour, number and promoted flag. *)
Theorem simulateFullMove_leaves_source_unchanged
    (fr fc tr tc : nat) (side : Color) (sourceBoard : nat) (h0 : Heap.t) :
  let h' := (simulateFullMoveH fr fc tr tc side sourceBoard h0).2 in
  extends h0 h'
  /\ (forall addr p, Heap.pieces h0 !! addr = Some p ->
                     Heap.pieces h' !! addr = Some p)
  /\ (forall addr row, Heap.rows h0 !! addr = Some row ->
                       Heap.rows h' !! addr = Some row)
  /\ (forall b, snapshot h0 sourceBoard = Some b ->
                snapshot h' sourceBoard = Some b).
Proof.
  intros h'.
  assert (Hext : extends h0 h').
  { pose proof (simulateFullMoveH_extends fr fc tr tc side sourceBoard h0 h0
                  (extends_refl h0)) as H.
    unfold h'. by destruct (simulateFullMoveH _ _ _ _ _ _ h0) as [[res|] h1]. }
  split; [done|]. pose proof Hext as (Hp & Hr & Hb). split_and!.
  - intros addr p. by apply prefix_lookup_Some'.
  - intros addr row. by apply prefix_lookup_Some'.
  - intros b. by apply snapshot_extends.
Qed.

(** ** The heap simulator computes what the simulator on values does *)

Lemma squareValue_extends (h0 h : Heap.t) (sq : option nat)
    (v : option Piece) :
  extends h0 h -> squareValue h0 sq = Some v -> squareValue h sq = Some v.
Proof.
  intros (Hp & _ & _). destruct sq as [a|]; simpl; [|done].
  destruct (Heap.pieces h0 !! a) as [p|] eqn:E; simpl; [|done].
  by rewrite (prefix_lookup_Some' _ _ _ _ Hp E).
Qed.

Lemma reads_snapshot (h : Heap.t) (board : nat) (rowRefs : list nat)
    (refs : list (list (option nat))) (b : Board) :
  reads h board rowRefs refs b -> snapshot h board = Some b.
Proof.
  intros (Hb & Hrows & Hvals). unfold snapshot. rewrite Hb.
  apply mapM_Some.
  eapply Forall2_trans; [|exact Hrows|exact Hvals].
  intros ra row rowv Hra Hrow. simpl in Hra. rewrite Hra.
  unfold rowValue. by apply mapM_Some.
Qed.

Lemma snapshot_reads (h : Heap.t) (board : nat) (b : Board) :
  snapshot h board = Some b ->
  exists rowRefs refs, reads h board rowRefs refs b.
Proof.
  unfold snapshot. destruct (Heap.boards h !! board) as [rowRefs|] eqn:E;
    [|done].
  intros H. apply mapM_Some in H. exists rowRefs.
  assert (exists refs,
    Forall2 (fun rowAddr row => Heap.rows h !! rowAddr = Some row) rowRefs refs
    /\ Forall2 (Forall2 (fun sq v => squareValue h sq = Some v)) refs b)
    as (refs & ? & ?); [|by exists refs].
  clear E. induction H as [|ra rowv rowRefs' b' Hra _ IH].
  - exists []. by split.
  - destruct IH as (refs & IH1 & IH2).
    destruct (Heap.rows h !! ra) as [row|] eqn:Era; [|done].
    exists (row :: refs). split; constructor; try done.
    unfold rowValue in Hra. by apply mapM_Some in Hra.
Qed.

Lemma refAt_value (h : Heap.t) (board : nat) (rowRefs : list nat)
    (refs : list (list (option nat))) (b : Board) (r c : nat) :
  reads h board rowRefs refs b ->
  squareValue h (refAt refs r c) = Some (cellq b r c).
Proof.
  intros (_ & _ & Hvals). unfold refAt, cellq.
  destruct (refs !! r) as [row|] eqn:Er.
  - destruct (Forall2_lookup_l _ _ _ _ _ Hvals Er) as (rowv & -> & Hrow).
    destruct (row !! c) as [sq|] eqn:Ec.
    + destruct (Forall2_lookup_l _ _ _ _ _ Hrow Ec) as (v & -> & Hv). done.
    + assert (rowv !! c = None) as ->; [|done].
      apply lookup_ge_None. apply lookup_ge_None in Ec.
      by rewrite <- (Forall2_length _ _ _ Hrow).
  - assert (b !! r = None) as ->; [|done].
    apply lookup_ge_None. apply lookup_ge_None in Er.
    by rewrite <- (Forall2_length _ _ _ Hvals).
Qed.

Lemma refAt_valid (h : Heap.t) (board : nat) (rowRefs : list nat)
    (refs : list (list (option nat))) (b : Board) (r c a : nat) :
  reads h board rowRefs refs b -> refAt refs r c = Some a ->
  exists p, Heap.pieces h !! a = Some p /\ cellq b r c = Some p.
Proof.
  intros Hreads Ha.
  pose proof (refAt_value h board rowRefs refs b r c Hreads) as Hv.
  rewrite Ha in Hv. simpl in Hv.
  destruct (Heap.pieces h !! a) as [p|]; [|done].
  exists p. split; [done|]. simpl in Hv. congruence.
Qed.

Lemma reads_rows (h : Heap.t) (board : nat) (rowRefs : list nat)
    (refs : list (list (option nat))) (b : Board) (r : nat) :
  reads h board rowRefs refs b ->
  match b !! r with
  | None => rowRefs !! r = None /\ refs !! r = None
  | Some rowv =>
      exists rowAddr row,
        rowRefs !! r = Some rowAddr /\ refs !! r = Some row
        /\ Heap.rows h !! rowAddr = Some row
        /\ Forall2 (fun sq v => squareValue h sq = Some v) row rowv
  end.
Proof.
  intros (_ & Hrows & Hvals).
  destruct (b !! r) as [rowv|] eqn:Eb.
  - destruct (Forall2_lookup_r _ _ _ _ _ Hvals Eb) as (row & Er & Hrow).
    destruct (Forall2_lookup_r _ _ _ _ _ Hrows Er) as (ra & Era & Hra).
    by exists ra, row.
  - apply lookup_ge_None in Eb.
    rewrite <- (Forall2_length _ _ _ Hvals) in Eb.
    split; apply lookup_ge_None; [|done].
    by rewrite (Forall2_length _ _ _ Hrows).
Qed.

Lemma cellRefq_reads (h : Heap.t) (board : nat) (rowRefs : list nat)
    (refs : list (list (option nat))) (b : Board) (r c : nat) :
  reads h board rowRefs refs b ->
  cellRefq h board r c = Some (refAt refs r c).
Proof.
  intros Hreads. pose proof (reads_rows h board rowRefs refs b r Hreads) as H.
  destruct Hreads as (Hb & _ & _).
  unfold cellRefq, rowRef, refAt. rewrite Hb.
  destruct (b !! r) as [rowv|].
  - destruct H as (ra & row & -> & -> & -> & _). done.
  - destruct H as [-> ->]. done.
Qed.

Lemma cellRef_reads (h : Heap.t) (board : nat) (rowRefs : list nat)
    (refs : list (list (option nat))) (b : Board) (r c : nat) :
  reads h board rowRefs refs b ->
  match cell b r c with
  | None => cellRef h board r c = None
  | Some v => cellRef h board r c = Some (refAt refs r c)
              /\ squareValue h (refAt refs r c) = Some v
  end.
Proof.
  intros Hreads. pose proof (reads_rows h board rowRefs refs b r Hreads) as H.
  pose proof (refAt_value h board rowRefs refs b r c Hreads) as Hv.
  destruct Hreads as (Hb & _ & _).
  unfold cellRef, rowRef, cell, refAt, cellq in *. rewrite Hb.
  destruct (b !! r) as [rowv|].
  - destruct H as (ra & row & -> & Hrow & -> & _). rewrite Hrow in *. done.
  - destruct H as [-> _]. done.
Qed.

Lemma js_set_Forall2 {A B} (P : option A -> option B -> Prop)
    (l : list (option A)) (k : list (option B)) (i : nat) x y :
  Forall2 P l k -> P x y -> P None None ->
  Forall2 P (js_set l i x) (js_set k i y).
Proof.
  intros Hlk Hxy Hnone. unfold js_set.
  rewrite <- (Forall2_length _ _ _ Hlk).
  destruct (i <? length l)%nat.
  - by apply Forall2_insert.
  - apply Forall2_app; [done|]. apply Forall2_app.
    + by apply Forall2_replicate.
    + by constructor.
Qed.

Lemma refAt_setRef (refs : list (list (option nat))) (r0 c0 : nat)
    (v : option nat) (r c : nat) :
  is_Some (refs !! r0) ->
  refAt (setRef refs r0 c0 v) r c =
  if decide (r = r0 /\ c = c0) then v else refAt refs r c.
Proof.
  intros [row Hrow]. unfold setRef, refAt. rewrite Hrow.
  assert (Hr0 : (r0 < length refs)%nat) by (by eapply lookup_lt_Some).
  destruct (decide (r = r0)) as [->|Hr].
  - rewrite list_lookup_insert_eq by done. rewrite Hrow.
    unfold js_set. destruct (c0 <? length row)%nat eqn:Elt.
    + apply Nat.ltb_lt in Elt. destruct (decide (c = c0)) as [->|Hc].
      * rewrite decide_True by done. by rewrite list_lookup_insert_eq.
      * rewrite decide_False by naive_solver.
        by rewrite list_lookup_insert_ne.
    + apply Nat.ltb_ge in Elt. destruct (decide (c = c0)) as [->|Hc].
      * rewrite decide_True by done.
        rewrite lookup_app_r by done. rewrite lookup_app_r
          by (rewrite length_replicate; lia).
        rewrite length_replicate.
        by replace (c0 - length row - (c0 - length row))%nat with 0%nat by lia.
      * rewrite decide_False by naive_solver.
        destruct (decide (c < length row)%nat) as [Hlt|Hge].
        -- by rewrite lookup_app_l.
        -- rewrite (proj2 (lookup_ge_None row c)) by lia.
           rewrite lookup_app_r by lia.
           destruct (decide (c - length row < c0 - length row)%nat).
           ++ rewrite lookup_app_l by (rewrite length_replicate; lia).
              by rewrite lookup_replicate_2 by lia.
           ++ rewrite lookup_app_r by (rewrite length_replicate; lia).
              rewrite length_replicate.
              rewrite (proj2 (lookup_ge_None _ _)); [done|]. simpl. lia.
  - rewrite decide_False by naive_solver.
    by rewrite list_lookup_insert_ne.
Qed.

(** [board[r][c] = v] on a board whose rows are distinct arrays. *)
Lemma writeCell_reads (h : Heap.t) (board : nat) (rowRefs : list nat)
    (refs : list (list (option nat))) (b : Board) (r c : nat)
    (v : option nat) (pv : option Piece) :
  reads h board rowRefs refs b -> NoDup rowRefs ->
  squareValue h v = Some pv ->
  match set_cell b r c pv with
  | None => writeCell board r c v h = (None, h)
  | Some b' =>
      exists h', writeCell board r c v h = (Some tt, h')
                 /\ Heap.pieces h' = Heap.pieces h
                 /\ reads h' board rowRefs (setRef refs r c v) b'
  end.
Proof.
  intros Hreads Hnd Hv.
  pose proof (reads_rows h board rowRefs refs b r Hreads) as H.
  destruct Hreads as (Hb & Hrows & Hvals).
  unfold set_cell, writeCell, rowRef, setRef. rewrite Hb.
  destruct (b !! r) as [rowv|] eqn:Eb.
  - destruct H as (ra & row & Era & Er & Hra & Hrow). rewrite Era, Hra, Er.
    eexists. split; [done|]. split; [done|].
    split; [done|]. simpl. split.
    + apply Forall2_same_length_lookup_2.
      { rewrite length_insert. by eapply Forall2_length. }
      intros i ra' row' Hi Hrow'.
      assert (Hlt : (ra < length (Heap.rows h))%nat)
        by (by eapply lookup_lt_Some).
      destruct (decide (i = r)) as [->|Hne].
      * rewrite list_lookup_insert_eq in Hrow' by (by eapply lookup_lt_Some).
        assert (ra' = ra) as -> by congruence.
        rewrite list_lookup_insert_eq by done. congruence.
      * rewrite list_lookup_insert_ne in Hrow' by done.
        assert (ra <> ra').
        { intros <-. apply Hne. by eapply NoDup_lookup. }
        rewrite list_lookup_insert_ne by done.
        destruct (Forall2_lookup_l _ _ _ _ _ Hrows Hi) as (row'' & ? & ?).
        congruence.
    + apply Forall2_insert; [done|]. by apply js_set_Forall2.
  - by destruct H as [-> _].
Qed.

(** Clearing a list of squares. *)
Lemma clear_reads (board : nat) (rowRefs : list nat)
    (sqs : list (nat * nat)) :
  NoDup rowRefs ->
  forall (h : Heap.t) (refs : list (list (option nat))) (b : Board),
  reads h board rowRefs refs b ->
  match clearSquares b sqs with
  | None =>
      (forH (fun '(r, c) => writeCell board r c None) sqs h).1 = None
  | Some b' =>
      exists h' refs',
        forH (fun '(r, c) => writeCell board r c None) sqs h = (Some tt, h')
        /\ Heap.pieces h' = Heap.pieces h
        /\ reads h' board rowRefs refs' b'
  end.
Proof.
  intros Hnd. unfold clearSquares.
  induction sqs as [|[r c] sqs IH]; intros h refs b Hreads; simpl.
  - by exists h, refs.
  - pose proof (writeCell_reads h board rowRefs refs b r c None None
                  Hreads Hnd eq_refl) as Hw.
    unfold bindH.
    destruct (set_cell b r c None) as [b1|]; [|by rewrite Hw].
    destruct Hw as (h1 & -> & Hp1 & Hreads1).
    specialize (IH h1 _ b1 Hreads1).
    destruct (foldM _ b1 sqs) as [b'|]; [|done].
    destruct IH as (h' & refs' & -> & Hp' & Hreads').
    exists h', refs'. split; [done|]. split; [congruence|done].
Qed.

Lemma reads_extends (h0 h : Heap.t) (board : nat) (rowRefs : list nat)
    (refs : list (list (option nat))) (b : Board) :
  extends h0 h -> reads h0 board rowRefs refs b ->
  reads h board rowRefs refs b.
Proof.
  intros Hext (Hb & Hrows & Hvals). pose proof Hext as (Hp & Hr & Hbs).
  split_and!.
  - by eapply prefix_lookup_Some'.
  - eapply Forall2_impl; [exact Hrows|]. intros ra row Hra. simpl in *.
    by eapply prefix_lookup_Some'.
  - eapply Forall2_impl; [exact Hvals|]. intros row rowv Hrow.
    eapply Forall2_impl; [exact Hrow|]. intros sq v Hsq. simpl in *.
    by eapply squareValue_extends.
Qed.

(** [movedPiece.promoted = true] when [movedPiece] is the object of one
    square only: the value of that square changes, and no other. *)
Lemma setPromoted_reads (h : Heap.t) (board : nat) (rowRefs : list nat)
    (refs : list (list (option nat))) (b : Board) (addr : nat) (p : Piece)
    (tr tc : nat) :
  reads h board rowRefs refs b ->
  Heap.pieces h !! addr = Some p ->
  refAt refs tr tc = Some addr ->
  (forall r c, refAt refs r c = Some addr -> r = tr /\ c = tc) ->
  exists h' b',
    setPromoted addr h = (Some tt, h')
    /\ set_cell b tr tc (Some (mkPiece (color p) (number p) true)) = Some b'
    /\ Heap.rows h' = Heap.rows h /\ Heap.boards h' = Heap.boards h
    /\ (forall a, a <> addr -> Heap.pieces h' !! a = Heap.pieces h !! a)
    /\ reads h' board rowRefs refs b'.
Proof.
  intros Hreads Hp Hat Honly.
  pose proof (reads_rows h board rowRefs refs b tr Hreads) as H.
  destruct Hreads as (Hb & Hrows & Hvals).
  unfold setPromoted, set_cell. rewrite Hp.
  assert (Hlt : (addr < length (Heap.pieces h))%nat)
    by (by eapply lookup_lt_Some).
  unfold refAt in Hat. destruct (refs !! tr) as [row|] eqn:Er; [|done].
  destruct (row !! tc) as [sq|] eqn:Ec; [|done]. simpl in Hat. subst sq.
  destruct (b !! tr) as [rowv|] eqn:Eb;
    [|destruct H as [_ H]; congruence].
  destruct H as (ra & row' & Era & Er' & Hra & Hrow).
  assert (row' = row) as -> by congruence.
  eexists _, _. split; [done|]. split; [done|]. split; [done|].
  split; [done|]. split.
  { intros a Ha. simpl. by rewrite list_lookup_insert_ne. }
  split; [done|]. split; [done|]. simpl.
  assert (Hother : forall sq v,
    sq <> Some addr -> squareValue h sq = Some v ->
    squareValue
      (Heap.mk (<[addr := mkPiece (color p) (number p) true]> (Heap.pieces h))
         (Heap.rows h) (Heap.boards h)) sq = Some v).
  { intros [a|] v Hne Hv; simpl in *; [|done].
    rewrite list_lookup_insert_ne by congruence. done. }
  assert (Htc : (tc < length rowv)%nat).
  { rewrite <- (Forall2_length _ _ _ Hrow). by eapply lookup_lt_Some. }
  unfold js_set. rewrite (proj2 (Nat.ltb_lt _ _) Htc).
  apply Forall2_same_length_lookup_2.
  { rewrite length_insert. by eapply Forall2_length. }
  intros i x y Hx Hy.
  destruct (decide (i = tr)) as [->|Hi].
  - rewrite list_lookup_insert_eq in Hy by (by eapply lookup_lt_Some).
    assert (x = row) as -> by congruence. injection Hy as <-.
    apply Forall2_same_length_lookup_2.
    { rewrite length_insert. by eapply Forall2_length. }
    intros j sq v Hsq Hv.
    destruct (decide (j = tc)) as [->|Hj].
    + rewrite list_lookup_insert_eq in Hv by done.
      assert (sq = Some addr) as -> by congruence. injection Hv as <-.
      simpl. by rewrite list_lookup_insert_eq.
    + rewrite list_lookup_insert_ne in Hv by done.
      apply Hother.
      * intros ->. destruct (Honly tr j) as [_ ?]; [|done].
        unfold refAt. by rewrite Er, Hsq.
      * destruct (Forall2_lookup_l _ _ _ _ _ Hrow Hsq) as (v' & ? & ?).
        congruence.
  - rewrite list_lookup_insert_ne in Hy by done.
    destruct (Forall2_lookup_l _ _ _ _ _ Hvals Hx) as (y' & Hy' & Hxy).
    assert (y' = y) as -> by congruence.
    apply Forall2_same_length_lookup_2; [by eapply Forall2_length|].
    intros j sq v Hsq Hv. apply Hother.
    + intros ->. destruct (Honly i j) as [? _]; [|done].
      unfold refAt. by rewrite Hx, Hsq.
    + destruct (Forall2_lookup_l _ _ _ _ _ Hxy Hsq) as (v' & ? & ?).
      congruence.
Qed.

(** [{ ...p }] for a square: a new object with the same value. *)
Lemma copySquare_spec (h : Heap.t) (sq : option nat) (v : option Piece) :
  squareValue h sq = Some v ->
  exists sq' h',
    copySquare sq h = (Some sq', h')
    /\ extends h h' /\ Heap.rows h' = Heap.rows h
    /\ Heap.boards h' = Heap.boards h
    /\ squareValue h' sq' = Some v.
Proof.
  destruct sq as [a|]; simpl.
  - destruct (Heap.pieces h !! a) as [p|] eqn:E; simpl; [|done].
    intros [= <-]. unfold bindH, readH, allocPiece, retH. rewrite E.
    eexists _, _. split; [done|]. split.
    { split_and!; simpl; try done. by apply prefix_app_r. }
    split_and!; simpl; try done.
    rewrite lookup_app_r by done. by rewrite Nat.sub_diag.
  - intros [= <-]. exists None, h. unfold retH.
    split_and!; try done; apply extends_refl.
Qed.

Lemma copyRow_spec (row : list (option nat)) :
  forall (h : Heap.t) (v : Row),
  rowValue h row = Some v ->
  exists row' h',
    mapH copySquare row h = (Some row', h')
    /\ extends h h' /\ Heap.rows h' = Heap.rows h
    /\ Heap.boards h' = Heap.boards h
    /\ Forall2 (fun sq w => squareValue h' sq = Some w) row' v.
Proof.
  induction row as [|sq row IH]; intros h v Hv.
  - injection Hv as <-. exists [], h. unfold retH.
    split_and!; try done; apply extends_refl.
  - unfold rowValue in Hv. apply mapM_Some in Hv.
    inversion Hv as [|sq0 v0 row0 vs Hsq Hrest]; subst.
    destruct (copySquare_spec h sq v0 Hsq)
      as (sq' & h1 & Hcopy & Hext1 & Hr1 & Hb1 & Hsq').
    assert (Hvs : rowValue h1 row = Some vs).
    { apply (rowValue_extends h h1 row vs Hext1).
      unfold rowValue. by apply mapM_Some. }
    destruct (IH h1 vs Hvs) as (row' & h2 & Hmap & Hext2 & Hr2 & Hb2 & Hrow').
    exists (sq' :: row'), h2. cbn [mapH]. unfold bindH at 1. rewrite Hcopy.
    unfold bindH. rewrite Hmap. unfold retH.
    split_and!; try congruence.
    + by eapply extends_trans.
    + constructor; [|done]. by eapply squareValue_extends.
Qed.

(** The rows of the copy: new, distinct arrays with the values of the
    rows of the source. *)
Lemma copyRows_spec (rowRefs : list nat) :
  forall (h : Heap.t) (b : Board),
  mapM (fun rowAddr => match Heap.rows h !! rowAddr with
                       | None => None
                       | Some row => rowValue h row
                       end) rowRefs = Some b ->
  exists newRows refs h',
    mapH (fun rowAddr =>
            bindH (readH (fun h => Heap.rows h !! rowAddr)) (fun row =>
            bindH (mapH copySquare row) (fun row' => allocRow row')))
      rowRefs h = (Some newRows, h')
    /\ extends h h' /\ Heap.boards h' = Heap.boards h
    /\ NoDup newRows
    /\ Forall (fun rowAddr => (length (Heap.rows h) <= rowAddr)%nat) newRows
    /\ Forall2 (fun rowAddr row => Heap.rows h' !! rowAddr = Some row)
         newRows refs
    /\ Forall2 (Forall2 (fun sq v => squareValue h' sq = Some v)) refs b.
Proof.
  induction rowRefs as [|ra rowRefs IH]; intros h b Hb.
  - injection Hb as <-. exists [], [], h. unfold retH.
    split_and!; try done; try constructor; apply extends_refl.
  - apply mapM_Some in Hb.
    inversion Hb as [|ra0 rowv rs0 b' Hra Hrest]; subst.
    destruct (Heap.rows h !! ra) as [row|] eqn:Era; [|done].
    destruct (copyRow_spec row h rowv Hra)
      as (row' & h1 & Hcopy & Hext1 & Hr1 & Hb1 & Hrow').
    set (h2 := Heap.mk (Heap.pieces h1) (Heap.rows h1 ++ [row'])
                 (Heap.boards h1)).
    assert (Hext12 : extends h1 h2).
    { split_and!; simpl; try done. by apply prefix_app_r. }
    assert (Hext2 : extends h h2) by (by eapply extends_trans).
    assert (Hb2 : mapM (fun rowAddr => match Heap.rows h2 !! rowAddr with
                                        | None => None
                                        | Some row => rowValue h2 row
                                        end) rowRefs = Some b').
    { apply mapM_Some. eapply Forall2_impl; [exact Hrest|].
      intros ra1 rowv1 H1. simpl in H1.
      destruct (Heap.rows h !! ra1) as [row1|] eqn:E1; [|done].
      pose proof Hext2 as (_ & Hr & _).
      rewrite (prefix_lookup_Some' _ _ _ _ Hr E1).
      by apply (rowValue_extends h h2). }
    destruct (IH h2 b' Hb2)
      as (newRows & refs & h3 & Hmap & Hext3 & Hb3 & Hnd & Hfresh & Hrows
          & Hvals).
    exists (length (Heap.rows h1) :: newRows), (row' :: refs), h3.
    cbn [mapH]. unfold bindH at 1. unfold bindH at 1. unfold readH at 1.
    rewrite Era. unfold bindH at 1. rewrite Hcopy. unfold allocRow at 1.
    fold h2. unfold bindH at 1. rewrite Hmap. unfold retH.
    split_and!; try done.
    + by eapply extends_trans.
    + simpl in Hb3. congruence.
    + constructor; [|done]. intros Hin.
      pose proof (proj1 (Forall_forall _ _) Hfresh _ Hin) as Hge.
      simpl in Hge. rewrite length_app in Hge. simpl in Hge. lia.
    + constructor.
      * rewrite Hr1. done.
      * eapply Forall_impl; [exact Hfresh|]. intros a Ha. simpl in Ha.
        rewrite length_app, Hr1 in Ha. simpl in Ha. lia.
    + constructor; [|done].
      destruct Hext3 as (_ & Hr3 & _).
      apply (prefix_lookup_Some' _ _ _ _ Hr3). simpl.
      rewrite lookup_app_r by done. by rewrite Nat.sub_diag.
    + constructor; [|done].
      eapply Forall2_impl; [exact Hrow'|]. intros sq v Hsq. simpl in *.
      eapply squareValue_extends; [|exact Hsq]. by eapply extends_trans.
Qed.

(** The deep copy: a new board that reads as the source does. *)
Lemma deepCopy_spec (h0 : Heap.t) (sourceBoard : nat) (b : Board) :
  snapshot h0 sourceBoard = Some b ->
  exists tempBoard h rowRefs refs,
    deepCopy sourceBoard h0 = (Some tempBoard, h)
    /\ reads h tempBoard rowRefs refs b /\ NoDup rowRefs.
Proof.
  unfold snapshot, deepCopy.
  destruct (Heap.boards h0 !! sourceBoard) as [rowRefs0|] eqn:E; [|done].
  intros Hb.
  destruct (copyRows_spec rowRefs0 h0 b Hb)
    as (newRows & refs & h1 & Hmap & Hext & Hb1 & Hnd & _ & Hrows & Hvals).
  unfold bindH at 1. unfold readH at 1. rewrite E.
  unfold bindH at 1. rewrite Hmap. unfold allocBoard.
  eexists _, _, newRows, refs. split; [done|]. split; [|done].
  split_and!; simpl.
  - rewrite lookup_app_r by done. by rewrite Nat.sub_diag.
  - done.
  - done.
Qed.

(** Steps of a heap computation. *)
Lemma bindH_ret {A B} (m : HeapM A) (k : A -> HeapM B) (h h' : Heap.t)
    (a : A) :
  m h = (Some a, h') -> bindH m k h = k a h'.
Proof. intros H. unfold bindH. by rewrite H. Qed.

Lemma bindH_throw {A B} (m : HeapM A) (k : A -> HeapM B) (h : Heap.t) :
  (m h).1 = None -> (bindH m k h).1 = None.
Proof. unfold bindH. by destruct (m h) as [[a|] h']. Qed.

Lemma bindH_read {A B} (f : Heap.t -> option A) (k : A -> HeapM B)
    (h : Heap.t) (a : A) :
  f h = Some a -> bindH (readH f) k h = k a h.
Proof. intros H. unfold bindH, readH. by rewrite H. Qed.

Lemma bindH_read_throw {A B} (f : Heap.t -> option A) (k : A -> HeapM B)
    (h : Heap.t) :
  f h = None -> (bindH (readH f) k h).1 = None.
Proof. intros H. unfold bindH, readH. by rewrite H. Qed.

Lemma bindH_assoc {A B C} (m : HeapM A) (k1 : A -> HeapM B)
    (k2 : B -> HeapM C) (h : Heap.t) :
  bindH (bindH m k1) k2 h = bindH m (fun a => bindH (k1 a) k2) h.
Proof. unfold bindH. by destruct (m h) as [[a|] h']. Qed.

(** Lines 302-324 on the heap: the combination pass and the result. *)
Lemma combinationPassH_spec (tempBoard : nat) (rowRefs : list nat)
    (h : Heap.t) (refs : list (list (option nat))) (b : Board)
    (toRow toCol : nat) (forPlayerColor : Color) (pts : Z) (leads : bool) :
  NoDup rowRefs -> reads h tempBoard rowRefs refs b ->
  let m :=
    (do board <- readH (fun h => snapshot h tempBoard);
     do combinations <-
       readH (fun _ => checkCombinationsAroundPositionOnBoard
                         toRow toCol board forPlayerColor);
     let st := collectCaptures board forPlayerColor combinations in
     do _ <- forH (fun '(r, c) => writeCell tempBoard r c None) st.2;
     retH (mkSimH (Some tempBoard) (of_Z (pts + st.1)) leads))%heap in
  match combinationPass b toRow toCol forPlayerColor with
  | None => (m h).1 = None
  | Some (b', cp) =>
      exists h', m h = (Some (mkSimH (Some tempBoard) (of_Z (pts + cp)) leads),
                        h')
                 /\ snapshot h' tempBoard = Some b'
  end.
Proof.
  intros Hnd Hreads m. unfold m, combinationPass.
  rewrite (bindH_read _ _ h b (reads_snapshot _ _ _ _ _ Hreads)).
  cbv beta.
  destruct (checkCombinationsAroundPositionOnBoard toRow toCol b
              forPlayerColor) as [combinations|] eqn:Ec.
  - rewrite (bindH_read _ _ h combinations eq_refl). cbv beta zeta.
    pose proof (clear_reads tempBoard rowRefs
                  (collectCaptures b forPlayerColor combinations).2 Hnd
                  h refs b Hreads) as Hclear.
    destruct (clearSquares b _) as [b'|].
    + destruct Hclear as (h' & refs' & Hfor & _ & Hreads').
      exists h'. rewrite (bindH_ret _ _ h h' tt Hfor). split; [done|].
      by eapply reads_snapshot.
    + by apply bindH_throw.
  - by apply bindH_read_throw.
Qed.

(** The heap simulator refines the simulator on values: started on a
    heap where [sourceBoard] reads as [b], it throws exactly when
    [simulateFullMove] on [b] does, and otherwise returns the same score
    gain and choice flag, and a board that reads as the [tempBoard] of
    [simulateFullMove] (or the sentinel when that is the sentinel). *)
Theorem simulateFullMoveH_refines (fr fc tr tc : nat) (side : Color)
    (sourceBoard : nat) (h0 : Heap.t) (b : Board) :
  snapshot h0 sourceBoard = Some b ->
  match simulateFullMove fr fc tr tc side b with
  | None => (simulateFullMoveH fr fc tr tc side sourceBoard h0).1 = None
  | Some res =>
      exists resH h',
        simulateFullMoveH fr fc tr tc side sourceBoard h0 = (Some resH, h')
        /\ sameResult h' resH res
  end.
Proof.
  intros Hsnap.
  destruct (deepCopy_spec h0 sourceBoard b Hsnap)
    as (tb & h1 & rr & R & Hcopy & Hreads1 & Hnd).
  assert (Hown1 : ownsCopy h0 tb h1).
  { pose proof (deepCopy_owns h0 sourceBoard h0 (extends_refl h0)) as H.
    by rewrite Hcopy in H. }
  unfold simulateFullMoveH, simulateFullMove.
  rewrite (bindH_ret _ _ h0 h1 tb Hcopy). cbv beta.
  rewrite (bindH_read _ _ h1 _ (cellRefq_reads h1 tb rr R b fr fc Hreads1)).
  pose proof (refAt_value h1 tb rr R b fr fc Hreads1) as Hfrom.
  assert (Hinvalid : forall h, exists resH h',
    retH invalidMoveH h = (Some resH, h') /\ sameResult h' resH invalidMove).
  { intros h. exists invalidMoveH, h. split; [done|]. by split_and!. }
  destruct (cellq b fr fc) as [p|] eqn:Ep.
  2:{ destruct (refAt R fr fc) as [a|]; [|apply Hinvalid].
      simpl in Hfrom. by destruct (Heap.pieces h1 !! a). }
  destruct (refAt R fr fc) as [a|] eqn:Ea; [|done].
  simpl in Hfrom.
  destruct (Heap.pieces h1 !! a) as [p'|] eqn:Epa; [|done].
  assert (p' = p) as -> by (simpl in Hfrom; congruence). clear Hfrom.
  rewrite (bindH_read _ _ h1 p Epa).
  destruct (decide (color p <> side)) as [Hc|Hc]; [apply Hinvalid|].
  (* the copy of the piece *)
  set (mp := length (Heap.pieces h1)).
  set (h2 := Heap.mk (Heap.pieces h1 ++ [p]) (Heap.rows h1) (Heap.boards h1)).
  rewrite (bindH_ret (allocPiece p) _ h1 h2 mp eq_refl). cbv beta.
  assert (Hext12 : extends h1 h2).
  { split_and!; simpl; try done. by apply prefix_app_r. }
  assert (Hreads2 : reads h2 tb rr R b) by (by eapply reads_extends).
  assert (Hown2 : ownsCopy h0 tb h2).
  { by destruct (allocPiece_owns h0 tb p h1 Hown1) as [? _]. }
  assert (Hmp : Heap.pieces h2 !! mp = Some p).
  { simpl. rewrite lookup_app_r by done. unfold mp. by rewrite Nat.sub_diag. }
  assert (Hfresh : forall r c, refAt R r c <> Some mp).
  { intros r c H.
    destruct (refAt_valid h1 tb rr R b r c mp Hreads1 H) as (q & Hq & _).
    apply lookup_lt_Some in Hq. unfold mp in Hq. lia. }
  (* the destination *)
  pose proof (cellRef_reads h2 tb rr R b tr tc Hreads2) as Hdest.
  pose proof (reads_rows h2 tb rr R b tr Hreads2) as Hrowt.
  destruct (cell b tr tc) as [dest|] eqn:Eto;
    [|by apply bindH_read_throw].
  destruct Hdest as [Hdest Hv]. rewrite (bindH_read _ _ h2 _ Hdest).
  destruct dest as [q|].
  { destruct (refAt R tr tc) as [a'|]; [apply Hinvalid|done]. }
  destruct (refAt R tr tc) as [a'|] eqn:Eat.
  { unfold squareValue in Hv. by destruct (Heap.pieces h2 !! a'). }
  assert (Hne : ~ (fr = tr /\ fc = tc)).
  { intros [-> ->]. apply cellq_cell in Ep. congruence. }
  assert (HRt : is_Some (R !! tr)).
  { unfold cell in Eto. destruct (b !! tr); [|done].
    destruct Hrowt as (? & ? & _ & -> & _). eauto. }
  (* the two assignments *)
  assert (Hvmp : squareValue h2 (Some mp) = Some (Some p))
    by (unfold squareValue; by rewrite Hmp).
  pose proof (writeCell_reads h2 tb rr R b tr tc (Some mp) (Some p)
                Hreads2 Hnd Hvmp) as Hw1.
  pose proof (writeCell_owns h0 tb tr tc (Some mp) h2 Hown2) as Hown3.
  destruct (set_cell b tr tc (Some p)) as [b1|] eqn:Eb1;
    [|apply bindH_throw; by rewrite Hw1].
  destruct Hw1 as (h3 & Hw1 & Hp3 & Hreads3). rewrite Hw1 in Hown3.
  rewrite (bindH_ret _ _ h2 h3 tt Hw1).
  pose proof (writeCell_reads h3 tb rr _ b1 fr fc None None
                Hreads3 Hnd eq_refl) as Hw2.
  pose proof (writeCell_owns h0 tb fr fc None h3 Hown3) as Hown4.
  destruct (set_cell b1 fr fc None) as [b2|] eqn:Eb2;
    [|apply bindH_throw; by rewrite Hw2].
  destruct Hw2 as (h4 & Hw2 & Hp4 & Hreads4). rewrite Hw2 in Hown4.
  rewrite (bindH_ret _ _ h3 h4 tt Hw2).
  set (R2 := setRef (setRef R tr tc (Some mp)) fr fc None) in *.
  assert (HRf : is_Some (setRef R tr tc (Some mp) !! fr)).
  { pose proof (reads_rows h3 tb rr _ b1 fr Hreads3) as H.
    unfold set_cell in Eb2. destruct (b1 !! fr); [|done].
    destruct H as (? & ? & _ & -> & _). eauto. }
  assert (Hat : forall r c,
    refAt R2 r c = if decide (r = tr /\ c = tc) then Some mp
                   else if decide (r = fr /\ c = fc) then None
                   else refAt R r c).
  { intros r c. unfold R2. rewrite refAt_setRef by done.
    rewrite refAt_setRef by done.
    destruct (decide (r = fr /\ c = fc)) as [[-> ->]|];
      [by rewrite decide_False|done]. }
  assert (Hmp4 : Heap.pieces h4 !! mp = Some p) by congruence.
  (* the piece of the source *)
  assert (Hext4 : extends h0 h4) by (by eapply ownsCopy_extends).
  destruct (snapshot_reads h4 sourceBoard b
              (snapshot_extends h0 h4 sourceBoard b Hext4 Hsnap))
    as (rr0 & R0 & Hreads0).
  pose proof (cellRef_reads h4 sourceBoard rr0 R0 b fr fc Hreads0) as Hsrc.
  unfold promotionPass.
  destruct (cell b fr fc) as [original|] eqn:Esrc;
    [|by apply bindH_read_throw].
  destruct Hsrc as [Hsrc Hvo]. rewrite (bindH_read _ _ h4 _ Hsrc).
  rewrite (bindH_read _ _ h4 original Hvo).
  (* the two passes *)
  assert (Htail : forall h refs b3 pts leads,
    reads h tb rr refs b3 ->
    match
      match combinationPass b3 tr tc side with
      | Some (tempBoard4, combinationPoints) =>
          Some (mkSim (Some tempBoard4) (of_Z (pts + combinationPoints)) leads)
      | None => None
      end
    with
    | None =>
        ((do board <- readH (fun h => snapshot h tb);
          do combinations <-
            readH (fun _ => checkCombinationsAroundPositionOnBoard
                              tr tc board side);
          let st := collectCaptures board side combinations in
          do _ <- forH (fun '(r, c) => writeCell tb r c None) st.2;
          retH (mkSimH (Some tb) (of_Z (pts + st.1)) leads))%heap h).1 = None
    | Some res =>
        exists resH h',
          (do board <- readH (fun h => snapshot h tb);
           do combinations <-
             readH (fun _ => checkCombinationsAroundPositionOnBoard
                               tr tc board side);
           let st := collectCaptures board side combinations in
           do _ <- forH (fun '(r, c) => writeCell tb r c None) st.2;
           retH (mkSimH (Some tb) (of_Z (pts + st.1)) leads))%heap h
          = (Some resH, h')
          /\ sameResult h' resH res
    end).
  { intros h refs b3 pts leads Hreads.
    pose proof (combinationPassH_spec tb rr h refs b3 tr tc side pts leads
                  Hnd Hreads) as H. cbv zeta in H.
    destruct (combinationPass b3 tr tc side) as [[b4 cp]|]; [|done].
    destruct H as (h' & Hm & Hsnap'). eexists _, h'. split; [exact Hm|].
    by split_and!. }
  assert (Hquiet :
    match
      match combinationPass b2 tr tc side with
      | Some (tempBoard4, combinationPoints) =>
          Some (mkSim (Some tempBoard4) (of_Z (0 + combinationPoints)) false)
      | None => None
      end
    with
    | None =>
        (bindH (retH (0, false)) (fun promo =>
          do board <- readH (fun h => snapshot h tb);
          do combinations <-
            readH (fun _ => checkCombinationsAroundPositionOnBoard
                              tr tc board side);
          let st := collectCaptures board side combinations in
          do _ <- forH (fun '(r, c) => writeCell tb r c None) st.2;
          retH (mkSimH (Some tb) (of_Z (promo.1 + st.1)) promo.2))%heap h4).1
        = None
    | Some res =>
        exists resH h',
          bindH (retH (0, false)) (fun promo =>
           do board <- readH (fun h => snapshot h tb);
           do combinations <-
             readH (fun _ => checkCombinationsAroundPositionOnBoard
                               tr tc board side);
           let st := collectCaptures board side combinations in
           do _ <- forH (fun '(r, c) => writeCell tb r c None) st.2;
           retH (mkSimH (Some tb) (of_Z (promo.1 + st.1)) promo.2))%heap h4
          = (Some resH, h')
          /\ sameResult h' resH res
    end).
  { rewrite (bindH_ret (retH (0, false)) _ h4 h4 (0, false) eq_refl). cbv beta.
    cbn [fst snd]. by apply (Htail h4 R2 b2 0 false). }
  destruct original as [orig|]; [|exact Hquiet].
  destruct (isPromotionRank (color p) tr && negb (promoted orig));
    [|exact Hquiet].
  clear Hquiet. rewrite bindH_assoc.
  destruct (setPromoted_reads h4 tb rr R2 b2 mp p tr tc Hreads4 Hmp4)
    as (h5 & b2' & Hset & Eb2' & _ & _ & _ & Hreads5).
  { rewrite Hat. by rewrite decide_True. }
  { intros r c. rewrite Hat. destruct (decide (r = tr /\ c = tc)); [done|].
    destruct (decide (r = fr /\ c = fc)); [done|]. intros H.
    by destruct (Hfresh r c). }
  rewrite (bindH_ret _ _ h4 h5 tt Hset). cbv beta. rewrite Eb2'.
  rewrite bindH_assoc.
  rewrite (bindH_read _ _ h5 b2' (reads_snapshot _ _ _ _ _ Hreads5)).
  cbv beta. rewrite bindH_assoc.
  destruct (processPromotion tr tc b2') as [promotionResult|];
    [|by apply bindH_read_throw].
  rewrite (bindH_read _ _ h5 promotionResult eq_refl). cbv beta.
  rewrite bindH_assoc.
  pose proof (clear_reads tb rr (captures promotionResult) Hnd h5 R2 b2'
                Hreads5) as Hclear.
  destruct (clearSquares b2' (captures promotionResult)) as [b3|];
    [|by apply bindH_throw].
  destruct Hclear as (h6 & R3 & Hfor & _ & Hreads6).
  rewrite (bindH_ret _ _ h5 h6 tt Hfor). cbv beta.
  rewrite (bindH_ret (retH (points promotionResult,
                            leadsToChoice promotionResult)) _ h6 h6 _ eq_refl).
  cbv beta. cbn [fst snd].
  by apply (Htail h6 R3 b3).
Qed.

(** ** Checking well-formedness by computation *)

Lemma wf_boardb_spec (board : Board) : wf_boardb board = true -> wf_board board.
Proof.
  unfold wf_boardb, wf_board. rewrite andb_true_iff, Nat.eqb_eq.
  intros [Hlen Hrows]. split; [done|].
  apply Forall_forall. intros row Hrow.
  rewrite forallb_forall in Hrows. apply Nat.eqb_eq, Hrows.
  by apply list_elem_of_In.
Qed.

Lemma wf_piecesb_spec (board : Board) :
  wf_piecesb board = true -> wf_pieces board.
Proof.
  unfold wf_piecesb, wf_pieces, cell. intros Hb r c p.
  destruct (board !! r) as [row|] eqn:Er; [|done].
  destruct (row !! c) as [sq|] eqn:Ec; [|done]. simpl. intros [= ->].
  rewrite forallb_forall in Hb.
  specialize (Hb row ltac:(apply list_elem_of_In; by eapply list_elem_of_lookup_2)).
  rewrite forallb_forall in Hb.
  specialize (Hb (Some p) ltac:(apply list_elem_of_In;
                                by eapply list_elem_of_lookup_2)).
  simpl in Hb. unfold wf_piece. lia.
Qed.

Lemma wf_tableb_spec (table : list (list Z)) :
  wf_tableb table = true -> Zobrist.wf_table table.
Proof.
  unfold wf_tableb, Zobrist.wf_table. rewrite andb_true_iff, Nat.eqb_eq.
  intros [Hlen Hrows]. split; [done|].
  apply Forall_forall. intros row Hrow.
  rewrite forallb_forall in Hrows. apply Nat.eqb_eq, Hrows.
  by apply list_elem_of_In.
Qed.

(** ** The theorems at concrete positions *)



(** The bound on the scores is needed: with scores near the largest
    double the score difference overflows to -Infinity, no root move is
    better than the initial -Infinity, and the search throws on the
    [null] best move at depth 2, or returns [null] when the time is up
    after depth 1, although Black has a move. *)
Lemma scores_out_of_range_overflow :
  (exists m moves,
     getAllPossibleMovesForPlayer quietBoard black = Some (m :: moves))
  /\ evaluateBoard hugeGame black = Some NegInf
  /\ findBestMoveWithAlphaBeta exampleTable exampleBlackToMove stoppedClock
       (1 # 2) hugeGame ∅ = None
  /\ exists tbl,
       findBestMoveWithAlphaBeta exampleTable exampleBlackToMove lateClock
         (1 # 2) hugeGame ∅ = Some (None, tbl).
Proof.
  split; [eexists _, _; vm_compute; reflexivity|].
  split; [vm_compute; reflexivity|].
  split; [vm_compute; reflexivity|].
  eexists. vm_compute. reflexivity.
Qed.


(** C4 at the promotion of the White 5 of [choiceBoard]. *)
Lemma promotion_pass_choiceBoard :
  let p := mkPiece white 5 false in
  let sim := mkSim (Some
      [ [Some (mkPiece white 2 true); Some (mkPiece white 5 true);
         None; None; None; None; None; None];
        emptyRow; emptyRow; emptyRow; emptyRow;
        [None; None; None; None; None; None; None; B 5];
        emptyRow; emptyRow ]) (of_Z 5) true in
  simulateFullMove 1 0 0 1 white choiceBoard = Some sim
  /\ exists (b3 : Board) (pp cp : Z),
       combinationPass b3 0 1 white
       = Some (default [] (tempBoard sim), cp)
       /\ aiScoreGain sim = of_Z (pp + cp)
       /\ pp = 5 /\ leadsToChoiceForThisPlayer sim = true
       /\ cell b3 5 5 = Some None.
Proof.
  intros p sim.
  assert (Hsim : simulateFullMove 1 0 0 1 white choiceBoard = Some sim)
    by (vm_compute; reflexivity).
  split; [exact Hsim|].
  destruct (promotion_pass_of_simulated_move 1 0 0 1 white choiceBoard
              (default [] (tempBoard sim)) sim p Hsim eq_refl eq_refl)
    as (b3 & pp & cp & Hcomb & Hgain & Hrest).
  exists b3, pp, cp. split; [exact Hcomb|]. split; [exact Hgain|].
  change (triggersPromotion p 0) with true in Hrest.
  destruct Hrest as [_ Hrest].
  replace (filter _ squares8) with [(5, 5); (5, 7)]%nat in Hrest
    by (vm_compute; reflexivity).
  destruct Hrest as (Hpp & Hleads & Hb3 & _). auto.
Defined.

(** C8 at the step of the Black 1 of [quietBoard] from (3,3) to (4,3). *)
Lemma incremental_hash_quietBoard :
  let tb : Board :=
    [ emptyRow; emptyRow; emptyRow; emptyRow;
      [None; None; None; B 1;  None; None; None; None];
      emptyRow; emptyRow;
      [None; None; None; None; None; None; None; W 1] ] in
  Zobrist.nextHash exampleTable exampleBlackToMove 1049180
    (mkPiece black 1 false) 3 3 4 3
  = Zobrist.calculateZobristKey exampleTable exampleBlackToMove tb white
  /\ is_Some (Zobrist.calculateZobristKey exampleTable exampleBlackToMove tb
                white).
Proof.
  intros tb.
  destruct (incremental_hash_of_plain_move exampleTable exampleBlackToMove
              3 3 4 3 black quietBoard tb (mkSim (Some tb) (of_Z 0) false)
              (mkPiece black 1 false) 1049180) as [Heq Hsome];
    try lia; try (vm_compute; reflexivity).
  - intros r c q Hne Hq.
    assert (Hr : (r < 8)%nat).
    { destruct (decide (r < 8)%nat); [done|].
      unfold cell in Hq. rewrite lookup_ge_None_2 in Hq; [done|simpl; lia]. }
    assert (Hc : (c < 8)%nat).
    { destruct (decide (c < 8)%nat); [done|]. unfold cell in Hq.
      destruct (quietBoard !! r) as [row|] eqn:Er; [|done].
      assert (Hlen : length row = 8%nat).
      { assert (Hwf : wf_board quietBoard) by (by apply wf_boardb_spec).
        by apply (Forall_lookup_1 _ _ _ _ (proj2 Hwf) Er). }
      rewrite (lookup_ge_None_2 row c) in Hq; [done|lia]. }
    revert Hne Hq.
    do 8 (destruct r as [|r]; [do 8 (destruct c as [|c];
            [vm_compute; try done; intros Hne; try done; by intros [= <-]|]);
            lia|]); lia.
  - split; [exact Heq|]. apply Hsome; [by apply wf_tableb_spec|].
    unfold wf_piece. simpl. lia.
Defined.

(** C9 at [clusterBoard]. *)
Lemma cluster_clusterBoard :
  let w1 := PD.mk 2 2 (mkPiece white 3 false) in
  let bk := PD.mk 3 3 (mkPiece black 4 false) in
  let w2 := PD.mk 4 4 (mkPiece white 3 false) in
  [w1; bk; w2] ∈ findValidCombinations [w1; bk; w2]
  /\ cell clusterBoardAfter 3 3 = Some None
  /\ exists cp, of_Z 4 = of_Z (0 + cp) /\ cp = 4.
Proof.
  intros w1 bk w2.
  assert (Hb3 : afterPromotion clusterBoard 5 4 4 4 (mkPiece white 3 false)
                = Some (clusterBoardMoved, 0, false))
    by (vm_compute; reflexivity).
  destruct (cluster_W3_W3_B4_captured 5 4 4 4 clusterBoard clusterBoardMoved
              clusterBoardAfter
              (mkSim (Some clusterBoardAfter) (of_Z 4) false)
              (mkPiece white 3 false) 0 false [w1; bk; w2] [w1; bk; w2]
              w1 w2 bk)
    as (Hacc & _ & Hbk & _ & cp & Hgain & Honly & _);
    try lia; try reflexivity; try exact Hb3.
  - by apply wf_boardb_spec.
  - simpl. lia.
  - apply perm_skip, perm_swap.
  - apply areConnectedOptimized_spec; [|vm_compute; reflexivity].
    apply (bool_decide_unpack _). vm_compute. exact I.
  - split; [exact Hacc|]. split; [exact Hbk|]. exists cp.
    split; [exact Hgain|]. apply Honly. intros r c q Hne Hq.
    assert (Hr : (r < 8)%nat).
    { destruct (decide (r < 8)%nat); [done|].
      unfold cell in Hq. rewrite lookup_ge_None_2 in Hq; [done|simpl; lia]. }
    assert (Hc : (c < 8)%nat).
    { destruct (decide (c < 8)%nat); [done|]. unfold cell in Hq.
      match type of Hq with
      | match ?bd !! r with _ => _ end = _ =>
          destruct (bd !! r) as [row|] eqn:Er; [|done];
          assert (Hwf : wf_board bd) by (by apply wf_boardb_spec);
          pose proof (Forall_lookup_1 _ _ _ _ (proj2 Hwf) Er) as Hlen
      end.
      simpl in Hlen. rewrite (lookup_ge_None_2 row c) in Hq; [done|lia]. }
    revert Hne Hq.
    do 8 (destruct r as [|r]; [do 8 (destruct c as [|c];
            [vm_compute; try done; intros Hne; try done; by intros [= <-]|]);
            lia|]); lia.
Defined.

(** C10 at [choiceBoard] and the same board with no piece promoted. *)
Lemma zobrist_blind_choiceBoard :
  Zobrist.calculateZobristKey exampleTable exampleBlackToMove choiceBoard white
  = Zobrist.calculateZobristKey exampleTable exampleBlackToMove
      choiceBoardUnpromoted white.
Proof.
  apply (zobrist_blind_to_promotion exampleTable exampleBlackToMove).
  unfold same_up_to_promotion, choiceBoard, choiceBoardUnpromoted, emptyRow.
  simpl. repeat (constructor; simpl; try done).
Defined.

(** * Further properties of the rules engine, the hasher and the search *)

(** ** The move generator *)

Lemma sideStep_NoDup (b : Board) (nr col : nat) (vm vm' : list (nat * nat))
    (d : Z) :
  sideStep b nr col vm d = Some vm' ->
  NoDup vm ->
  (0 <= Z.of_nat col + d < 8 ->
   forall x, x ∈ vm -> x.2 <> Z.to_nat (Z.of_nat col + d)) ->
  NoDup vm'.
Proof.
  unfold sideStep. destruct (inBounds _) eqn:Hb; [|by intros [= <-]].
  apply inBounds_true in Hb.
  destruct (cell b nr _) as [[p|]|]; [by intros [= <-]| |done].
  intros [= <-] Hnd Hfresh. apply NoDup_app. split_and!; [done| |].
  - intros x Hx ->%list_elem_of_singleton. by apply (Hfresh Hb _ Hx).
  - apply NoDup_singleton.
Qed.

(** The destinations of one piece are pairwise distinct. *)
Lemma getValidMovesOnBoard_NoDup (row col : nat) (b : Board) (k : Color)
    (vm : list (nat * nat)) :
  getValidMovesOnBoard row col b k = Some vm -> NoDup vm.
Proof.
  unfold getValidMovesOnBoard. destruct (inBounds _); [|intros [= <-]; constructor].
  set (nr := Z.to_nat (Z.of_nat row + direction k)).
  destruct (cell b nr col) as [straight|]; [|done]. simpl foldM.
  destruct (sideStep b nr col _ (-1)) as [vm1|] eqn:E1; [|done].
  destruct (sideStep b nr col vm1 1) as [vm2|] eqn:E2; [|done].
  intros [= <-].
  assert (Hst : forall x,
    x ∈ match straight with Some _ => [] | None => [(nr, col)] end ->
    x.2 = col).
  { intros x. destruct straight; [by rewrite elem_of_nil|].
    by intros ->%list_elem_of_singleton. }
  assert (Hvm1 : forall x, x ∈ vm1 -> x.2 = col \/
            (x.2 = Z.to_nat (Z.of_nat col + -1) /\ 0 <= Z.of_nat col + -1)).
  { intros x Hx. apply (sideStep_spec _ _ _ _ _ _ E1) in Hx as [Hx|(-> & ? & _)].
    - left. by apply Hst.
    - right. simpl. split; [done|lia]. }
  eapply sideStep_NoDup; [exact E2| |].
  - eapply sideStep_NoDup; [exact E1| |].
    + destruct straight; [constructor|apply NoDup_singleton].
    + intros Hb x Hx%Hst Heq. lia.
  - intros Hb x Hx Heq. destruct (Hvm1 x Hx) as [Hc|[Hc Hge]]; lia.
Qed.

(** X1. The move generator returns exactly the legal moves of the side on
    the board, each once. *)
Theorem move_generator_exact (side : Color) (b : Board)
    (moves : list Move.t) :
  getAllPossibleMovesForPlayerOnBoard side b = Some moves ->
  (forall m, m ∈ moves <-> legalMove b side m) /\ NoDup moves.
Proof.
  intros Hgen. split; [by apply generated_moves_legal|].
  revert Hgen. unfold getAllPossibleMovesForPlayerOnBoard.
  assert (H : forall (sqs : list (nat * nat)) acc moves,
    NoDup sqs -> NoDup acc ->
    (forall m, m ∈ acc -> (Move.fromRow m, Move.fromCol m) ∉ sqs) ->
    foldM (fun moves '(r, c) =>
           match cell b r c with
           | None => None
           | Some None => Some moves
           | Some (Some piece) =>
               if decide (color piece = side) then
                 match getValidMovesOnBoard r c b (color piece) with
                 | None => None
                 | Some validMoves =>
                     Some (moves ++ movesOfPiece r c piece validMoves)
                 end
               else Some moves
           end) acc sqs = Some moves ->
    NoDup moves).
  { induction sqs as [|[r c] sqs IH]; intros acc moves' Hsq Hacc Hfrom; simpl.
    - by intros [= <-].
    - apply NoDup_cons in Hsq as [Hrc Hsq].
      assert (Hfrom' : forall m, m ∈ acc ->
                (Move.fromRow m, Move.fromCol m) ∉ sqs).
      { intros m Hm Hin. apply (Hfrom m Hm). by right. }
      destruct (cell b r c) as [[piece|]|]; [| |done]; [|by apply IH].
      destruct (decide _); [|by apply IH].
      destruct (getValidMovesOnBoard r c b (color piece)) as [vm|] eqn:Ev;
        [|done].
      apply IH; [done| |].
      + apply NoDup_app. split_and!; [done| |].
        * intros m Hm Hm'. unfold movesOfPiece in Hm'.
          apply list_elem_of_fmap in Hm' as (x & -> & _).
          apply (Hfrom _ Hm). by left.
        * unfold movesOfPiece. apply NoDup_fmap_2.
          -- intros [r1 c1] [r2 c2] [= -> ->]. done.
          -- by eapply getValidMovesOnBoard_NoDup.
      + intros m [Hm|Hm]%elem_of_app; [by apply Hfrom'|].
        unfold movesOfPiece in Hm.
        apply list_elem_of_fmap in Hm as (x & -> & _). done. }
  apply H; [apply NoDup_squares8|constructor|].
  intros m Hm. by apply elem_of_nil in Hm.
Qed.

(** X3. Whenever the generator returns, [hasValidMoves] returns whether
    the list of moves is non-empty. *)
Theorem hasValidMoves_iff_generator (b : Board) (side : Color)
    (moves : list Move.t) :
  getAllPossibleMovesForPlayer b side = Some moves ->
  hasValidMoves b side = Some (negb (bool_decide (moves = []))).
Proof.
  unfold getAllPossibleMovesForPlayer, hasValidMoves.
  assert (H : forall (sqs : list (nat * nat)) acc moves,
    foldM (fun moves '(r, c) =>
           match cell b r c with
           | None => None
           | Some None => Some moves
           | Some (Some piece) =>
               if decide (color piece = side) then
                 match getValidMoves b r c with
                 | None => None
                 | Some validMoves =>
                     Some (moves ++ movesOfPiece r c piece validMoves)
                 end
               else Some moves
           end) acc sqs = Some moves ->
    exists new, moves = acc ++ new
                /\ hasValidMovesFrom b side sqs
                   = Some (negb (bool_decide (new = [])))).
  { induction sqs as [|[r c] sqs IH]; intros acc moves'; simpl.
    - intros [= <-]. exists []. by rewrite app_nil_r.
    - destruct (cell b r c) as [[piece|]|]; [| |done]; [|by apply IH].
      destruct (decide _); [|by apply IH].
      destruct (getValidMoves b r c) as [[|x vm]|]; [| |done].
      + intros (new & -> & Hhas)%IH. exists new. simpl.
        by rewrite app_nil_r.
      + intros (new & -> & _)%IH. eexists. rewrite <- app_assoc.
        split; [done|]. done. }
  intros (new & -> & Hhas)%H. done.
Qed.

(** ** Connected groups of pieces *)

(** X4. [areConnectedOptimized] accepts the lists of at most one entry,
    and the lists of entries on pairwise distinct squares that form one
    group under 8-directional adjacency; a list of two or more entries
    that names a square twice is rejected. *)
Theorem areConnectedOptimized_iff (ps : list PD.t) :
  areConnectedOptimized ps = true <->
  (length ps <= 1)%nat \/ (NoDup (posOf <$> ps) /\ connected ps).
Proof.
  destruct (decide (NoDup (posOf <$> ps))) as [Hnd|Hnd].
  - rewrite (areConnectedOptimized_spec ps Hnd). split; [auto|].
    intros [Hlen|[_ ?]]; [|done].
    apply areConnectedOptimized_spec; [done|].
    unfold areConnectedOptimized. by destruct ps as [|? [|? ?]]; [..|simpl in Hlen; lia].
  - split; [|intros [Hlen|[? _]]; [|done]].
    + unfold areConnectedOptimized.
      destruct ps as [|p0 [|p1 ps']].
      * exfalso. apply Hnd. constructor.
      * exfalso. apply Hnd. apply NoDup_singleton.
      * set (ps := p0 :: p1 :: ps') in *. set (pS := posOf <$> ps) in *.
        assert (Hinv0 : bfsInv pS (posOf p0) [posOf p0] [posOf p0]).
        { split.
          - by left.
          - apply NoDup_singleton.
          - intros v ->%list_elem_of_singleton.
            split; [by left|apply rtc_refl].
          - done.
          - intros v w ->%list_elem_of_singleton Hn. exfalso. apply Hn.
            by left. }
        destruct (bfs_terminates pS (posOf p0) (length ps) _ _ Hinv0)
          as (vS & -> & Hinv).
        { unfold pS. rewrite length_fmap. simpl. lia. }
        rewrite Nat.eqb_eq. intros Hlen. exfalso. apply Hnd.
        assert (Hsub : vS ⊆+ pS).
        { apply NoDup_submseteq; [apply Hinv|]. intros v Hv.
          by apply (inv_reach _ _ _ _ Hinv). }
        assert (Hperm : vS ≡ₚ pS).
        { apply submseteq_length_Permutation; [done|].
          unfold pS. rewrite length_fmap. lia. }
        rewrite <- Hperm. apply Hinv.
    + exfalso. apply Hnd. destruct ps as [|? [|? ?]]; simpl in *;
        [constructor|apply NoDup_singleton|lia].
Qed.
(** ** The random keys of the hasher *)

Lemma random32_range (r : Q) :
  (0 <= r)%Q /\ (r < 1)%Q -> 0 <= random32 r < 2 ^ 32.
Proof.
  intros [H0 H1]. unfold random32. split.
  - rewrite <- (Qfloor_Z 0). apply Qfloor_resp_le.
    apply Qmult_le_0_compat; [done|]. by rewrite <- (Zle_Qle 0).
  - rewrite (Zlt_Qlt _ (2 ^ 32)).
    eapply Qle_lt_trans; [apply Qfloor_le|].
    rewrite <- (Qmult_1_l (inject_Z (2 ^ 32))) at 2.
    apply Qmult_lt_compat_r; [|done]. by rewrite <- (Zlt_Qlt 0).
Qed.

Lemma testbit_high (b n m : Z) :
  0 <= b < 2 ^ n -> 0 <= n <= m -> Z.testbit b m = false.
Proof.
  intros Hb Hn. rewrite <- (Z.mod_small b (2 ^ n)) by done.
  by apply Z.mod_pow2_bits_high.
Qed.

Lemma lor_shiftl_add (a b : Z) :
  0 <= b < 2 ^ 32 -> Z.lor (Z.shiftl a 32) b = a * 2 ^ 32 + b.
Proof.
  intros Hb. rewrite <- Z.shiftl_mul_pow2 by lia.
  assert (Hland : Z.land (Z.shiftl a 32) b = 0).
  { apply Z.bits_inj'. intros n Hn.
    rewrite Z.land_spec, Z.bits_0, Z.shiftl_spec by done.
    destruct (Z.lt_ge_cases n 32).
    - rewrite Z.testbit_neg_r by lia. done.
    - rewrite (testbit_high b 32 n) by lia. apply andb_false_r. }
  rewrite <- (Z.lxor_lor _ _ Hland). symmetry.
  by apply Z.add_nocarry_lxor.
Qed.

Lemma random64_range (rLow rHigh : Q) :
  (0 <= rLow)%Q /\ (rLow < 1)%Q -> (0 <= rHigh)%Q /\ (rHigh < 1)%Q ->
  0 <= random64 rLow rHigh < 2 ^ 64.
Proof.
  intros Hlow%random32_range Hhigh%random32_range.
  unfold random64. rewrite lor_shiftl_add by done. lia.
Qed.

(** X5. For any two draws of [Math.random()], [random64] is a number of
    at most 64 bits whose upper half is made of the second draw and whose
    lower half is made of the first: the two halves do not overlap and
    can be read back. *)
Theorem random64_is_64_bit (rLow rHigh : Q) :
  (0 <= rLow)%Q /\ (rLow < 1)%Q -> (0 <= rHigh)%Q /\ (rHigh < 1)%Q ->
  0 <= random64 rLow rHigh < 2 ^ 64
  /\ random64 rLow rHigh = random32 rHigh * 2 ^ 32 + random32 rLow
  /\ Z.shiftr (random64 rLow rHigh) 32 = random32 rHigh
  /\ Z.land (random64 rLow rHigh) (2 ^ 32 - 1) = random32 rLow.
Proof.
  intros Hlow%random32_range Hhigh%random32_range.
  assert (Heq : random64 rLow rHigh = random32 rHigh * 2 ^ 32 + random32 rLow)
    by (by apply lor_shiftl_add).
  rewrite Heq. split_and!.
  - lia.
  - lia.
  - done.
  - rewrite Z.shiftr_div_pow2 by lia.
    rewrite Z.div_add_l by lia. rewrite Z.div_small by done. lia.
  - change (2 ^ 32 - 1) with (Z.ones 32). rewrite Z.land_ones by lia.
    rewrite Z.add_comm, Z.mod_add by lia. by apply Z.mod_small.
Qed.

Lemma lxor_range (a b n : Z) :
  0 <= n -> 0 <= a < 2 ^ n -> 0 <= b < 2 ^ n -> 0 <= Z.lxor a b < 2 ^ n.
Proof.
  intros Hn Ha Hb.
  assert (H0 : 0 <= Z.lxor a b) by (apply Z.lxor_nonneg; lia).
  split; [done|].
  destruct (Z.eq_dec (Z.lxor a b) 0) as [->|Hne]; [lia|].
  apply Z.log2_lt_pow2; [lia|].
  eapply Z.le_lt_trans; [apply Z.log2_lxor; lia|].
  destruct (Z.eq_dec a 0) as [->|Ha0], (Z.eq_dec b 0) as [->|Hb0].
  - by rewrite Z.lxor_0_l in Hne.
  - rewrite Z.max_r by (apply Z.log2_nonneg). apply Z.log2_lt_pow2; lia.
  - rewrite Z.max_l by (apply Z.log2_nonneg). apply Z.log2_lt_pow2; lia.
  - apply Z.max_lub_lt; apply Z.log2_lt_pow2; lia.
Qed.

Lemma exampleRand_range (k : nat) :
  (0 <= exampleRand k)%Q /\ (exampleRand k < 1)%Q.
Proof.
  unfold exampleRand, Qle, Qlt. simpl.
  pose proof (Nat.mod_upper_bound k 1000). lia.
Qed.

Section BuiltTable.

Variable rand : nat -> Q.
Hypothesis Hrand : forall k, (0 <= rand k)%Q /\ (rand k < 1)%Q.

Lemma ZOBRIST_table_wf : Zobrist.wf_table (ZOBRIST.table rand).
Proof.
  unfold Zobrist.wf_table, ZOBRIST.table. split.
  - by rewrite length_fmap, length_seq.
  - apply Forall_fmap, Forall_forall. intros piece _. unfold compose.
    by rewrite length_fmap, length_seq.
Qed.

Lemma ZOBRIST_key_range (pieceIndex : Z) (squareIndex : nat) (k : Z) :
  Zobrist.key (ZOBRIST.table rand) pieceIndex squareIndex = Some k ->
  0 <= k < 2 ^ 64.
Proof.
  unfold Zobrist.key. destruct (_ <? _); [done|].
  destruct (ZOBRIST.table rand !! Z.to_nat pieceIndex) as [keys|] eqn:Ek;
    [|done].
  apply list_lookup_fmap_Some in Ek as (piece & -> & _).
  intros (square & -> & _)%list_lookup_fmap_Some.
  by apply random64_range.
Qed.

End BuiltTable.
Lemma xorAll_range (ks : list Z) :
  Forall (fun k => 0 <= k < 2 ^ 64) ks -> 0 <= Zobrist.xorAll ks < 2 ^ 64.
Proof.
  induction 1 as [|k ks Hk _ IH]; simpl; [lia|]. by apply lxor_range.
Qed.

(** X6. With the table as [zobrist.js] builds it, whatever
    [Math.random()] returns: the table has 16 rows of 64 keys, so the hash
    of every 8x8 board of pieces numbered 1..8 is defined, for either
    side to move, and it is a number of at most 64 bits. *)
Theorem ZOBRIST_hashes_every_position (rand : nat -> Q) (b : Board)
    (side : Color) :
  (forall k, (0 <= rand k)%Q /\ (rand k < 1)%Q) ->
  wf_board b -> wf_pieces b ->
  Zobrist.wf_table (ZOBRIST.table rand)
  /\ exists h,
       Zobrist.calculateZobristKey (ZOBRIST.table rand)
         (ZOBRIST.blackToMove rand) b side = Some h
       /\ 0 <= h < 2 ^ 64.
Proof.
  intros Hrand Hwf Hwp.
  pose proof (ZOBRIST_table_wf rand) as Htable. split; [done|].
  destruct (calculateZobristKey_total (ZOBRIST.table rand)
              (ZOBRIST.blackToMove rand) Htable b side Hwf Hwp) as [h Hh].
  exists h. split; [done|]. rewrite calculateZobristKey_xor in Hh.
  destruct (mapM _ squares8) as [ks|] eqn:Eks; [|done].
  assert (Hks : 0 <= Zobrist.xorAll ks < 2 ^ 64).
  { apply xorAll_range. apply mapM_Some in Eks.
    apply (Forall2_Forall_r _ _ _ _ Eks). apply Forall_forall.
    intros sq _ k. unfold Zobrist.squareKey.
    destruct (cell b sq.1 sq.2) as [[p|]|]; [| |done].
    - by apply ZOBRIST_key_range.
    - intros [= <-]. lia. }
  injection Hh as <-. destruct side; [done|].
  apply lxor_range; [lia|done|]. by apply random64_range.
Qed.

(** X7. [getPieceIndex] sends the 16 kinds of pieces (a colour and a
    number from 1 to 8) to 16 different rows 0..15 of the table; with
    numbers outside 1..8 rows are shared: a White piece numbered [n + 8]
    gets the row of the Black piece numbered [n]. *)
Theorem getPieceIndex_distinct_rows (p q : Piece) :
  wf_piece p -> wf_piece q ->
  0 <= Zobrist.getPieceIndex p <= 15
  /\ (Zobrist.getPieceIndex p = Zobrist.getPieceIndex q <->
      color p = color q /\ number p = number q)
  /\ forall n f1 f2,
       Zobrist.getPieceIndex (mkPiece white (n + 8) f1)
       = Zobrist.getPieceIndex (mkPiece black n f2).
Proof.
  unfold wf_piece, Zobrist.getPieceIndex. intros Hp Hq. split_and!.
  - destruct (color p); lia.
  - destruct (color p); lia.
  - destruct (color p), (color q); split;
      first [intros [_ ->]; done | intros [[=] _] | intros H; split; [done|lia]
            | intros H; exfalso; lia ].
  - intros n f1 f2. simpl. lia.
Qed.

(** X8. The incremental hash update is undone by the update of the move
    back, and the updates of two moves can be applied in either order:
    positions reached by the same steps in another order get the same
    hash. *)
Theorem nextHash_round_trip (table : list (list Z)) (blackToMove : Z)
    (h h1 : Z) (p : Piece) (fr fc tr tc : nat) :
  Zobrist.nextHash table blackToMove h p fr fc tr tc = Some h1 ->
  Zobrist.nextHash table blackToMove h1 p tr tc fr fc = Some h
  /\ forall (q : Piece) (fr' fc' tr' tc' : nat) (h2 : Z),
       Zobrist.nextHash table blackToMove h q fr' fc' tr' tc' = Some h2 ->
       Zobrist.nextHash table blackToMove h1 q fr' fc' tr' tc'
       = Zobrist.nextHash table blackToMove h2 p fr fc tr tc
       /\ is_Some (Zobrist.nextHash table blackToMove h1 q fr' fc' tr' tc').
Proof.
  unfold Zobrist.nextHash.
  destruct (Zobrist.key table _ (fr * 8 + fc)) as [k1|]; [|done].
  destruct (Zobrist.key table _ (tr * 8 + tc)) as [k2|]; [|done].
  intros [= <-]. split.
  - f_equal. xor_solve.
  - intros q fr' fc' tr' tc' h2.
    destruct (Zobrist.key table _ (fr' * 8 + fc')) as [k3|]; [|done].
    destruct (Zobrist.key table _ (tr' * 8 + tc')) as [k4|]; [|done].
    intros [= <-]. split; [|eauto]. f_equal. xor_solve.
Qed.
(** ** The static evaluation *)

Lemma num_eq_step_neg (a b pv : num) :
  num_eq b (num_neg a) ->
  num_eq (num_sub b pv) (num_neg (num_add a pv))
  /\ num_eq (num_add b pv) (num_neg (num_sub a pv)).
Proof.
  intros H. unfold num_sub. split.
  - eapply num_eq_trans; [|apply num_add_neg].
    apply num_add_proper; [exact H|apply num_eq_refl].
  - eapply num_eq_trans; [|apply num_add_neg].
    apply num_add_proper; [exact H|]. apply num_eq_sym, num_neg_involutive.
Qed.

(** X9. The evaluation is zero-sum: seen from Black it is the negation of
    the evaluation seen from White, and it throws for one colour exactly
    when it throws for the other. *)
Theorem evaluateBoard_zero_sum (game : Game.t) :
  match evaluateBoard game white, evaluateBoard game black with
  | Some v, Some w => num_eq w (num_neg v)
  | None, None => True
  | _, _ => False
  end.
Proof.
  unfold evaluateBoard. destruct (Game.board game) as [board|]; [|done].
  assert (H : forall (sqs : list (nat * nat)) (sw sb : num),
    num_eq sb (num_neg sw) ->
    match
      foldM (fun score '(r, c) =>
               match cell board r c with
               | None => None
               | Some None => Some score
               | Some (Some piece) =>
                   if decide (color piece = white)
                   then Some (num_add score (pieceValue piece r))
                   else Some (num_sub score (pieceValue piece r))
               end) sw sqs,
      foldM (fun score '(r, c) =>
               match cell board r c with
               | None => None
               | Some None => Some score
               | Some (Some piece) =>
                   if decide (color piece = black)
                   then Some (num_add score (pieceValue piece r))
                   else Some (num_sub score (pieceValue piece r))
               end) sb sqs
    with
    | Some v, Some w => num_eq w (num_neg v)
    | None, None => True
    | _, _ => False
    end).
  { induction sqs as [|[r c] sqs IH]; intros sw sb Hs; simpl; [done|].
    destruct (cell board r c) as [[piece|]|]; [| |done]; [|by apply IH].
    destruct (num_eq_step_neg sw sb (pieceValue piece r) Hs) as [H1 H2].
    destruct (color piece); simpl; by apply IH. }
  apply H.
  (* the score difference changes sign with the root colour *)
  set (ws := Game.whiteScore game). set (bs := Game.blackScore game).
  eapply num_eq_trans; [|apply num_add_neg].
  apply num_add_proper; [simpl; ring|]. unfold num_sub.
  eapply num_eq_trans; [apply num_add_comm|].
  eapply num_eq_trans; [|apply num_add_neg].
  apply num_add_proper; [apply num_eq_refl|].
  apply num_eq_sym, num_neg_involutive.
Qed.
(** ** The transposition table *)

Lemma table_grows_refl (depth : nat) (tbl : TT) : table_grows depth tbl tbl.
Proof. split; [done|]. intros k e He. by left. Qed.

Lemma table_grows_trans (d : nat) (t1 t2 t3 : TT) :
  table_grows d t1 t2 -> table_grows d t2 t3 -> table_grows d t1 t3.
Proof.
  intros [H1 H1'] [H2 H2']. split; [auto|].
  intros k e He. destruct (H2' k e He) as [He2|?]; [|by right].
  by apply H1'.
Qed.

Lemma table_grows_mono (d d' : nat) (t1 t2 : TT) :
  (d <= d')%nat -> table_grows d t1 t2 -> table_grows d' t1 t2.
Proof.
  intros Hd [H1 H2]. split; [done|]. intros k e He.
  destruct (H2 k e He) as [?|?]; [by left|right; lia].
Qed.

Lemma table_grows_store (d : nat) (tbl : TT) (h : Z) (v : num) (f : Flag) :
  table_grows (S d) tbl (<[h := Entry.mk v (S d) f]> tbl).
Proof.
  split.
  - intros k Hk. destruct (decide (h = k)) as [->|Hne].
    + rewrite lookup_insert_eq. eauto.
    + by rewrite lookup_insert_ne.
  - intros k e. destruct (decide (h = k)) as [->|Hne].
    + rewrite lookup_insert_eq. intros [= <-]. right. simpl. lia.
    + rewrite lookup_insert_ne by done. by left.
Qed.

Section TableGrows.

Variable table : list (list Z).
Variable blackToMove : Z.
Variable d : nat.
Variable search : Game.t -> num -> num -> Z -> Search num.
Hypothesis Hsearch : forall g a b h t v t',
  search g a b h t = Some (v, t') -> table_grows d t t'.

Lemma maxLoop_table_grows (game : Game.t) (h : Z) (beta : num)
    (moves : list Move.t) (alpha best v : num) (tbl tbl' : TT) :
  maxLoop table blackToMove search game h beta moves alpha best tbl
  = Some (v, tbl') ->
  table_grows d tbl tbl'.
Proof.
  revert alpha best tbl. induction moves as [|move rest IH];
    intros alpha best tbl; simpl.
  - unfold ret. intros [= <- <-]. apply table_grows_refl.
  - unfold bind, lift.
    destruct (hashAfter table blackToMove h move) as [nh|]; [|done].
    destruct (simulate game move _) as [sim|]; [|done].
    destruct (search _ _ _ _ tbl) as [[v1 tbl1]|] eqn:Es; [|done].
    apply Hsearch in Es.
    destruct (num_le _ _).
    + unfold ret. by intros [= <- <-].
    + intros H%IH. by eapply table_grows_trans.
Qed.

Lemma minLoop_table_grows (game : Game.t) (h : Z) (alpha : num)
    (moves : list Move.t) (beta best : num) (r : num * num)
    (tbl tbl' : TT) :
  minLoop table blackToMove search game h alpha moves beta best tbl
  = Some (r, tbl') ->
  table_grows d tbl tbl'.
Proof.
  revert beta best tbl. induction moves as [|move rest IH];
    intros beta best tbl; simpl.
  - unfold ret. intros [= <- <-]. apply table_grows_refl.
  - unfold bind, lift.
    destruct (hashAfter table blackToMove h move) as [nh|]; [|done].
    destruct (simulate game move _) as [sim|]; [|done].
    destruct (search _ _ _ _ tbl) as [[v1 tbl1]|] eqn:Es; [|done].
    apply Hsearch in Es.
    destruct (num_le _ _).
    + unfold ret. by intros [= <- <-].
    + intros H%IH. by eapply table_grows_trans.
Qed.

End TableGrows.

(** X13. The search only adds to the table: no entry is deleted, and
    every entry written during a call of depth [depth] has a depth
    between 1 and [depth]; nodes of depth 0 are never stored. *)
Theorem alphaBetaSearch_table_grows (table : list (list Z))
    (blackToMove : Z) (depth : nat) (aiRootColor : Color) (game : Game.t)
    (alpha beta v : num) (isMaximizingPlayer : bool) (currentHash : Z)
    (tbl tbl' : TT) :
  alphaBetaSearch table blackToMove depth aiRootColor game alpha beta
    isMaximizingPlayer currentHash tbl = Some (v, tbl') ->
  table_grows depth tbl tbl'.
Proof.
  revert game alpha beta v isMaximizingPlayer currentHash tbl tbl'.
  induction depth as [|depth IH];
    intros game alpha beta v isMax h tbl tbl'; simpl.
  - destruct (probe _ _ _ _) as [v0|[a b]].
    + intros [= <- <-]. apply table_grows_refl.
    + unfold lift. destruct (evaluateBoard _ _); [|done].
      intros [= <- <-]. apply table_grows_refl.
  - destruct (probe _ _ _ _) as [v0|[a b]].
    { intros [= <- <-]. apply table_grows_refl. }
    assert (Hleaf : lift (evaluateBoard game aiRootColor) tbl
                    = Some (v, tbl') -> table_grows (S depth) tbl tbl').
    { unfold lift. destruct (evaluateBoard _ _); [|done].
      intros [= <- <-]. apply table_grows_refl. }
    destruct (Game.gameOver game); [exact Hleaf|].
    unfold expand, bind, lift, store, ret.
    destruct (Game.board game) as [board|]; [|done].
    destruct (hasValidMoves board _) as [[|]|]; simpl; [| |done];
      [|exact Hleaf]. clear Hleaf.
    destruct (getAllPossibleMovesForPlayer board _) as [moves|]; [|done].
    destruct isMax.
    + destruct (maxLoop _ _ _ _ _ _ _ _ _ tbl) as [[bv tbl1]|] eqn:El;
        [|done].
      intros [= <- <-].
      eapply table_grows_trans; [|apply table_grows_store].
      apply table_grows_mono with depth; [lia|].
      eapply maxLoop_table_grows; [|exact El].
      intros g a' b' h' t v' t' Hs. exact (IH _ _ _ _ _ _ _ _ Hs).
    + destruct (minLoop _ _ _ _ _ _ _ _ _ tbl) as [[[bv b'] tbl1]|] eqn:El;
        [|done].
      intros [= <- <-].
      eapply table_grows_trans; [|apply table_grows_store].
      apply table_grows_mono with depth; [lia|].
      eapply minLoop_table_grows; [|exact El].
      intros g a' b'' h' t v' t' Hs. exact (IH _ _ _ _ _ _ _ _ Hs).
Qed.

(** ** The order of the root moves *)

Lemma findIndex_Some {A} (f : A -> bool) (l : list A) (i : nat) :
  findIndex f l = Some i ->
  exists x, l !! i = Some x /\ f x = true
            /\ forall j y, (j < i)%nat -> l !! j = Some y -> f y = false.
Proof.
  revert i. induction l as [|x l IH]; intros i; simpl; [done|].
  destruct (f x) eqn:Ex.
  - intros [= <-]. exists x. split; [done|]. split; [done|]. lia.
  - destruct (findIndex f l) as [j|]; [|done]. intros [= <-].
    destruct (IH j eq_refl) as (y & Hy & Hfy & Hbefore).
    exists y. split; [done|]. split; [done|].
    intros [|k] z Hk; simpl; [by intros [= <-]|].
    apply Hbefore. lia.
Qed.

Lemma findIndex_None {A} (f : A -> bool) (l : list A) :
  findIndex f l = None <-> forall x, x ∈ l -> f x = false.
Proof.
  induction l as [|x l IH]; simpl.
  - split; [|done]. intros _ x Hx. by apply elem_of_nil in Hx.
  - destruct (f x) eqn:Ex.
    + split; [done|]. intros H. rewrite (H x) in Ex; [done|by left].
    + destruct (findIndex f l) as [j|].
      * split; [done|]. intros H. exfalso.
        assert (Hn : Some j = None); [|done].
        apply IH. intros y Hy. apply H. by right.
      * split; [|done]. intros _ y [->|Hy]%elem_of_cons; [done|].
        by apply IH.
Qed.

(** X15. Putting the best move of the previous depth first only reorders
    the moves: the list searched is a permutation of the legal moves. The
    first move between the squares of the previous best move, if there is
    one, goes to the front and the others keep their order; without one
    the list is left as it is. *)
Theorem prioritize_reorders (possibleMoves : list Move.t)
    (bestMoveSoFar : Move.t) :
  prioritize possibleMoves bestMoveSoFar ≡ₚ possibleMoves
  /\ ((exists m, m ∈ possibleMoves /\ sameSquares bestMoveSoFar m = true) ->
      exists i m0,
        possibleMoves !! i = Some m0
        /\ sameSquares bestMoveSoFar m0 = true
        /\ (forall j y, (j < i)%nat -> possibleMoves !! j = Some y ->
                        sameSquares bestMoveSoFar y = false)
        /\ prioritize possibleMoves bestMoveSoFar
           = m0 :: delete i possibleMoves)
  /\ ((forall m, m ∈ possibleMoves -> sameSquares bestMoveSoFar m = false) ->
      prioritize possibleMoves bestMoveSoFar = possibleMoves).
Proof.
  unfold prioritize.
  destruct (findIndex _ _) as [i|] eqn:Ei.
  - destruct (findIndex_Some _ _ _ Ei) as (m0 & Hm0 & Hf & Hbefore).
    rewrite Hm0. split_and!.
    + symmetry. by apply delete_Permutation.
    + intros _. exists i, m0. done.
    + intros Hnone. rewrite (Hnone m0) in Hf; [done|].
      by eapply list_elem_of_lookup_2.
  - split_and!; [done| |done].
    intros (m & Hm & Hf). rewrite findIndex_None in Ei.
    rewrite (Ei m Hm) in Hf. done.
Qed.
(** ** What a simulated move does to the board *)

(** X16. A simulated move relocates one piece and otherwise only removes
    pieces: the origin is empty afterwards; the mover stands on the
    destination, promoted if it reached its promotion rank unpromoted; no
    other piece of the mover's colour is touched; and every other square
    holds what it held or has been emptied. *)
Theorem simulateFullMove_moves_one_piece (fr fc tr tc : nat) (side : Color)
    (b tb : Board) (res : SimResult) (p : Piece) :
  simulateFullMove fr fc tr tc side b = Some res ->
  tempBoard res = Some tb ->
  cellq b fr fc = Some p ->
  cell tb fr fc = Some None
  /\ cell tb tr tc
     = Some (Some (if triggersPromotion p tr then promote p else p))
  /\ (forall r c q, (r, c) <> (fr, fc) -> cell b r c = Some (Some q) ->
                    color q = side -> cell tb r c = Some (Some q))
  /\ (forall r c, (r, c) <> (tr, tc) ->
                  cell tb r c = cell b r c \/ cell tb r c = Some None).
Proof.
  intros Hsim Htb Hp.
  destruct (simulateFullMove_phases _ _ _ _ _ _ _ _ Hsim Htb)
    as (p' & b1 & b2 & b3 & pp & cp & Hfrom & Hside & Hto & E1 & E2 & E3 & E4
        & Hg).
  apply cellq_cell in Hp. assert (p' = p) as -> by congruence.
  pose proof (fun r c => relocate_cell _ _ _ _ _ _ _ _ r c E1 E2) as Hb2.
  destruct (promotionPass_effect _ _ _ _ _ _ _ _ _ _ Hfrom Hto Hb2 E3)
    as (H3from & H3to & H3other).
  pose proof (fun r c => combinationPass_cell _ _ _ _ _ _ r c E4) as Htbc.
  assert (Hmover : color (if triggersPromotion p tr then promote p else p)
                   = side) by (by destruct (triggersPromotion p tr)).
  split_and!.
  - destruct (Htbc fr fc) as [->|[-> _]]; done.
  - destruct (Htbc tr tc) as [->|[_ (q & Hq & Hne)]]; [done|].
    rewrite H3to in Hq. injection Hq as <-. done.
  - intros r c q Hnf Hq Hc.
    assert (Hnt : (r, c) <> (tr, tc)) by (intros [= -> ->]; congruence).
    assert (H3 : cell b3 r c = Some (Some q)).
    { destruct H3other as [[_ Hother]|(m & _ & _ & _ & Hm & _ & _ & Hother)].
      - by rewrite Hother.
      - rewrite Hother; [done..|]. intros <-.
        apply matchAt_true in Hm as (q' & Hq' & Hc' & _). simpl in Hq'.
        assert (q' = q) as -> by congruence.
        rewrite Hside in Hc'. apply (opponent_ne side). congruence. }
    destruct (Htbc r c) as [->|[_ (q' & Hq' & Hne)]]; [done|].
    congruence.
  - intros r c Hnt.
    assert (H3 : cell b3 r c = cell b r c \/ cell b3 r c = Some None).
    { destruct (decide ((r, c) = (fr, fc))) as [[= -> ->]|Hnf]; [by right|].
      destruct H3other as [[_ Hother]|(m & _ & _ & _ & _ & _ & Hm & Hother)].
      - left. by apply Hother.
      - destruct (decide ((r, c) = m)) as [<-|Hnm]; [by right|].
        left. by apply Hother. }
    destruct (Htbc r c) as [->|[-> _]]; [done|by right].
Qed.

(** ** Points and material *)

(** X17. The points of a simulated move are the material it takes: the
    score gain is the sum of the numbers of the opposing pieces on the
    board before the move minus that sum afterwards; and for a move
    between squares of the 8x8 board the material of the mover is
    unchanged. *)
Theorem gain_is_captured_material (fr fc tr tc : nat) (side : Color)
    (b tb : Board) (res : SimResult) :
  simulateFullMove fr fc tr tc side b = Some res ->
  tempBoard res = Some tb ->
  aiScoreGain res
  = of_Z (material b (opponent side) - material tb (opponent side))
  /\ ((fr < 8)%nat -> (fc < 8)%nat -> (tr < 8)%nat -> (tc < 8)%nat ->
      material tb side = material b side).
Proof.
  intros Hsim Htb.
  destruct (simulateFullMove_phases _ _ _ _ _ _ _ _ Hsim Htb)
    as (p & b1 & b2 & b3 & pp & cp & Hfrom & Hside & Hto & E1 & E2 & E3 & E4
        & Hg).
  pose proof (fun r c => relocate_cell _ _ _ _ _ _ _ _ r c E1 E2) as Hb2.
  destruct (promotionPass_effect _ _ _ _ _ _ _ _ _ _ Hfrom Hto Hb2 E3)
    as (H3from & H3to & H3other).
  destruct (combinationPass_material _ _ _ _ _ _ E4) as [Hopp Hown].
  assert (Hne : (fr, fc) <> (tr, tc)) by (intros [= -> ->]; congruence).
  set (mover := if triggersPromotion p tr then promote p else p) in *.
  assert (Hmc : color mover = side)
    by (unfold mover; by destruct (triggersPromotion p tr)).
  assert (Hmn : number mover = number p)
    by (unfold mover; by destruct (triggersPromotion p tr)).
  (* the squares of the move hold no opposing piece, before or after *)
  assert (Hends : forall bd sq q, cell bd sq.1 sq.2 = Some (Some q) ->
            color q = side -> numberOf bd (opponent side) sq = 0).
  { intros bd sq q Hq Hc. rewrite (numberOf_piece _ _ _ _ Hq).
    rewrite decide_False; [done|]. rewrite Hc. intros H. symmetry in H.
    by apply (opponent_ne side). }
  assert (H3opp : material b3 (opponent side)
                  = material b (opponent side) - pp).
  { unfold material.
    assert (Hsame : forall sq, (forall r c, (r, c) = sq ->
                      (r, c) <> (fr, fc) -> (r, c) <> (tr, tc) ->
                      cell b3 r c = cell b r c) ->
              numberOf b3 (opponent side) sq = numberOf b (opponent side) sq).
    { intros [r c] Hsq. destruct (decide ((r, c) = (fr, fc))) as [[= -> ->]|Hnf].
      - rewrite (numberOf_empty b3) by done. symmetry. by eapply Hends.
      - destruct (decide ((r, c) = (tr, tc))) as [[= -> ->]|Hnt].
        + rewrite (numberOf_empty b) by done. by eapply Hends.
        + apply numberOf_cell. simpl. by apply Hsq. }
    destruct H3other as [[-> Hother]|(m & Hm8 & Hmf & Hmt & Hm & -> & Hm3
                                      & Hother)].
    - rewrite Z.sub_0_r. apply sumZ_ext. intros sq _. apply Hsame.
      intros r c _. apply Hother.
    - apply matchAt_true in Hm as (q & Hq & Hc & Hn).
      rewrite (sumZ_update (numberOf b (opponent side))
                 (numberOf b3 (opponent side)) squares8 m NoDup_squares8 Hm8).
      + rewrite (numberOf_empty b3 _ m Hm3).
        rewrite (numberOf_piece b _ m q Hq).
        rewrite Hside in Hc. rewrite decide_True by done. lia.
      + intros sq _ Hsq. apply Hsame. intros r c <-. intros H1 H2.
        by apply Hother. }
  split.
  - rewrite Hg. f_equal. lia.
  - intros Hfr Hfc Htr Htc. rewrite Hown. unfold material.
    set (h := fun sq => if decide (sq = (fr, fc)) then 0
                        else numberOf b side sq).
    assert (Hh : sumZ (h <$> squares8)
                 = sumZ (numberOf b side <$> squares8) - number p).
    { rewrite (sumZ_update (numberOf b side) h squares8 (fr, fc)
                 NoDup_squares8).
      - unfold h. rewrite decide_True by done.
        rewrite (numberOf_piece b side (fr, fc) p Hfrom).
        rewrite decide_True by done. lia.
      - apply elem_of_squares8. lia.
      - intros sq _ Hsq. unfold h. by rewrite decide_False. }
    rewrite (sumZ_update h (numberOf b3 side) squares8 (tr, tc)
               NoDup_squares8).
    + rewrite Hh. unfold h. rewrite decide_False by congruence.
      rewrite (numberOf_empty b side (tr, tc) Hto).
      rewrite (numberOf_piece b3 side (tr, tc) mover H3to).
      rewrite decide_True by done. lia.
    + apply elem_of_squares8. lia.
    + intros [r c] _ Hnt. unfold h.
      destruct (decide ((r, c) = (fr, fc))) as [[= -> ->]|Hnf].
      * by apply numberOf_empty.
      * destruct H3other as [[_ Hother]|(m & _ & _ & _ & Hm & _ & Hm3
                                         & Hother)].
        -- apply numberOf_cell. simpl. by apply Hother.
        -- destruct (decide ((r, c) = m)) as [<-|Hnm].
           ++ rewrite (numberOf_empty b3 _ _ Hm3).
              apply matchAt_true in Hm as (q & Hq & Hc & _).
              rewrite (numberOf_piece b side _ q Hq).
              rewrite decide_False; [done|]. rewrite Hc, Hside.
              apply opponent_ne.
           ++ apply numberOf_cell. simpl. by apply Hother.
Qed.

(** X18. The combination pass counts every captured square once: the
    squares it empties are the squares of the members of the accepted
    combinations that do not belong to the mover, each taken once even when
    it lies in several combinations, and its points are the sum of the
    numbers of the pieces on those squares. *)
Theorem combination_captures_counted_once (bd bd' : Board) (tr tc : nat)
    (side : Color) (cp : Z) (combos : list (list PD.t)) :
  checkCombinationsAroundPositionOnBoard tr tc bd side = Some combos ->
  combinationPass bd tr tc side = Some (bd', cp) ->
  exists captured,
    NoDup captured
    /\ (forall k, k ∈ captured <->
          exists c pd, c ∈ combos /\ pd ∈ c /\ keyOf pd = k
                       /\ capturable bd side k)
    /\ cp = sumZ (numberAt bd <$> captured)
    /\ forall r c, cell bd' r c
                   = if decide ((r, c) ∈ captured) then Some None
                     else cell bd r c.
Proof.
  intros Hc. unfold combinationPass. rewrite Hc.
  destruct (clearSquares bd _) as [bd1|] eqn:E; [|done].
  intros [= <- <-].
  destruct (collectCaptures_spec bd side combos) as (Hnd & Hmem & Hsum).
  exists (collectCaptures bd side combos).2. split_and!; try done.
  intros r c. by apply clearSquares_cell.
Qed.
(** ** Promotion in place *)

(** X19. [checkPromotion] throws when the row is missing, returns false
    on an empty square, on a promoted piece and away from the promotion
    rank of the piece, and otherwise marks the piece object promoted and
    returns true; no other object changes, a second call returns false
    and changes nothing, and when no other square holds that object the
    board reads as before except for the promoted piece. *)
Theorem checkPromotion_promotes_once (h : Heap.t) (board : nat) (b : Board)
    (row col : nat) :
  snapshot h board = Some b ->
  match cell b row col with
  | None => (checkPromotionH board row col h).1 = None
  | Some None => checkPromotionH board row col h = (Some false, h)
  | Some (Some p) =>
      if triggersPromotion p row then
        exists addr h',
          cellRef h board row col = Some (Some addr)
          /\ checkPromotionH board row col h = (Some true, h')
          /\ Heap.pieces h' = <[addr := promote p]> (Heap.pieces h)
          /\ Heap.rows h' = Heap.rows h /\ Heap.boards h' = Heap.boards h
          /\ checkPromotionH board row col h' = (Some false, h')
          /\ ((forall r c, cellRefq h board r c = Some (Some addr) ->
                           r = row /\ c = col) ->
              exists b', set_cell b row col (Some (promote p)) = Some b'
                         /\ snapshot h' board = Some b')
      else checkPromotionH board row col h = (Some false, h)
  end.
Proof.
  intros Hsnap. destruct (snapshot_reads h board b Hsnap) as (rr & refs & Hreads).
  pose proof (cellRef_reads h board rr refs b row col Hreads) as Hcell.
  unfold checkPromotionH.
  destruct (cell b row col) as [[p|]|] eqn:Ec.
  - destruct Hcell as [Href Hv].
    destruct (refAt refs row col) as [addr|] eqn:Eat; [|done].
    rewrite (bindH_read _ _ h _ Href). simpl in Hv.
    destruct (Heap.pieces h !! addr) as [p'|] eqn:Ep; [|done].
    assert (p' = p) as -> by (simpl in Hv; congruence).
    rewrite (bindH_read _ _ h _ Ep).
    unfold triggersPromotion. destruct (promoted p) eqn:Epr.
    { by rewrite andb_false_r. }
    rewrite andb_true_r. destruct (isPromotionRank (color p) row); [|done].
    set (h' := Heap.mk (<[addr := promote p]> (Heap.pieces h)) (Heap.rows h)
                 (Heap.boards h)).
    assert (Hset : setPromoted addr h = (Some tt, h')).
    { unfold setPromoted. by rewrite Ep. }
    assert (Hlt : (addr < length (Heap.pieces h))%nat)
      by (by eapply lookup_lt_Some).
    exists addr, h'. split; [done|].
    split; [by rewrite (bindH_ret _ _ h h' tt Hset)|].
    split; [done|]. split; [done|]. split; [done|]. split.
    + assert (Href' : cellRef h' board row col = Some (Some addr)) by done.
      rewrite (bindH_read _ _ h' _ Href').
      assert (Ep' : Heap.pieces h' !! addr = Some (promote p)).
      { simpl. by rewrite list_lookup_insert_eq. }
      by rewrite (bindH_read _ _ h' _ Ep').
    + intros Honly.
      destruct (setPromoted_reads h board rr refs b addr p row col Hreads Ep Eat)
        as (h'' & b' & Hset' & Hb' & _ & _ & _ & Hreads').
      { intros r c Hrc. apply Honly.
        rewrite (cellRefq_reads h board rr refs b r c Hreads). by rewrite Hrc. }
      assert (h'' = h') as -> by congruence.
      exists b'. split; [done|]. by eapply reads_snapshot.
  - destruct Hcell as [Href Hv].
    destruct (refAt refs row col) as [addr|] eqn:Eat.
    { simpl in Hv. by destruct (Heap.pieces h !! addr). }
    by rewrite (bindH_read _ _ h _ Href).
  - by apply bindH_read_throw.
Qed.

(** ** The simulator reads the contents of the board only *)

(** X20. The outcome of the simulator is a function of the contents of
    the source board: on two heaps, from two board objects that read the
    same (whatever objects they are made of, shared or not), it throws on
    both or returns on both, with the same score gain and choice flag and
    with boards of the same contents. *)
Theorem simulateFullMove_depends_on_contents_only (fr fc tr tc : nat)
    (side : Color) (source1 source2 : nat) (h1 h2 : Heap.t) (b : Board) :
  snapshot h1 source1 = Some b ->
  snapshot h2 source2 = Some b ->
  sameOutcome (simulateFullMoveH fr fc tr tc side source1 h1)
    (simulateFullMoveH fr fc tr tc side source2 h2).
Proof.
  intros H1 H2.
  pose proof (simulateFullMoveH_refines fr fc tr tc side source1 h1 b H1) as R1.
  pose proof (simulateFullMoveH_refines fr fc tr tc side source2 h2 b H2) as R2.
  unfold sameOutcome.
  destruct (simulateFullMove fr fc tr tc side b) as [res|].
  - destruct R1 as (r1 & h1' & -> & Hg1 & Hl1 & Hb1).
    destruct R2 as (r2 & h2' & -> & Hg2 & Hl2 & Hb2). simpl.
    split; [congruence|]. split; [congruence|].
    destruct (tempBoardH r1), (tempBoardH r2), (tempBoard res); try done.
    rewrite Hb1, Hb2. eauto.
  - destruct (simulateFullMoveH _ _ _ _ _ source1 h1) as [[r1|] h1'];
      [done|].
    destruct (simulateFullMoveH _ _ _ _ _ source2 h2) as [[r2|] h2'];
      done.
Qed.
(** ** The further properties at concrete positions *)

(** The generator on [clusterBoard], White to move. *)
Lemma move_generator_clusterBoard :
  exists moves,
    getAllPossibleMovesForPlayerOnBoard white clusterBoard = Some moves
    /\ length moves = 6%nat
    /\ (forall m, m ∈ moves <-> legalMove clusterBoard white m)
    /\ NoDup moves.
Proof.
  eexists. split; [vm_compute; reflexivity|]. split; [reflexivity|].
  apply (move_generator_exact white clusterBoard). vm_compute. reflexivity.
Defined.

Lemma hasValidMoves_clusterBoard :
  exists moves,
    getAllPossibleMovesForPlayer clusterBoard black = Some moves
    /\ length moves = 3%nat
    /\ hasValidMoves clusterBoard black
       = Some (negb (bool_decide (moves = []))).
Proof.
  eexists. split; [vm_compute; reflexivity|]. split; [reflexivity|].
  apply (hasValidMoves_iff_generator clusterBoard black). vm_compute.
  reflexivity.
Defined.

Lemma random64_quarters :
  0 <= random64 (1 # 4) (3 # 4) < 2 ^ 64
  /\ random64 (1 # 4) (3 # 4) = random32 (3 # 4) * 2 ^ 32 + random32 (1 # 4)
  /\ Z.shiftr (random64 (1 # 4) (3 # 4)) 32 = random32 (3 # 4)
  /\ Z.land (random64 (1 # 4) (3 # 4)) (2 ^ 32 - 1) = random32 (1 # 4).
Proof.
  apply (random64_is_64_bit (1 # 4) (3 # 4)); split; reflexivity || discriminate.
Defined.

Lemma ZOBRIST_hashes_initial_position :
  Zobrist.wf_table (ZOBRIST.table exampleRand)
  /\ exists h,
       Zobrist.calculateZobristKey (ZOBRIST.table exampleRand)
         (ZOBRIST.blackToMove exampleRand) initializeBoardData white = Some h
       /\ 0 <= h < 2 ^ 64.
Proof.
  apply (ZOBRIST_hashes_every_position exampleRand initializeBoardData white).
  - exact exampleRand_range.
  - by apply wf_boardb_spec.
  - by apply wf_piecesb_spec.
Defined.

Lemma getPieceIndex_W5_B5 :
  let p := mkPiece white 5 false in
  let q := mkPiece black 5 true in
  0 <= Zobrist.getPieceIndex p <= 15
  /\ (Zobrist.getPieceIndex p = Zobrist.getPieceIndex q <->
      color p = color q /\ number p = number q)
  /\ forall n f1 f2,
       Zobrist.getPieceIndex (mkPiece white (n + 8) f1)
       = Zobrist.getPieceIndex (mkPiece black n f2).
Proof.
  intros p q. apply (getPieceIndex_distinct_rows p q);
    unfold wf_piece; simpl; lia.
Defined.

Lemma nextHash_round_trip_quietBoard :
  exists h1,
    Zobrist.nextHash exampleTable exampleBlackToMove 1049180
      (mkPiece black 1 false) 3 3 4 3 = Some h1
    /\ Zobrist.nextHash exampleTable exampleBlackToMove h1
         (mkPiece black 1 false) 4 3 3 3 = Some 1049180.
Proof.
  eexists. split; [vm_compute; reflexivity|].
  refine (proj1 (nextHash_round_trip exampleTable exampleBlackToMove 1049180
                   _ (mkPiece black 1 false) 3 3 4 3 _)).
  vm_compute. reflexivity.
Defined.




Lemma table_grows_quietGame :
  exists v tbl',
    alphaBetaSearch exampleTable exampleBlackToMove 2 white quietGame
      NegInf PosInf false 1049180 ∅ = Some (v, tbl')
    /\ table_grows 2 ∅ tbl'.
Proof.
  destruct (alphaBetaSearch exampleTable exampleBlackToMove 2 white quietGame
              NegInf PosInf false 1049180 ∅) as [[v tbl']|] eqn:E.
  - exists v, tbl'. split; [reflexivity|].
    exact (alphaBetaSearch_table_grows _ _ _ _ _ _ _ _ _ _ _ _ E).
  - exfalso. vm_compute in E. discriminate E.
Defined.


Lemma simulateFullMove_clusterBoard_one_piece :
  let p := mkPiece white 3 false in
  simulateFullMove 5 4 4 4 white clusterBoard
  = Some (mkSim (Some clusterBoardAfter) (of_Z 4) false)
  /\ cell clusterBoardAfter 5 4 = Some None
  /\ cell clusterBoardAfter 4 4
     = Some (Some (if triggersPromotion p 4 then promote p else p))
  /\ (forall r c q, (r, c) <> (5, 4)%nat ->
        cell clusterBoard r c = Some (Some q) ->
        color q = white -> cell clusterBoardAfter r c = Some (Some q))
  /\ (forall r c, (r, c) <> (4, 4)%nat ->
        cell clusterBoardAfter r c = cell clusterBoard r c
        \/ cell clusterBoardAfter r c = Some None).
Proof.
  intros p.
  assert (Hsim : simulateFullMove 5 4 4 4 white clusterBoard
                 = Some (mkSim (Some clusterBoardAfter) (of_Z 4) false))
    by (vm_compute; reflexivity).
  split; [exact Hsim|].
  exact (simulateFullMove_moves_one_piece 5 4 4 4 white clusterBoard
           clusterBoardAfter _ p Hsim eq_refl eq_refl).
Defined.

Lemma gain_is_material_clusterBoard :
  material clusterBoard black = 4 /\ material clusterBoardAfter black = 0
  /\ of_Z 4
     = of_Z (material clusterBoard (opponent white)
             - material clusterBoardAfter (opponent white))
  /\ ((5 < 8)%nat -> (4 < 8)%nat -> (4 < 8)%nat -> (4 < 8)%nat ->
      material clusterBoardAfter white = material clusterBoard white).
Proof.
  split; [reflexivity|]. split; [reflexivity|].
  apply (gain_is_captured_material 5 4 4 4 white clusterBoard
           clusterBoardAfter (mkSim (Some clusterBoardAfter) (of_Z 4) false)).
  - vm_compute. reflexivity.
  - reflexivity.
Defined.

Lemma combination_captures_clusterBoard :
  exists combos captured,
    checkCombinationsAroundPositionOnBoard 4 4 clusterBoardMoved white
    = Some combos
    /\ NoDup captured
    /\ (forall k, k ∈ captured <->
          exists c pd, c ∈ combos /\ pd ∈ c /\ keyOf pd = k
                       /\ capturable clusterBoardMoved white k)
    /\ 4 = sumZ (numberAt clusterBoardMoved <$> captured)
    /\ forall r c, cell clusterBoardAfter r c
                   = if decide ((r, c) ∈ captured) then Some None
                     else cell clusterBoardMoved r c.
Proof.
  eexists.
  edestruct (combination_captures_counted_once clusterBoardMoved
               clusterBoardAfter 4 4 white 4) as (captured & H).
  - vm_compute. reflexivity.
  - vm_compute. reflexivity.
  - exists captured. split; [vm_compute; reflexivity|]. exact H.
Defined.

Lemma checkPromotion_choiceHeap :
  let p := mkPiece white 2 false in
  exists addr h',
    cellRef choiceHeap 0 0 0 = Some (Some addr)
    /\ checkPromotionH 0 0 0 choiceHeap = (Some true, h')
    /\ Heap.pieces h' = <[addr := promote p]> (Heap.pieces choiceHeap)
    /\ Heap.rows h' = Heap.rows choiceHeap
    /\ Heap.boards h' = Heap.boards choiceHeap
    /\ checkPromotionH 0 0 0 h' = (Some false, h')
    /\ ((forall r c, cellRefq choiceHeap 0 r c = Some (Some addr) ->
                     r = 0%nat /\ c = 0%nat) ->
        exists b', set_cell choiceBoardUnpromoted 0 0 (Some (promote p))
                   = Some b'
                   /\ snapshot h' 0 = Some b').
Proof.
  intros p.
  exact (checkPromotion_promotes_once choiceHeap 0 choiceBoardUnpromoted 0 0
           eq_refl).
Defined.

Lemma simulateFullMove_two_copies_of_clusterBoard :
  snapshot clusterHeap 0 = Some clusterBoard
  /\ snapshot clusterHeap 1 = Some clusterBoard
  /\ sameOutcome (simulateFullMoveH 5 4 4 4 white 0 clusterHeap)
       (simulateFullMoveH 5 4 4 4 white 1 clusterHeap).
Proof.
  split; [reflexivity|]. split; [reflexivity|].
  apply (simulateFullMove_depends_on_contents_only 5 4 4 4 white 0 1
           clusterHeap clusterHeap clusterBoard); reflexivity.
Defined.

(** ** The incremental hash after a capture *)

Lemma xorAll_ext {A} (f g : A -> Z) (l : list A) :
  (forall x, x ∈ l -> g x = f x) ->
  Zobrist.xorAll (g <$> l) = Zobrist.xorAll (f <$> l).
Proof.
  unfold Zobrist.xorAll. induction l as [|x l IH]; intros H; [done|].
  rewrite !fmap_cons. cbn [foldr].
  rewrite (H x) by (by left). rewrite IH; [done|].
  intros y Hy. apply H. by right.
Qed.

(** Changing one operand of the XOR over a list without repetition. *)
Lemma xorAll_update {A} (f g : A -> Z) (l : list A) (s : A) :
  NoDup l -> s ∈ l -> (forall x, x ∈ l -> x <> s -> g x = f x) ->
  Zobrist.xorAll (g <$> l)
  = Z.lxor (Z.lxor (Zobrist.xorAll (f <$> l)) (f s)) (g s).
Proof.
  induction l as [|x l IH]; intros Hnd Hs H; [by apply elem_of_nil in Hs|].
  apply NoDup_cons in Hnd as [Hx Hnd]. rewrite !fmap_cons.
  change (Z.lxor (g x) (Zobrist.xorAll (g <$> l))
          = Z.lxor (Z.lxor (Z.lxor (f x) (Zobrist.xorAll (f <$> l))) (f s))
              (g s)).
  apply elem_of_cons in Hs as [->|Hs].
  - rewrite (xorAll_ext f g l); [xor_solve|].
    intros y Hy. apply H; [by right|]. intros ->. done.
  - assert (Hne : x <> s) by (intros ->; done).
    rewrite (H x) by (done || by left).
    rewrite IH; [xor_solve|done..|]. intros y Hy. apply H. by right.
Qed.

(** Zeroing the operands of a set of places. *)
Lemma xorAll_remove `{EqDecision A} (S : list A) :
  forall (f g : A -> Z) (l : list A),
  NoDup l -> NoDup S -> (forall x, x ∈ S -> x ∈ l) ->
  (forall x, x ∈ l -> g x = if decide (x ∈ S) then 0 else f x) ->
  Zobrist.xorAll (g <$> l)
  = Z.lxor (Zobrist.xorAll (f <$> l)) (Zobrist.xorAll (f <$> S)).
Proof.
  induction S as [|s S IH]; intros f g l Hl HS Hsub Hg.
  - simpl. rewrite Z.lxor_0_r. apply xorAll_ext.
    intros x Hx. rewrite (Hg x Hx).
    by rewrite decide_False by apply not_elem_of_nil.
  - apply NoDup_cons in HS as [Hs HS].
    set (f' := fun x => if decide (x = s) then 0 else f x).
    rewrite (IH f' g l Hl HS).
    + rewrite (xorAll_update f f' l s Hl).
      * rewrite (xorAll_ext f f' S).
        -- rewrite fmap_cons.
           change (Zobrist.xorAll (f s :: (f <$> S)))
             with (Z.lxor (f s) (Zobrist.xorAll (f <$> S))).
           unfold f'. rewrite decide_True by done. xor_solve.
        -- intros x Hx. unfold f'. rewrite decide_False; [done|].
           intros ->. done.
      * apply Hsub. by left.
      * intros x _ Hx. unfold f'. by rewrite decide_False.
    + intros x Hx. apply Hsub. by right.
    + intros x Hx. rewrite (Hg x Hx). unfold f'.
      destruct (decide (x = s)) as [->|Hne].
      * rewrite decide_True by (by left). by destruct (decide (s ∈ S)).
      * destruct (decide (x ∈ S)) as [Hin|Hin].
        -- rewrite decide_True by (by right). done.
        -- rewrite decide_False; [done|].
           intros [->|?]%elem_of_cons; done.
Qed.

Lemma mapM_is_Some {A B} (f : A -> option B) (l : list A) (ks : list B) :
  mapM f l = Some ks -> forall x, x ∈ l -> is_Some (f x).
Proof.
  revert ks. induction l as [|y l IH]; intros ks H x Hx;
    [by apply elem_of_nil in Hx|].
  simpl in H. destruct (f y) as [k|] eqn:Ek; simpl in H; [|done].
  destruct (mapM f l) as [ks0|] eqn:Em; simpl in H; [|done].
  apply elem_of_cons in Hx as [->|Hx]; [by rewrite Ek|by eapply IH].
Qed.

Lemma mapM_default (f : nat * nat -> option Z) (l : list (nat * nat)) :
  (forall x, x ∈ l -> is_Some (f x)) ->
  mapM f l = Some ((fun x => default 0 (f x)) <$> l).
Proof.
  induction l as [|y l IH]; intros H; [done|].
  simpl. destruct (H y) as [k Hk]; [by left|]. rewrite Hk. simpl.
  rewrite IH by (intros x Hx; apply H; by right). done.
Qed.

Section ZobristCaptures.

Variable table : list (list Z).
Variable blackToMove : Z.

(** X21. The incremental hash update leaves the captured pieces in the
    hash: after any simulated move between squares of the board,
    capturing and promoting or not, the full hash of the resulting
    position with the other side to move is the incremental hash XOR the
    keys that the pieces taken by the move had on the board before. *)
Theorem incremental_hash_omits_captures (fr fc tr tc : nat) (side : Color)
    (b tb : Board) (res : SimResult) (p : Piece) (h h' : Z) :
  (fr < 8)%nat -> (fc < 8)%nat -> (tr < 8)%nat -> (tc < 8)%nat ->
  simulateFullMove fr fc tr tc side b = Some res ->
  tempBoard res = Some tb ->
  cellq b fr fc = Some p ->
  Zobrist.calculateZobristKey table blackToMove b side = Some h ->
  Zobrist.nextHash table blackToMove h p fr fc tr tc = Some h' ->
  exists ks,
    mapM (Zobrist.squareKey table b) (capturedSquares b tb fr fc) = Some ks
    /\ Zobrist.calculateZobristKey table blackToMove tb (opponent side)
       = Some (Z.lxor h' (Zobrist.xorAll ks)).
Proof.
  intros Hfr Hfc Htr Htc Hsim Htb Hp Hh Hh'.
  destruct (simulateFullMove_phases _ _ _ _ _ _ _ _ Hsim Htb)
    as (p' & b1 & b2 & b3 & pp & cp & Hfrom & Hside & Hto & E1 & E2 & E3 & E4
        & Hg).
  apply cellq_cell in Hp. assert (p' = p) as -> by congruence.
  pose proof (fun r c => relocate_cell _ _ _ _ _ _ _ _ r c E1 E2) as Hb2.
  destruct (promotionPass_effect _ _ _ _ _ _ _ _ _ _ Hfrom Hto Hb2 E3)
    as (H3from & H3to & H3other).
  pose proof (fun r c => combinationPass_cell _ _ _ _ _ _ r c E4) as Htbc.
  set (mover := if triggersPromotion p tr then promote p else p) in *.
  assert (Hmi : Zobrist.getPieceIndex mover = Zobrist.getPieceIndex p)
    by (unfold mover; by destruct (triggersPromotion p tr)).
  assert (Hmc : color mover = side)
    by (unfold mover; by destruct (triggersPromotion p tr)).
  assert (Hne : (fr, fc) <> (tr, tc)) by (intros [= -> ->]; congruence).
  (* the resulting board, square by square *)
  assert (Htfrom : cell tb fr fc = Some None)
    by (destruct (Htbc fr fc) as [->|[-> _]]; done).
  assert (Htto : cell tb tr tc = Some (Some mover)).
  { destruct (Htbc tr tc) as [->|[_ (q & Hq & Hnq)]]; [done|].
    rewrite H3to in Hq. injection Hq as <-. done. }
  assert (Htother : forall r c, (r, c) <> (tr, tc) ->
            cell tb r c = cell b r c \/ cell tb r c = Some None).
  { intros r c Hnt.
    assert (H3 : cell b3 r c = cell b r c \/ cell b3 r c = Some None).
    { destruct (decide ((r, c) = (fr, fc))) as [[= -> ->]|Hnf]; [by right|].
      destruct H3other as [[_ Hother]|(m & _ & _ & _ & _ & _ & Hm & Hother)].
      - left. by apply Hother.
      - destruct (decide ((r, c) = m)) as [<-|Hnm]; [by right|].
        left. by apply Hother. }
    destruct (Htbc r c) as [->|[-> _]]; [done|by right]. }
  (* the keys of the board before the move *)
  rewrite calculateZobristKey_xor in Hh.
  destruct (mapM (Zobrist.squareKey table b) squares8) as [ks0|] eqn:Eks;
    [|done].
  pose proof (mapM_is_Some _ _ _ Eks) as Hdef.
  assert (Hks0 : Some ks0
                 = Some ((fun sq => default 0 (Zobrist.squareKey table b sq))
                           <$> squares8))
    by (rewrite <- Eks; by apply mapM_default).
  apply (inj Some) in Hks0.
  set (f0 := fun sq => default 0 (Zobrist.squareKey table b sq)) in *.
  rewrite Hks0 in Hh. clear Hks0 Eks.
  set (S := capturedSquares b tb fr fc).
  assert (HS : forall sq, sq ∈ S <->
            sq ∈ squares8 /\ sq <> (fr, fc)
            /\ is_Some (cellq b sq.1 sq.2) /\ cell tb sq.1 sq.2 = Some None).
  { intros sq. unfold S, capturedSquares. rewrite list_elem_of_filter.
    tauto. }
  assert (HSnd : NoDup S) by (apply NoDup_filter, NoDup_squares8).
  assert (Hin : forall r c, (r < 8)%nat -> (c < 8)%nat -> (r, c) ∈ squares8)
    by (intros; by apply elem_of_squares8).
  unfold Zobrist.nextHash in Hh'.
  destruct (Zobrist.key table (Zobrist.getPieceIndex p) (fr * 8 + fc))
    as [k1|] eqn:Ek1; [|done].
  destruct (Zobrist.key table (Zobrist.getPieceIndex p) (tr * 8 + tc))
    as [k2|] eqn:Ek2; [|done].
  injection Hh' as <-.
  assert (Hf0from : f0 (fr, fc) = k1).
  { unfold f0, Zobrist.squareKey. simpl. by rewrite Hfrom, Ek1. }
  assert (Hf0to : f0 (tr, tc) = 0).
  { unfold f0, Zobrist.squareKey. simpl. by rewrite Hto. }
  exists (f0 <$> S). split.
  { rewrite (mapM_default (Zobrist.squareKey table b) S); [done|].
    intros sq Hsq. apply Hdef. by apply HS in Hsq as [? _]. }
  (* the keys of the board after the move *)
  set (f1 := fun sq => if decide (sq ∈ S) then 0 else f0 sq).
  set (f2 := fun sq => if decide (sq = (fr, fc)) then 0 else f1 sq).
  set (f3 := fun sq => if decide (sq = (tr, tc)) then k2 else f2 sq).
  assert (HnS_from : (fr, fc) ∉ S) by (intros H%HS; tauto).
  assert (HnS_to : (tr, tc) ∉ S).
  { intros H%HS. destruct H as (_ & _ & _ & H). simpl in H. congruence. }
  assert (Hkeys : forall sq, sq ∈ squares8 ->
            Zobrist.squareKey table tb sq = Some (f3 sq)).
  { intros [r c] Hsq. unfold f3, f2, f1.
    destruct (decide ((r, c) = (tr, tc))) as [[= -> ->]|Hnt].
    { unfold Zobrist.squareKey. simpl. by rewrite Htto, Hmi. }
    destruct (decide ((r, c) = (fr, fc))) as [[= -> ->]|Hnf].
    { unfold Zobrist.squareKey. simpl. by rewrite Htfrom. }
    destruct (decide ((r, c) ∈ S)) as [HinS|HninS].
    { apply HS in HinS as (_ & _ & _ & H). unfold Zobrist.squareKey.
      by rewrite H. }
    destruct (Hdef (r, c) Hsq) as [k Hk].
    destruct (Htother r c Hnt) as [Heq|Hemp].
    - rewrite (squareKey_cell table b tb (r, c) Heq). unfold f0.
      by rewrite Hk.
    - unfold Zobrist.squareKey. simpl. rewrite Hemp. f_equal.
      unfold f0, Zobrist.squareKey. simpl.
      destruct (cell b r c) as [[q|]|] eqn:Eq; [|done|done].
      exfalso. apply HninS. apply HS. simpl. split_and!; try done.
      exists q. by apply cellq_cell. }
  rewrite calculateZobristKey_xor.
  rewrite (mapM_default (Zobrist.squareKey table tb) squares8)
    by (intros sq Hsq; rewrite (Hkeys sq Hsq); eauto).
  rewrite (xorAll_ext f3 _ squares8)
    by (intros sq Hsq; by rewrite (Hkeys sq Hsq)).
  rewrite (xorAll_update f2 f3 squares8 (tr, tc) NoDup_squares8
             (Hin _ _ Htr Htc))
    by (intros sq _ Hsq; unfold f3; by rewrite decide_False).
  rewrite (xorAll_update f1 f2 squares8 (fr, fc) NoDup_squares8
             (Hin _ _ Hfr Hfc))
    by (intros sq _ Hsq; unfold f2; by rewrite decide_False).
  rewrite (xorAll_remove S f0 f1 squares8 NoDup_squares8 HSnd)
    by (done || intros sq Hsq; by apply HS in Hsq as [? _]).
  assert (F3to : f3 (tr, tc) = k2) by (unfold f3; by rewrite decide_True).
  assert (F2to : f2 (tr, tc) = 0).
  { unfold f2, f1. rewrite decide_False by congruence.
    by rewrite decide_False. }
  assert (F2from : f2 (fr, fc) = 0) by (unfold f2; by rewrite decide_True).
  assert (F1from : f1 (fr, fc) = k1) by (unfold f1; by rewrite decide_False).
  rewrite F3to, F2to, F2from, F1from. f_equal.
  apply (inj Some) in Hh. revert Hh.
  generalize (Zobrist.xorAll (f0 <$> squares8)).
  generalize (Zobrist.xorAll (f0 <$> S)).
  intros x y <-. destruct side; cbn [opponent]; xor_solve.
Qed.

End ZobristCaptures.

Lemma incremental_hash_clusterBoard :
  exists ks,
    mapM (Zobrist.squareKey exampleTable clusterBoard)
      (capturedSquares clusterBoard clusterBoardAfter 5 4) = Some ks
    /\ Zobrist.calculateZobristKey exampleTable exampleBlackToMove
         clusterBoardAfter black
       = Some (Z.lxor 1049322 (Zobrist.xorAll ks)).
Proof.
  apply (incremental_hash_omits_captures exampleTable exampleBlackToMove
           5 4 4 4 white clusterBoard clusterBoardAfter
           (mkSim (Some clusterBoardAfter) (of_Z 4) false)
           (mkPiece white 3 false) 738 1049322).
  - lia.
  - lia.
  - lia.
  - lia.
  - vm_compute. reflexivity.
  - reflexivity.
  - reflexivity.
  - vm_compute. reflexivity.
  - vm_compute. reflexivity.
Defined.
